(** * A shallow embedding of the generic lexer ([lexer.go])

    The Go package implements Rob Pike's state-function lexer: a cursor
    over an input string ([Next], [Backup], [Peek], [Accept],
    [AcceptRun], [Ignore], [Emit], [Errorf]) and two drivers of the
    chain of state functions ([run], started as a goroutine by
    [NewLexer], and the [select]/[default] loop of [NextToken]).

    Layout of the development:
    - Go values: strings as byte lists, [int] as 64-bit integers in [Z]
      with the wrap-around written out, slice expressions that panic;
    - the part of Go's [unicode/utf8], [strings] and [fmt] that the
      package calls;
    - the [Lexer] record, the monad of methods on [*Lexer], and the
      methods themselves, in the order of the source;
    - the two drivers as functions, and the goroutine and its caller as
      a transition system;
    - the theorems. *)

From Stdlib Require Import ZArith Lia List Strings.Byte Strings.String.
From stdpp Require Import base list relations.
Import ListNotations.
Open Scope Z_scope.

(** ** Go values *)

(** A Go [string] is an immutable sequence of bytes. *)
Abbreviation gostring := (list byte).

Definition str (s : string) : gostring := list_byte_of_string s.

Definition byte_val (b : byte) : Z := Z.of_N (Byte.to_N b).

Definition byte_of (z : Z) : byte :=
  match Byte.of_N (Z.to_N (z mod 256)) with
  | Some b => b
  | None => x00
  end.

(** [len(s)] *)
Definition len (s : gostring) : Z := Z.of_nat (length s).

(** Go's [int] on a 64-bit platform: two's complement, arithmetic wraps. *)
Definition int_bits : Z := 64.
Definition min_int : Z := - 2 ^ (int_bits - 1).
Definition max_int : Z := 2 ^ (int_bits - 1) - 1.
Definition wrap (z : Z) : Z := (z - min_int) mod 2 ^ int_bits + min_int.
Definition is_int (z : Z) : Prop := min_int <= z <= max_int.

(** [int32] arithmetic, for [rune]. *)
Definition wrap32 (z : Z) : Z := (z + 2 ^ 31) mod 2 ^ 32 - 2 ^ 31.

(** What a call can come to: it returns, it panics (a run-time error
    such as a slice bound out of range or a call of a nil function), it
    blocks forever on a channel send that nothing will receive, or the
    bound on loop iterations of the embedding is used up. *)
Inductive outcome (A : Type) : Type :=
| Ok (a : A)
| Panic
| Blocked
| OutOfFuel.
Arguments Ok {A} a.
Arguments Panic {A}.
Arguments Blocked {A}.
Arguments OutOfFuel {A}.

(** The slice expression [s[lo:hi]]: a run-time panic unless
    [0 <= lo <= hi <= len(s)]. *)
Definition slice (s : gostring) (lo hi : Z) : outcome gostring :=
  if (0 <=? lo) && (lo <=? hi) && (hi <=? len s)
  then Ok (take (Z.to_nat (hi - lo)) (drop (Z.to_nat lo) s))
  else Panic.

(** [s[lo:]] *)
Definition slice_from (s : gostring) (lo : Z) : outcome gostring :=
  slice s lo (len s).

(** [s[:hi]] *)
Definition slice_to (s : gostring) (hi : Z) : outcome gostring :=
  slice s 0 hi.

(** [s[i]] for an index the caller has checked; the default is never
    read by the code below. *)
Definition index (s : gostring) (i : nat) : Z :=
  match s !! i with
  | Some b => byte_val b
  | None => 0
  end.

(** ** Go's [unicode/utf8] *)

Module utf8.

Definition RuneError : Z := 0xFFFD.
Definition RuneSelf : Z := 0x80.
Definition MaxRune : Z := 0x10FFFF.
Definition surrogateMin : Z := 0xD800.
Definition surrogateMax : Z := 0xDFFF.

Definition tx : Z := 0x80.
Definition t2 : Z := 0xC0.
Definition t3 : Z := 0xE0.
Definition t4 : Z := 0xF0.
Definition maskx : Z := 0x3F.
Definition mask2 : Z := 0x1F.
Definition mask3 : Z := 0x0F.
Definition mask4 : Z := 0x07.
Definition rune1Max : Z := 2 ^ 7 - 1.
Definition rune2Max : Z := 2 ^ 11 - 1.
Definition rune3Max : Z := 2 ^ 16 - 1.
Definition locb : Z := 0x80.
Definition hicb : Z := 0xBF.

(** Entries of the [first] table: the low three bits are the length of
    the sequence, the high four bits index [acceptRanges]. *)
Definition xx : Z := 0xF1.
Definition as_ : Z := 0xF0.
Definition s1 : Z := 0x02.
Definition s2 : Z := 0x13.
Definition s3 : Z := 0x03.
Definition s4 : Z := 0x23.
Definition s5 : Z := 0x34.
Definition s6 : Z := 0x04.
Definition s7 : Z := 0x44.

(** The table [first[256]], by ranges of the first byte. *)
Definition first (b : Z) : Z :=
  if b <? 0x80 then as_
  else if b <? 0xC2 then xx
  else if b <? 0xE0 then s1
  else if b =? 0xE0 then s2
  else if b <? 0xED then s3
  else if b =? 0xED then s4
  else if b <? 0xF0 then s3
  else if b =? 0xF0 then s5
  else if b <? 0xF4 then s6
  else if b =? 0xF4 then s7
  else xx.

(** [acceptRanges[i]] as the pair [(lo, hi)]; the entries after the
    fifth are the zero value. *)
Definition acceptRanges (i : Z) : Z * Z :=
  if i =? 0 then (locb, hicb)
  else if i =? 1 then (0xA0, hicb)
  else if i =? 2 then (locb, 0x9F)
  else if i =? 3 then (0x90, hicb)
  else if i =? 4 then (locb, 0x8F)
  else (0, 0).

(** [utf8.DecodeRuneInString(s)]: the first code point of [s] and its
    width in bytes; [(RuneError, 0)] for the empty string and
    [(RuneError, 1)] for a malformed sequence. *)
Definition DecodeRuneInString (s : gostring) : Z * Z :=
  let n := len s in
  if n <? 1 then (RuneError, 0)
  else
    let s0 := index s 0 in
    let x := first s0 in
    if as_ <=? x then
      let mask := Z.shiftr (wrap32 (Z.shiftl x 31)) 31 in
      (Z.lor (Z.land s0 (Z.lnot mask)) (Z.land RuneError mask), 1)
    else
      let sz := Z.land x 7 in
      let '(lo, hi) := acceptRanges (Z.shiftr x 4) in
      if n <? sz then (RuneError, 1)
      else
        let b1 := index s 1 in
        if (b1 <? lo) || (hi <? b1) then (RuneError, 1)
        else if sz <=? 2 then
          (Z.lor (Z.shiftl (Z.land s0 mask2) 6) (Z.land b1 maskx), 2)
        else
          let b2 := index s 2 in
          if (b2 <? locb) || (hicb <? b2) then (RuneError, 1)
          else if sz <=? 3 then
            (Z.lor (Z.lor (Z.shiftl (Z.land s0 mask3) 12)
                          (Z.shiftl (Z.land b1 maskx) 6))
                   (Z.land b2 maskx), 3)
          else
            let b3 := index s 3 in
            if (b3 <? locb) || (hicb <? b3) then (RuneError, 1)
            else
              (Z.lor (Z.lor (Z.lor (Z.shiftl (Z.land s0 mask4) 18)
                                   (Z.shiftl (Z.land b1 maskx) 12))
                            (Z.shiftl (Z.land b2 maskx) 6))
                     (Z.land b3 maskx), 4).

(** [utf8.ValidRune(r)] *)
Definition ValidRune (r : Z) : bool :=
  if (0 <=? r) && (r <? surrogateMin) then true
  else if (surrogateMax <? r) && (r <=? MaxRune) then true
  else false.

(** The conversion [string(r)], which is [utf8.AppendRune(nil, r)]. *)
Definition EncodeRune (r : Z) : gostring :=
  let enc3 (r : Z) :=
    [byte_of (Z.lor t3 (Z.shiftr r 12));
     byte_of (Z.lor tx (Z.land (Z.shiftr r 6) maskx));
     byte_of (Z.lor tx (Z.land r maskx))] in
  if (0 <=? r) && (r <=? rune1Max) then [byte_of r]
  else if (0 <=? r) && (r <=? rune2Max) then
    [byte_of (Z.lor t2 (Z.shiftr r 6));
     byte_of (Z.lor tx (Z.land r maskx))]
  else if negb (ValidRune r) then enc3 RuneError
  else if r <=? rune3Max then enc3 r
  else
    [byte_of (Z.lor t4 (Z.shiftr r 18));
     byte_of (Z.lor tx (Z.land (Z.shiftr r 12) maskx));
     byte_of (Z.lor tx (Z.land (Z.shiftr r 6) maskx));
     byte_of (Z.lor tx (Z.land r maskx))].

(** The statement [for i, r := range s]: the byte offset and the value
    of each code point of [s] in turn; a malformed byte counts as one
    [RuneError] of width one.  Every step consumes at least one byte, so
    [length s] steps are enough. *)
Fixpoint range_from (fuel : nat) (i : Z) (s : gostring) : list (Z * Z) :=
  match fuel with
  | O => []
  | S fuel' =>
      match s with
      | [] => []
      | _ :: _ =>
          let '(r, w) := DecodeRuneInString s in
          (i, r) :: range_from fuel' (i + w) (drop (Z.to_nat w) s)
      end
  end.

Definition range (s : gostring) : list (Z * Z) := range_from (length s) 0 s.

(** The code points of [s], in order. *)
Definition runes (s : gostring) : list Z := map snd (range s).

End utf8.

(** ** Go's [strings] *)

Module strings.

(** [strings.IndexByte(s, c)] *)
Fixpoint IndexByte_from (i : Z) (s : gostring) (c : byte) : Z :=
  match s with
  | [] => -1
  | b :: t => if Byte.eqb b c then i else IndexByte_from (i + 1) t c
  end.

Definition IndexByte (s : gostring) (c : byte) : Z := IndexByte_from 0 s c.

(** [strings.HasPrefix(s, prefix)] *)
Fixpoint HasPrefix (s prefix : gostring) : bool :=
  match prefix, s with
  | [], _ => true
  | _ :: _, [] => false
  | p :: prefix', b :: s' => Byte.eqb b p && HasPrefix s' prefix'
  end.

(** [strings.Index(s, substr)]: the offset of the first occurrence of
    [substr] in [s], or [-1]. *)
Fixpoint Index_from (i : Z) (s substr : gostring) : Z :=
  match s with
  | [] => if HasPrefix [] substr then i else -1
  | _ :: t => if HasPrefix s substr then i else Index_from (i + 1) t substr
  end.

Definition Index (s substr : gostring) : Z := Index_from 0 s substr.

(** [strings.IndexRune(s, r)]: the offset of the first occurrence of the
    code point [r] in [s], or [-1].  For [utf8.RuneError] it is the
    offset of the first malformed byte or encoded U+FFFD; a value that
    is no code point (such as the lexer's [EOF]) is never found. *)
Definition IndexRune (s : gostring) (r : Z) : Z :=
  if (0 <=? r) && (r <? utf8.RuneSelf) then IndexByte s (byte_of r)
  else if r =? utf8.RuneError then
    match find (fun p => snd p =? utf8.RuneError) (utf8.range s) with
    | Some (i, _) => i
    | None => -1
    end
  else if negb (utf8.ValidRune r) then -1
  else Index s (utf8.EncodeRune r).

(** [strings.Count(s, substr)] for a separator of one byte. *)
Definition CountByte (s : gostring) (c : byte) : Z :=
  len (filter (fun b => Byte.eqb b c = true) s).

End strings.

(** ** Go's [fmt], as far as [Token.String] and [Errorf] use it *)

Module fmt.

(** [truncateString] of the formatter: with a precision [prec], a string operand
    is cut after its first [prec] code points:
    [for i := range s { n--; if n < 0 { return s[:i] } }; return s]. *)
Fixpoint truncate_loop (n : Z) (rs : list (Z * Z)) (s : gostring) : gostring :=
  match rs with
  | [] => s
  | (i, _) :: rs' =>
      let n := n - 1 in
      if n <? 0 then take (Z.to_nat i) s else truncate_loop n rs' s
  end.

Definition truncateString (prec : Z) (s : gostring) : gostring :=
  truncate_loop prec (utf8.range s) s.

End fmt.

(** ** Tokens *)

(** [type TokenType int] *)
Definition TokenType := Z.

Definition TokenError : TokenType := -2.
Definition TokenEOF : TokenType := -1.

(** The rune returned by [Next] at the end of the input. *)
Definition EOF : Z := -1.

Module Token.

Record t : Type := mk {
  Typ : TokenType;   (* Type, such as itemNumber *)
  Val : gostring;    (* Value, such as "23.2" *)
  Pos : Z            (* location of token in input *)
}.

Section String.

(** [strconv.Quote], which the verb [%q] applies to a string: a
    double-quoted Go string literal.  Its escaping rests on Unicode
    tables and is left open. *)
Variable Quote : gostring -> gostring.

(** [fmt.Sprintf("%.10q...", v)] and [fmt.Sprintf("%q", v)] *)
Definition Sprintf_q_prec_dots (prec : Z) (v : gostring) : gostring :=
  Quote (fmt.truncateString prec v) ++ str "...".

Definition Sprintf_q (v : gostring) : gostring := Quote v.

(** [func (i Token) String() string] *)
Definition String (i : t) : gostring :=
  if Typ i =? TokenEOF then str "EOF"
  else if Typ i =? TokenError then Val i
  else if 10 <? len (Val i) then Sprintf_q_prec_dots 10 (Val i)
  else Sprintf_q (Val i).

End String.

End Token.

(** ** The lexer *)

Section Lexer.

(** [type StateFn func(l *Lexer) StateFn].  A value of the type is the
    name of a function of the grammar (a code pointer); the bodies
    are given with the drivers below.  The nil function is [None]. *)
Variable StateFn : Type.

Record Lexer : Type := mkLexer {
  name : gostring;            (* used only for error reports *)
  input : gostring;           (* the string being scanned *)
  state : option StateFn;     (* the next lexing function to enter *)
  Start : Z;                  (* start position of this item *)
  Pos : Z;                    (* current position in the input *)
  lastPos : Z;                (* position of last token in input *)
  Width : Z;                  (* width of last run from input *)
  tokens : list Token.t       (* channel of scanned tokens: its buffer *)
}.

(** Capacity of the channel made by [make(chan Token, 2)]. *)
Definition tokens_cap : nat := 2.

Definition set_state (v : option StateFn) (l : Lexer) : Lexer :=
  mkLexer (name l) (input l) v (Start l) (Pos l) (lastPos l) (Width l) (tokens l).
Definition set_Start (v : Z) (l : Lexer) : Lexer :=
  mkLexer (name l) (input l) (state l) v (Pos l) (lastPos l) (Width l) (tokens l).
Definition set_Pos (v : Z) (l : Lexer) : Lexer :=
  mkLexer (name l) (input l) (state l) (Start l) v (lastPos l) (Width l) (tokens l).
Definition set_lastPos (v : Z) (l : Lexer) : Lexer :=
  mkLexer (name l) (input l) (state l) (Start l) (Pos l) v (Width l) (tokens l).
Definition set_Width (v : Z) (l : Lexer) : Lexer :=
  mkLexer (name l) (input l) (state l) (Start l) (Pos l) (lastPos l) v (tokens l).
Definition set_tokens (v : list Token.t) (l : Lexer) : Lexer :=
  mkLexer (name l) (input l) (state l) (Start l) (Pos l) (lastPos l) (Width l) v.

(** *** Methods on [*Lexer]: a state and error monad *)

Definition M (A : Type) : Type := Lexer -> outcome (A * Lexer).

Definition ret {A} (a : A) : M A := fun l => Ok (a, l).

Definition bind {A B} (m : M A) (k : A -> M B) : M B :=
  fun l =>
    match m l with
    | Ok (a, l') => k a l'
    | Panic => Panic
    | Blocked => Blocked
    | OutOfFuel => OutOfFuel
    end.

Definition get : M Lexer := fun l => Ok (l, l).
Definition modify (f : Lexer -> Lexer) : M unit := fun l => Ok (tt, f l).

Definition lift {A} (o : outcome A) : M A :=
  fun l =>
    match o with
    | Ok a => Ok (a, l)
    | Panic => Panic
    | Blocked => Blocked
    | OutOfFuel => OutOfFuel
    end.

End Lexer.

Arguments mkLexer {StateFn}.
Arguments name {StateFn}.
Arguments input {StateFn}.
Arguments state {StateFn}.
Arguments Start {StateFn}.
Arguments Pos {StateFn}.
Arguments lastPos {StateFn}.
Arguments Width {StateFn}.
Arguments tokens {StateFn}.
Arguments set_state {StateFn}.
Arguments set_Start {StateFn}.
Arguments set_Pos {StateFn}.
Arguments set_lastPos {StateFn}.
Arguments set_Width {StateFn}.
Arguments set_tokens {StateFn}.
Arguments ret {StateFn A}.
Arguments bind {StateFn A B}.
Arguments get {StateFn}.
Arguments modify {StateFn}.
Arguments lift {StateFn A}.

Declare Scope lexer_scope.
Delimit Scope lexer_scope with lexer.
Notation "x <- m ;; k" := (bind m (fun x => k))
  (at level 100, m at next level, right associativity) : lexer_scope.
Notation "m ;; k" := (bind m (fun _ => k))
  (at level 100, right associativity) : lexer_scope.
Open Scope lexer_scope.

Section Methods.

Context {StateFn : Type}.

Local Abbreviation Lexer := (Lexer StateFn).
Local Abbreviation M := (M StateFn).

(** [func NewLexer(name, input string, startState StateFn) *Lexer]:
    the value it returns.  The goroutine it starts ([go l.run()]) is a
    thread of the transition system further down. *)
Definition NewLexer (name input : gostring) (startState : option StateFn)
  : Lexer :=
  mkLexer name input startState 0 0 0 0 [].

(** [func (l *Lexer) LineNumber() int] *)
Definition LineNumber : M Z :=
  l <- get ;;
  s <- lift (slice_to (input l) (lastPos l)) ;;
  ret (wrap (strings.CountByte s x0a + 1)).

(** The send [l.tokens <- t]: with the buffer full the sender waits
    for a receive. *)
Definition send (t : Token.t) : M unit :=
  l <- get ;;
  if (tokens_cap <=? length (tokens l))%nat then lift Blocked
  else modify (set_tokens (tokens l ++ [t])).

(** [func (l *Lexer) Emit(t TokenType)] *)
Definition Emit (t : TokenType) : M unit :=
  l <- get ;;
  v <- lift (slice (input l) (Start l) (Pos l)) ;;
  send (Token.mk t v (Start l)) ;;
  modify (fun l => set_Start (Pos l) l).

(** [func (l *Lexer) Next() rune] *)
Definition Next : M Z :=
  l <- get ;;
  if len (input l) <=? Pos l then
    modify (set_Width 0) ;;
    ret EOF
  else
    s <- lift (slice_from (input l) (Pos l)) ;;
    let '(r, w) := utf8.DecodeRuneInString s in
    modify (set_Width w) ;;
    modify (fun l => set_Pos (wrap (Pos l + Width l)) l) ;;
    ret r.

(** [func (l *Lexer) Ignore()] *)
Definition Ignore : M unit :=
  modify (fun l => set_Start (Pos l) l).

(** [func (l *Lexer) Backup()] *)
Definition Backup : M unit :=
  modify (fun l => set_Pos (wrap (Pos l - Width l)) l).

(** [func (l *Lexer) Peek() rune] *)
Definition Peek : M Z :=
  r <- Next ;;
  Backup ;;
  ret r.

(** [func (l *Lexer) Accept(valid string) bool] *)
Definition Accept (valid : gostring) : M bool :=
  r <- Next ;;
  if 0 <=? strings.IndexRune valid r then ret true
  else
    Backup ;;
    ret false.

(** The loop [for strings.IndexRune(valid, l.Next()) >= 0 {}] of
    [AcceptRun], at most [fuel] evaluations of its condition. *)
Fixpoint AcceptRun_loop (fuel : nat) (valid : gostring) : M unit :=
  match fuel with
  | O => lift OutOfFuel
  | S fuel' =>
      r <- Next ;;
      if 0 <=? strings.IndexRune valid r then AcceptRun_loop fuel' valid
      else ret tt
  end.

Definition AcceptRun_fuel (fuel : nat) (valid : gostring) : M unit :=
  AcceptRun_loop fuel valid ;;
  Backup.

(** [func (l *Lexer) AcceptRun(valid string)].  Every turn of the loop
    but the last moves [Pos] forward, so one more evaluation than the
    input has bytes always ends the loop ([AcceptRun_loop_total]). *)
Definition AcceptRun (valid : gostring) : M unit :=
  l <- get ;;
  AcceptRun_fuel (S (length (input l))) valid.

Section Errorf.

(** The operands [args ...interface{}] and [fmt.Sprintf]. *)
Variable Arg : Type.
Variable Sprintf : gostring -> list Arg -> gostring.

(** [func (l *Lexer) Errorf(format string, args ...interface{}) StateFn] *)
Definition Errorf (format : gostring) (args : list Arg)
  : M (option StateFn) :=
  l <- get ;;
  send (Token.mk TokenError (Sprintf format args) (Start l)) ;;
  ret None.

End Errorf.

End Methods.

Arguments Errorf {StateFn Arg}.

(** ** The drivers *)

Section Drivers.

Context {StateFn : Type}.

Local Abbreviation Lexer := (Lexer StateFn).
Local Abbreviation M := (M StateFn).

(** The grammar: [call f] is the Go call [f(l)] of the state function
    [f], returning the next state function or nil. *)
Variable call : StateFn -> M (option StateFn).

(** [func (l *Lexer) run()]:
    [for state := l.state; state != nil; { state = state(l) }],
    at most [fuel] state functions. *)
Fixpoint run_loop (fuel : nat) (state : option StateFn) : M unit :=
  match state with
  | None => ret tt
  | Some f =>
      match fuel with
      | O => lift OutOfFuel
      | S fuel' =>
          state' <- call f ;;
          run_loop fuel' state'
      end
  end.

Definition run (fuel : nat) : M unit :=
  l <- get ;;
  run_loop fuel (state l).

(** [func (l *Lexer) NextToken() Token]: the loop around
    [select { case token := <-l.tokens: ...; default: l.state = l.state(l) }],
    at most [fuel] turns through [default].  Calling a nil [l.state]
    is a run-time panic. *)
Fixpoint NextToken (fuel : nat) : M Token.t :=
  l <- get ;;
  match tokens l with
  | token :: rest =>
      modify (set_tokens rest) ;;
      modify (set_lastPos (Token.Pos token)) ;;
      ret token
  | [] =>
      match fuel with
      | O => lift OutOfFuel
      | S fuel' =>
          match state l with
          | None => lift Panic
          | Some f =>
              next <- call f ;;
              modify (set_state next) ;;
              NextToken fuel'
          end
      end
  end.

(** A consumer that calls [NextToken] [n] times, as the loop of the
    README does, and keeps what it is given. *)
Fixpoint consume (fuel : nat) (n : nat) : M (list Token.t) :=
  match n with
  | O => ret []
  | S n' =>
      t <- NextToken fuel ;;
      ts <- consume fuel n' ;;
      ret (t :: ts)
  end.

(** *** The goroutine and its caller

    [NewLexer] starts [run] in a goroutine and returns; the caller
    then calls [NextToken], whose [default] case calls state functions
    too.  The two threads share the [Lexer] and are synchronised by
    nothing but the channel.  A configuration holds the shared
    [Lexer], the control point of each thread and the tokens that
    [NextToken] has returned so far.  A call of a state function
    takes two steps, entry and return; its effect on the [Lexer] is
    taken at the return, so every run of the system is a schedule of
    the Go program (one in which a thread is not preempted between
    two statements of a state function). *)

(** Control points of [run]. *)
Inductive bg_thread : Type :=
| BgStart                             (* before [state := l.state] *)
| BgLoop (state : option StateFn)     (* at the test [state != nil] *)
| BgCall (f : StateFn)                (* inside [state(l)] *)
| BgDone.                             (* [run] has returned *)

(** Control points of the caller. *)
Inductive consumer : Type :=
| CIdle                               (* outside [NextToken] *)
| CSelect                             (* at the [select] *)
| CCall (f : StateFn).                (* inside [l.state(l)] *)

Inductive config : Type :=
| Cfg (l : Lexer) (b : bg_thread) (c : consumer) (out : list Token.t)
| Crash (out : list Token.t).         (* a panic ends the program *)

Inductive step : config -> config -> Prop :=
| bg_init l c out :
    step (Cfg l BgStart c out) (Cfg l (BgLoop (state l)) c out)
| bg_exit l c out :
    step (Cfg l (BgLoop None) c out) (Cfg l BgDone c out)
| bg_enter l f c out :
    step (Cfg l (BgLoop (Some f)) c out) (Cfg l (BgCall f) c out)
| bg_return l f c out next l' :
    call f l = Ok (next, l') ->
    step (Cfg l (BgCall f) c out) (Cfg l' (BgLoop next) c out)
| bg_panic l f c out :
    call f l = Panic ->
    step (Cfg l (BgCall f) c out) (Crash out)
| c_call l b out :
    step (Cfg l b CIdle out) (Cfg l b CSelect out)
| c_receive l b out token rest :
    tokens l = token :: rest ->
    step (Cfg l b CSelect out)
         (Cfg (set_lastPos (Token.Pos token) (set_tokens rest l)) b CIdle
              (out ++ [token]))
| c_enter l b out f :
    tokens l = [] ->
    state l = Some f ->
    step (Cfg l b CSelect out) (Cfg l b (CCall f) out)
| c_nil l b out :
    tokens l = [] ->
    state l = None ->
    step (Cfg l b CSelect out) (Crash out)
| c_return l b out f next l' :
    call f l = Ok (next, l') ->
    step (Cfg l b (CCall f) out) (Cfg (set_state next l') b CSelect out)
| c_panic l b out f :
    call f l = Panic ->
    step (Cfg l b (CCall f) out) (Crash out).

(** The program after [l := NewLexer(name, input, startState)]. *)
Definition initial (name input : gostring) (startState : option StateFn)
  : config :=
  Cfg (NewLexer name input startState) BgStart CIdle [].

Definition reachable (name input : gostring) (startState : option StateFn)
  (c : config) : Prop :=
  rtc step (initial name input startState) c.

(** Both threads are inside a state function. *)
Definition overlap (c : config) : Prop :=
  match c with
  | Cfg _ (BgCall _) (CCall _) _ => True
  | _ => False
  end.

End Drivers.

(** ** Two grammars *)

(** The scenario of the specification: digit runs are tokens of type 1,
    one-character operators tokens of type 2, blanks are skipped. *)
Module Arith.

Inductive fn : Type := lexStart.

Definition digits : gostring := str "0123456789".

Definition body (f : fn) : M fn (option fn) :=
  match f with
  | lexStart =>
      r <- Peek ;;
      if r =? EOF then
        Emit TokenEOF ;;
        ret None
      else if 0 <=? strings.IndexRune digits r then
        AcceptRun digits ;;
        Emit 1 ;;
        ret (Some lexStart)
      else if r =? 0x20 then
        Next ;;
        Ignore ;;
        ret (Some lexStart)
      else
        Next ;;
        Emit 2 ;;
        ret (Some lexStart)
  end.

Definition lexer (input : gostring) : Lexer fn :=
  NewLexer (str "arith") input (Some lexStart).

End Arith.

(** ** Notions used to state the properties *)

(** *** Well-formed UTF-8

    The well-formed byte sequences of the Unicode standard (table 3-7):
    [well_formed_len s] is the length of the well-formed sequence that
    [s] begins with, if there is one. *)

Definition continuation (c : Z) : bool := (0x80 <=? c) && (c <=? 0xBF).

Definition second_of_three (c0 c1 : Z) : bool :=
  if c0 =? 0xE0 then (0xA0 <=? c1) && (c1 <=? 0xBF)
  else if c0 =? 0xED then (0x80 <=? c1) && (c1 <=? 0x9F)
  else continuation c1.

Definition second_of_four (c0 c1 : Z) : bool :=
  if c0 =? 0xF0 then (0x90 <=? c1) && (c1 <=? 0xBF)
  else if c0 =? 0xF4 then (0x80 <=? c1) && (c1 <=? 0x8F)
  else continuation c1.

Definition well_formed_len (s : gostring) : option Z :=
  match s with
  | [] => None
  | b0 :: t =>
      let c0 := byte_val b0 in
      if c0 <=? 0x7F then Some 1
      else if (0xC2 <=? c0) && (c0 <=? 0xDF) then
        match t with
        | b1 :: _ => if continuation (byte_val b1) then Some 2 else None
        | _ => None
        end
      else if (0xE0 <=? c0) && (c0 <=? 0xEF) then
        match t with
        | b1 :: b2 :: _ =>
            if second_of_three c0 (byte_val b1) && continuation (byte_val b2)
            then Some 3 else None
        | _ => None
        end
      else if (0xF0 <=? c0) && (c0 <=? 0xF4) then
        match t with
        | b1 :: b2 :: b3 :: _ =>
            if second_of_four c0 (byte_val b1) && continuation (byte_val b2)
               && continuation (byte_val b3)
            then Some 4 else None
        | _ => None
        end
      else None
  end.

(** The decoder as a function of the length and the first four bytes. *)
Definition decode_core (n s0 b1 b2 b3 : Z) : Z * Z :=
  let x := utf8.first s0 in
  if utf8.as_ <=? x then
    let mask := Z.shiftr (wrap32 (Z.shiftl x 31)) 31 in
    (Z.lor (Z.land s0 (Z.lnot mask)) (Z.land utf8.RuneError mask), 1)
  else
    let sz := Z.land x 7 in
    let '(lo, hi) := utf8.acceptRanges (Z.shiftr x 4) in
    if n <? sz then (utf8.RuneError, 1)
    else if (b1 <? lo) || (hi <? b1) then (utf8.RuneError, 1)
    else if sz <=? 2 then
      (Z.lor (Z.shiftl (Z.land s0 utf8.mask2) 6) (Z.land b1 utf8.maskx), 2)
    else if (b2 <? utf8.locb) || (utf8.hicb <? b2) then (utf8.RuneError, 1)
    else if sz <=? 3 then
      (Z.lor (Z.lor (Z.shiftl (Z.land s0 utf8.mask3) 12)
                    (Z.shiftl (Z.land b1 utf8.maskx) 6))
             (Z.land b2 utf8.maskx), 3)
    else if (b3 <? utf8.locb) || (utf8.hicb <? b3) then (utf8.RuneError, 1)
    else
      (Z.lor (Z.lor (Z.lor (Z.shiftl (Z.land s0 utf8.mask4) 18)
                           (Z.shiftl (Z.land b1 utf8.maskx) 12))
                    (Z.shiftl (Z.land b2 utf8.maskx) 6))
             (Z.land b3 utf8.maskx), 4).

(** The entry of the [first] table by the range of the first byte. *)
Inductive first_class (c : Z) : Z -> Prop :=
| fc_ascii : c < 0x80 -> first_class c 0xF0
| fc_cont : 0x80 <= c < 0xC2 -> first_class c 0xF1
| fc_s1 : 0xC2 <= c < 0xE0 -> first_class c 0x02
| fc_s2 : c = 0xE0 -> first_class c 0x13
| fc_s3 : 0xE1 <= c < 0xED \/ 0xEE <= c < 0xF0 -> first_class c 0x03
| fc_s4 : c = 0xED -> first_class c 0x23
| fc_s5 : c = 0xF0 -> first_class c 0x34
| fc_s6 : 0xF1 <= c < 0xF4 -> first_class c 0x04
| fc_s7 : c = 0xF4 -> first_class c 0x44
| fc_high : 0xF5 <= c -> first_class c 0xF1.

(** [p] is a prefix of [s] that ends between two code points of [s]:
    the code points of [s] are those of [p] followed by those of the
    rest. *)
Definition code_point_prefix (p s : gostring) : Prop :=
  exists t, s = p ++ t /\ utf8.runes s = utf8.runes p ++ utf8.runes t.

(** *** Cursor states *)

(** The values a [Lexer] can hold in Go: its [int] fields are 64-bit
    integers and the length of a string is an [int]. *)
Definition typed {StateFn} (l : Lexer StateFn) : Prop :=
  is_int (Start l) /\ is_int (Pos l) /\ is_int (Width l) /\
  is_int (lastPos l) /\ len (input l) <= max_int.

(** The text from the scan offset on, [l.input[l.Pos:]] clipped to the
    input. *)
Definition rest {StateFn} (l : Lexer StateFn) : gostring :=
  drop (Z.to_nat (Pos l)) (input l).

(** Membership in the string [valid] as the package tests it. *)
Definition in_set (valid : gostring) (r : Z) : bool :=
  0 <=? strings.IndexRune valid r.

(** The offsets of a cursor in order. *)
Definition cursor_inv {StateFn} (l : Lexer StateFn) : Prop :=
  0 <= Start l <= Pos l /\ Pos l <= len (input l).

(** [run] is the longest run of code points of [valid] at the front of
    [s], and [t] what follows it: [s] splits into [run] and [t] between
    two of its code points, every code point of [run] is in [valid], and
    [t] is empty or begins with a code point that is not. *)
Definition max_run (valid s run t : gostring) : Prop :=
  s = run ++ t /\
  utf8.runes s = utf8.runes run ++ utf8.runes t /\
  Forall (fun r => in_set valid r = true) (utf8.runes run) /\
  (t = [] \/ in_set valid (fst (utf8.DecodeRuneInString t)) = false).

(** [n] calls of [Peek] in a row and the runes they return. *)
Fixpoint peeks {StateFn} (n : nat) : M StateFn (list Z) :=
  match n with
  | O => ret []
  | S n' =>
      r <- Peek ;;
      rs <- peeks n' ;;
      ret (r :: rs)
  end.

(** The state [NewLexer] returns for the input ["a1"]. *)
Definition fresh_a1 : Lexer unit := NewLexer (str "t") (str "a1") None.

(** The same lexer after [l.Next(); l.Emit(1)], and after the [Backup]
    that the one call of [Next] permits. *)
Definition emitted_a : Lexer unit :=
  mkLexer (str "t") (str "a1") None 1 1 0 1 [Token.mk 1 (str "a") 0].

Definition backed_up_behind_Start : Lexer unit :=
  mkLexer (str "t") (str "a1") None 1 0 0 1 [Token.mk 1 (str "a") 0].

(** States reached from [NewLexer] by calls of the cursor methods that
    keep to the contract of [Backup] ("can be called only once per call
    of next"): the flag says whether a [Backup] is permitted, that is,
    whether the last rune that [Next] stepped over has not been given
    back yet. *)
Inductive reached {StateFn : Type} : bool -> Lexer StateFn -> Prop :=
| reached_new nm inp start :
    len inp <= max_int -> reached false (NewLexer nm inp start)
| reached_Next may l r l' :
    reached may l -> Next l = Ok (r, l') -> reached true l'
| reached_Backup l l' :
    reached true l -> Backup l = Ok (tt, l') -> reached false l'
| reached_Peek may l r l' :
    reached may l -> Peek l = Ok (r, l') -> reached false l'
| reached_Accept may l valid b l' :
    reached may l -> Accept valid l = Ok (b, l') -> reached b l'
| reached_AcceptRun may l valid l' :
    reached may l -> AcceptRun valid l = Ok (tt, l') -> reached false l'
| reached_Ignore may l l' :
    reached may l -> Ignore l = Ok (tt, l') -> reached may l'
| reached_Emit may l t l' :
    reached may l -> Emit t l = Ok (tt, l') -> reached may l'.

(** The text of the pending token, [l.input[l.Start:l.Pos]]. *)
Definition pending {StateFn} (l : Lexer StateFn) : gostring :=
  take (Z.to_nat (Pos l - Start l)) (drop (Z.to_nat (Start l)) (input l)).

(** *** Grammars and token streams *)

(** The programs a state function of another package can be made of
    when it calls neither [Ignore] nor [Errorf] and does not assign to
    the exported fields: it reads the lexer and calls [Next], [Backup],
    [Peek], [Accept], [AcceptRun], [Emit] and [LineNumber]. *)
Inductive scanning {StateFn : Type} : forall {A : Type}, M StateFn A -> Prop :=
| sc_ret {A} (a : A) : scanning (ret a)
| sc_bind {A B} (m : M StateFn A) (k : A -> M StateFn B) :
    scanning m -> (forall a, scanning (k a)) -> scanning (bind m k)
| sc_get : scanning get
| sc_Next : scanning Next
| sc_Backup : scanning Backup
| sc_Peek : scanning Peek
| sc_Accept valid : scanning (Accept valid)
| sc_AcceptRun valid : scanning (AcceptRun valid)
| sc_Emit t : scanning (Emit t)
| sc_LineNumber : scanning LineNumber.

(** The tokens [ts] are consecutive pieces of [input] from the offset
    [from] up to the offset [to]: each has the offset of its text as
    [Pos] and that text as [Val]. *)
Fixpoint pieces (input : gostring) (from : Z) (ts : list Token.t) (to : Z)
  : Prop :=
  match ts with
  | [] => from = to /\ 0 <= from <= len input
  | t :: ts' =>
      Token.Pos t = from /\
      slice input from (from + len (Token.Val t)) = Ok (Token.Val t) /\
      pieces input (from + len (Token.Val t)) ts' to
  end.

(** The texts of the tokens one after the other. *)
Definition texts (ts : list Token.t) : gostring :=
  concat (map Token.Val ts).

Definition terminal (t : Token.t) : Prop :=
  Token.Typ t = TokenEOF \/ Token.Typ t = TokenError.

(** A grammar of one state function, which emits the end-of-input token
    and ends the scan. *)
Module Stop.

Inductive fn : Type := lexEOF.

Definition body (f : fn) : M fn (option fn) :=
  match f with
  | lexEOF =>
      Emit TokenEOF ;;
      ret None
  end.

Definition lexer : Lexer fn := NewLexer (str "stop") [] (Some lexEOF).

(** After the first [NextToken]. *)
Definition ended : Lexer fn := mkLexer (str "stop") [] None 0 0 0 0 [].

End Stop.

(** A grammar of one state function, [return l.Errorf("boom")].  For a
    format without verbs [fmt.Sprintf] returns the format. *)
Module Fail.

Inductive fn : Type := lexFail.

Definition Sprintf (format : gostring) (args : list unit) : gostring := format.

Definition body (f : fn) : M fn (option fn) :=
  match f with
  | lexFail => Errorf Sprintf (str "boom") []
  end.

Definition boom : Token.t := Token.mk TokenError (str "boom") 0.

(** After [NextToken] has run [lexFail] and returned the error token;
    and after [run] has called [lexFail] once more. *)
Definition delivered : Lexer fn := mkLexer (str "fail") [] None 0 0 0 0 [].

Definition second : Lexer fn := mkLexer (str "fail") [] None 0 0 0 0 [boom].

End Fail.

(** What a call leaves alone when it only moves the scan offset. *)
Definition frame {StateFn} (l l' : Lexer StateFn) : Prop :=
  tokens l' = tokens l /\ Start l' = Start l /\ input l' = input l /\
  state l' = state l.

(** What a state function of a [scanning] grammar does to the token
    stream: it appends consecutive pieces of the input, from the old
    token start to the new one. *)
Definition appends {StateFn} (l l' : Lexer StateFn) : Prop :=
  exists new,
    tokens l' = tokens l ++ new /\
    pieces (input l) (Start l) new (Start l') /\
    input l' = input l /\ state l' = state l.

(** The tokens delivered so far and those in the buffer are consecutive
    pieces of the input from its beginning to the token start. *)
Definition stream_inv {StateFn} (out : list Token.t) (l : Lexer StateFn)
  : Prop :=
  pieces (input l) 0 (out ++ tokens l) (Start l).

(** The tokens [ts] are the whole of [input] and end with an
    end-of-input token of empty text at [len(input)]. *)
Definition whole_input (input : gostring) (ts : list Token.t) : Prop :=
  texts ts = input /\
  exists t, last ts = Some t /\
            Token.Typ t = TokenEOF /\ Token.Val t = [] /\
            Token.Pos t = len input.

(** The grammar of the scenario without the rule for blanks: it calls
    neither [Ignore] nor [Errorf]. *)
Module Plain.

Inductive fn : Type := lexStart.

Definition body (f : fn) : M fn (option fn) :=
  match f with
  | lexStart =>
      r <- Peek ;;
      if r =? EOF then
        Emit TokenEOF ;;
        ret None
      else if 0 <=? strings.IndexRune Arith.digits r then
        AcceptRun Arith.digits ;;
        Emit 1 ;;
        ret (Some lexStart)
      else
        Next ;;
        Emit 2 ;;
        ret (Some lexStart)
  end.

End Plain.

(** *** Code points of a string *)

(** What the decoder makes of a string that is not empty, form by form:
    the value and the width of the well-formed sequence it begins with,
    or the replacement character and width one. *)
Inductive decoded : gostring -> Z -> Z -> Prop :=
| dec_one b0 t :
    byte_val b0 < 0x80 ->
    decoded (b0 :: t) (byte_val b0) 1
| dec_two b0 b1 t :
    0xC2 <= byte_val b0 <= 0xDF ->
    continuation (byte_val b1) = true ->
    decoded (b0 :: b1 :: t)
      ((byte_val b0 - 0xC0) * 64 + (byte_val b1 - 0x80)) 2
| dec_three b0 b1 b2 t :
    0xE0 <= byte_val b0 <= 0xEF ->
    second_of_three (byte_val b0) (byte_val b1) = true ->
    continuation (byte_val b2) = true ->
    decoded (b0 :: b1 :: b2 :: t)
      ((byte_val b0 - 0xE0) * 4096 + (byte_val b1 - 0x80) * 64
       + (byte_val b2 - 0x80)) 3
| dec_four b0 b1 b2 b3 t :
    0xF0 <= byte_val b0 <= 0xF4 ->
    second_of_four (byte_val b0) (byte_val b1) = true ->
    continuation (byte_val b2) = true ->
    continuation (byte_val b3) = true ->
    decoded (b0 :: b1 :: b2 :: b3 :: t)
      ((byte_val b0 - 0xF0) * 262144 + (byte_val b1 - 0x80) * 4096
       + (byte_val b2 - 0x80) * 64 + (byte_val b3 - 0x80)) 4
| dec_bad b0 t :
    well_formed_len (b0 :: t) = None ->
    decoded (b0 :: t) utf8.RuneError 1.

(** [r] is one of the code points of the string [valid]. *)
Definition code_point_of (valid : gostring) (r : Z) : Prop :=
  In r (utf8.runes valid).

(** *** More of the package: runs of calls, all of the interface *)

(** [n] calls of [Next] in a row and the runes they return. *)
Fixpoint nexts {StateFn} (n : nat) : M StateFn (list Z) :=
  match n with
  | O => ret []
  | S n' =>
      r <- Next ;;
      rs <- nexts n' ;;
      ret (r :: rs)
  end.

(** The newline byte that [LineNumber] counts, and the number of lines
    that begin in the first [n] bytes of [s]. *)
Definition newline : byte := x0a.

Definition lines_before (s : gostring) (n : Z) : Z :=
  1 + strings.CountByte (take (Z.to_nat n) s) newline.

(** The programs a state function of another package can be made of
    when it leaves the fields of the lexer to its methods: it reads the
    lexer and calls the methods of the package, [Ignore] and [Errorf]
    among them. *)
Inductive lexing {StateFn : Type} : forall {A : Type}, M StateFn A -> Prop :=
| lx_ret {A} (a : A) : lexing (ret a)
| lx_bind {A B} (m : M StateFn A) (k : A -> M StateFn B) :
    lexing m -> (forall a, lexing (k a)) -> lexing (bind m k)
| lx_get : lexing get
| lx_Next : lexing Next
| lx_Backup : lexing Backup
| lx_Peek : lexing Peek
| lx_Accept valid : lexing (Accept valid)
| lx_AcceptRun valid : lexing (AcceptRun valid)
| lx_Ignore : lexing Ignore
| lx_Emit t : lexing (Emit t)
| lx_Errorf {Arg} (Sprintf : gostring -> list Arg -> gostring) format args :
    lexing (Errorf Sprintf format args)
| lx_LineNumber : lexing LineNumber.

(** The text of the token [t] is the text of [input] at the offset
    that the token gives as its [Pos]. *)
Definition located (input : gostring) (t : Token.t) : Prop :=
  slice input (Token.Pos t) (Token.Pos t + len (Token.Val t))
  = Ok (Token.Val t).

(** What a program of the interface leaves alone, and what it does to
    the channel: it sends, never beyond the capacity of the channel,
    and every token it sends is of the error type or text of the
    input. *)
Definition sends_only {StateFn} (l l' : Lexer StateFn) : Prop :=
  name l' = name l /\ input l' = input l /\ state l' = state l /\
  lastPos l' = lastPos l /\
  ((length (tokens l) <= tokens_cap)%nat ->
   (length (tokens l') <= tokens_cap)%nat) /\
  exists new,
    tokens l' = tokens l ++ new /\
    Forall (fun t => Token.Typ t = TokenError \/ located (input l) t) new.

(** The tokens delivered so far and the tokens in the channel: the
    channel within its capacity, every token of the error type or text
    of the input. *)
Definition stream_ok {StateFn} (inp : gostring) (out : list Token.t)
  (l : Lexer StateFn) : Prop :=
  input l = inp /\
  (length (tokens l) <= tokens_cap)%nat /\
  Forall (fun t => Token.Typ t = TokenError \/ located inp t)
         (out ++ tokens l).

(** A grammar whose one state function sends three tokens in one call. *)
Module Triple.

Inductive fn : Type := lexThree.

Definition body (f : fn) : M fn (option fn) :=
  match f with
  | lexThree =>
      Emit 1 ;;
      Emit 2 ;;
      Emit 3 ;;
      ret None
  end.

Definition lexer : Lexer fn := NewLexer (str "triple") (str "abc") (Some lexThree).

End Triple.

(** A grammar whose one state function does nothing and asks to be
    called again. *)
Module Idle.

Inductive fn : Type := lexIdle.

Definition body (f : fn) : M fn (option fn) :=
  match f with
  | lexIdle => ret (Some lexIdle)
  end.

Definition lexer : Lexer fn := NewLexer (str "idle") (str "abc") (Some lexIdle).

End Idle.

(** ** The embedding on sample inputs *)

Example decode_ascii : utf8.DecodeRuneInString (str "a#") = (97, 1).
Proof. reflexivity. Qed.

(** U+00E9 (e acute) is the two bytes C3 A9. *)
Example decode_two_bytes :
  utf8.DecodeRuneInString [xc3; xa9; x21] = (0xE9, 2).
Proof. reflexivity. Qed.

(** U+20AC (euro sign) is E2 82 AC; U+1F600 is F0 9F 98 80. *)
Example decode_three_bytes :
  utf8.DecodeRuneInString [xe2; x82; xac] = (0x20AC, 3).
Proof. reflexivity. Qed.

Example decode_four_bytes :
  utf8.DecodeRuneInString [xf0; x9f; x98; x80] = (0x1F600, 4).
Proof. reflexivity. Qed.

(** A continuation byte on its own, and a truncated sequence. *)
Example decode_malformed :
  utf8.DecodeRuneInString [x80; x41] = (utf8.RuneError, 1) /\
  utf8.DecodeRuneInString [xe2; x82] = (utf8.RuneError, 1).
Proof. split; reflexivity. Qed.

Example encode_decode_samples :
  utf8.EncodeRune 0xE9 = [xc3; xa9] /\
  utf8.EncodeRune 0x20AC = [xe2; x82; xac] /\
  utf8.EncodeRune 0x1F600 = [xf0; x9f; x98; x80].
Proof. repeat split; reflexivity. Qed.

Example IndexRune_samples :
  strings.IndexRune (str "0123456789") 0x37 = 7 /\
  strings.IndexRune (str "0123456789") 0x61 = -1 /\
  strings.IndexRune (str "0123456789") (-1) = -1 /\
  strings.IndexRune [x61; xc3; xa9] 0xE9 = 1 /\
  strings.IndexRune [x61; xff] utf8.RuneError = 1.
Proof. repeat split; reflexivity. Qed.

Example truncate_ascii :
  fmt.truncateString 10 (str "hello, world") = str "hello, wor".
Proof. reflexivity. Qed.

(** Ten code points may be more than ten bytes. *)
Example truncate_counts_code_points :
  fmt.truncateString 2 [xc3; xa9; xc3; xa9; x61] = [xc3; xa9; xc3; xa9].
Proof. reflexivity. Qed.

Example arith_scenario :
  exists l,
    consume Arith.body 10 4 (Arith.lexer (str "1 + 23")) =
    Ok ([Token.mk 1 (str "1") 0; Token.mk 2 (str "+") 2;
         Token.mk 1 (str "23") 4; Token.mk TokenEOF [] 6], l).
Proof. eexists. vm_compute. reflexivity. Qed.

(** ** Facts about Go values *)

Lemma byte_val_range b : 0 <= byte_val b < 256.
Proof. unfold byte_val. pose proof (Byte.to_N_bounded b). lia. Qed.

Lemma wrap_id z : is_int z -> wrap z = z.
Proof.
  unfold is_int, wrap, min_int, max_int, int_bits. intros H.
  rewrite Z.mod_small; lia.
Qed.

Lemma len_nonneg (s : gostring) : 0 <= len s.
Proof. unfold len. lia. Qed.

Lemma len_app (s t : gostring) : len (s ++ t) = len s + len t.
Proof. unfold len. rewrite length_app. lia. Qed.

Lemma len_nil_iff (s : gostring) : len s = 0 <-> s = [].
Proof. unfold len. destruct s; simpl; split; intros; try congruence; lia. Qed.

Lemma slice_ok (s : gostring) lo hi :
  0 <= lo <= hi -> hi <= len s ->
  slice s lo hi = Ok (take (Z.to_nat (hi - lo)) (drop (Z.to_nat lo) s)).
Proof.
  intros H1 H2. unfold slice.
  destruct (Z.leb_spec 0 lo); [|lia].
  destruct (Z.leb_spec lo hi); [|lia].
  destruct (Z.leb_spec hi (len s)); [|lia].
  reflexivity.
Qed.

Lemma slice_panics (s : gostring) lo hi :
  lo < 0 \/ hi < lo \/ len s < hi -> slice s lo hi = Panic.
Proof.
  intros H. unfold slice.
  destruct (Z.leb_spec 0 lo); simpl; [|reflexivity].
  destruct (Z.leb_spec lo hi); simpl; [|reflexivity].
  destruct (Z.leb_spec hi (len s)); simpl; [lia|reflexivity].
Qed.

Lemma slice_from_ok (s : gostring) lo :
  0 <= lo <= len s -> slice_from s lo = Ok (drop (Z.to_nat lo) s).
Proof.
  intros H. unfold slice_from. rewrite slice_ok by lia.
  f_equal. apply take_ge. rewrite length_drop. unfold len. lia.
Qed.

(** ** Masks and shifts as arithmetic *)

(** Linear arithmetic with division and remainder by constants. *)
Ltac dlia := Z.to_euclidean_division_equations; lia.

(** Bits that do not overlap add up. *)
Lemma lor_shiftl_low (a b n : Z) :
  0 <= n -> 0 <= b < 2 ^ n -> Z.lor (Z.shiftl a n) b = a * 2 ^ n + b.
Proof.
  intros Hn Hb. rewrite <- Z.shiftl_mul_pow2 by assumption.
  rewrite <- Z.add_lor_land.
  replace (Z.land (Z.shiftl a n) b) with 0; [lia|].
  symmetry. apply Z.bits_inj'. intros i Hi.
  rewrite Z.land_spec, Z.bits_0.
  destruct (Z.lt_ge_cases i n) as [Hlt|Hge].
  - rewrite Z.shiftl_spec_low by assumption. reflexivity.
  - destruct (Z.eq_dec b 0) as [->|Hb0].
    + rewrite Z.bits_0. apply andb_false_r.
    + rewrite (Z.bits_above_log2 b i); [apply andb_false_r | lia |].
      apply Z.log2_lt_pow2; [lia|].
      apply Z.lt_le_trans with (2 ^ n); [lia|].
      apply Z.pow_le_mono_r; lia.
Qed.

Lemma lor_add_disjoint (a b n : Z) :
  0 <= n -> 0 <= b < 2 ^ n -> a mod 2 ^ n = 0 -> Z.lor a b = a + b.
Proof.
  intros Hn Hb Ha.
  assert (Hp : 0 < 2 ^ n) by (apply Z.pow_pos_nonneg; lia).
  pose proof (Z.div_mod a (2 ^ n) ltac:(lia)) as Hd.
  rewrite Ha, Z.add_0_r in Hd.
  rewrite Hd at 1. rewrite Z.mul_comm, <- Z.shiftl_mul_pow2 by assumption.
  rewrite lor_shiftl_low by assumption. lia.
Qed.

Lemma land_low_bits (a n : Z) (m : Z) :
  0 <= n -> m = Z.ones n -> Z.land a m = a mod 2 ^ n.
Proof. intros Hn ->. apply Z.land_ones. assumption. Qed.

(** The value of each well-formed form, as Go computes it with masks
    and shifts. *)
Lemma value_of_two (c0 c1 : Z) :
  0xC2 <= c0 <= 0xDF -> 0x80 <= c1 <= 0xBF ->
  Z.lor (Z.shiftl (Z.land c0 utf8.mask2) 6) (Z.land c1 utf8.maskx) =
  (c0 - 0xC0) * 64 + (c1 - 0x80).
Proof.
  intros H0 H1.
  rewrite (land_low_bits c0 5) by (reflexivity || lia).
  rewrite (land_low_bits c1 6) by (reflexivity || lia).
  rewrite lor_shiftl_low by (change (2 ^ 6) with 64; dlia).
  change (2 ^ 5) with 32. change (2 ^ 6) with 64. dlia.
Qed.

Lemma value_of_three (c0 c1 c2 : Z) :
  0xE0 <= c0 <= 0xEF -> 0x80 <= c1 <= 0xBF -> 0x80 <= c2 <= 0xBF ->
  Z.lor (Z.lor (Z.shiftl (Z.land c0 utf8.mask3) 12)
               (Z.shiftl (Z.land c1 utf8.maskx) 6))
        (Z.land c2 utf8.maskx) =
  (c0 - 0xE0) * 4096 + (c1 - 0x80) * 64 + (c2 - 0x80).
Proof.
  intros H0 H1 H2.
  rewrite (land_low_bits c0 4) by (reflexivity || lia).
  rewrite (land_low_bits c1 6) by (reflexivity || lia).
  rewrite (land_low_bits c2 6) by (reflexivity || lia).
  rewrite (Z.shiftl_mul_pow2 (c1 mod 2 ^ 6)) by lia.
  change (2 ^ 4) with 16. change (2 ^ 6) with 64.
  rewrite lor_shiftl_low by (change (2 ^ 12) with 4096; dlia).
  change (2 ^ 12) with 4096.
  rewrite (lor_add_disjoint _ _ 6) by (change (2 ^ 6) with 64; dlia).
  dlia.
Qed.

Lemma value_of_four (c0 c1 c2 c3 : Z) :
  0xF0 <= c0 <= 0xF4 -> 0x80 <= c1 <= 0xBF -> 0x80 <= c2 <= 0xBF ->
  0x80 <= c3 <= 0xBF ->
  Z.lor (Z.lor (Z.lor (Z.shiftl (Z.land c0 utf8.mask4) 18)
                      (Z.shiftl (Z.land c1 utf8.maskx) 12))
               (Z.shiftl (Z.land c2 utf8.maskx) 6))
        (Z.land c3 utf8.maskx) =
  (c0 - 0xF0) * 262144 + (c1 - 0x80) * 4096 + (c2 - 0x80) * 64 + (c3 - 0x80).
Proof.
  intros H0 H1 H2 H3.
  rewrite (land_low_bits c0 3) by (reflexivity || lia).
  rewrite (land_low_bits c1 6) by (reflexivity || lia).
  rewrite (land_low_bits c2 6) by (reflexivity || lia).
  rewrite (land_low_bits c3 6) by (reflexivity || lia).
  rewrite (Z.shiftl_mul_pow2 (c1 mod 2 ^ 6)) by lia.
  rewrite (Z.shiftl_mul_pow2 (c2 mod 2 ^ 6)) by lia.
  change (2 ^ 3) with 8. change (2 ^ 6) with 64. change (2 ^ 12) with 4096.
  rewrite lor_shiftl_low by (change (2 ^ 18) with 262144; dlia).
  change (2 ^ 18) with 262144.
  rewrite (lor_add_disjoint _ (c2 mod 64 * 64) 12)
    by (change (2 ^ 12) with 4096; dlia).
  rewrite (lor_add_disjoint _ _ 6) by (change (2 ^ 6) with 64; dlia).
  dlia.
Qed.

(** ** Facts about the decoder *)

Lemma Decode_core (s : gostring) :
  s <> [] ->
  utf8.DecodeRuneInString s =
  decode_core (len s) (index s 0) (index s 1) (index s 2) (index s 3).
Proof.
  intros Hs. unfold utf8.DecodeRuneInString.
  destruct (Z.ltb_spec (len s) 1) as [H|H]; [|reflexivity].
  destruct s; [congruence|]. unfold len in H. simpl length in H. lia.
Qed.

(** Case analysis on every comparison of the goal, each turned into
    the inequality it decides; impossible branches are closed at once. *)
Ltac test_le a b :=
  let T := fresh "T" in
  destruct (a <=? b) eqn:T; [apply Z.leb_le in T | apply Z.leb_gt in T].
Ltac test_lt a b :=
  let T := fresh "T" in
  destruct (a <? b) eqn:T; [apply Z.ltb_lt in T | apply Z.ltb_ge in T].
Ltac test_eq a b :=
  let T := fresh "T" in
  destruct (a =? b) eqn:T; [apply Z.eqb_eq in T | apply Z.eqb_neq in T].
Ltac test_one :=
  lazymatch goal with
  | |- context [?a <=? ?b] => test_le a b
  | |- context [?a <? ?b] => test_lt a b
  | |- context [?a =? ?b] => test_eq a b
  end.
Ltac tests :=
  repeat (test_one; try (exfalso; lia); cbn [orb andb negb fst snd]).

Lemma first_classify c : first_class c (utf8.first c).
Proof.
  unfold utf8.first. tests;
    first [ apply fc_ascii; lia | apply fc_cont; lia | apply fc_s1; lia
          | apply fc_s2; lia | apply fc_s3; lia | apply fc_s4; lia
          | apply fc_s5; lia | apply fc_s6; lia | apply fc_s7; lia
          | apply fc_high; lia ].
Qed.

(** Case analysis on the first byte [c0] of [decode_core], with the
    table entry, its size and its accept range computed. *)
Ltac decode_cases c0 :=
  unfold decode_core;
  destruct (first_classify c0);
  try (exfalso; lia);
  cbv zeta;
  match goal with
  | |- context [Z.leb utf8.as_ ?x] =>
      let v := eval vm_compute in (Z.leb utf8.as_ x) in
      change (Z.leb utf8.as_ x) with v; cbv iota
  end;
  try (match goal with
       | |- context [utf8.acceptRanges (Z.shiftr ?x 4)] =>
           let v := eval vm_compute in (utf8.acceptRanges (Z.shiftr x 4)) in
           change (utf8.acceptRanges (Z.shiftr x 4)) with v
       end;
       match goal with
       | |- context [Z.land ?x 7] =>
           let v := eval vm_compute in (Z.land x 7) in
           change (Z.land x 7) with v
       end);
  try (match goal with
       | |- context [Z.shiftr (wrap32 (Z.shiftl ?x 31)) 31] =>
           let v := eval vm_compute in (Z.shiftr (wrap32 (Z.shiftl x 31)) 31) in
           change (Z.shiftr (wrap32 (Z.shiftl x 31)) 31) with v
       end;
       change (Z.lnot 0) with (-1); change (Z.lnot (-1)) with 0;
       rewrite ?Z.land_m1_r, ?Z.land_0_r, ?Z.lor_0_r, ?Z.lor_0_l);
  cbv beta iota; unfold utf8.locb, utf8.hicb.

Lemma decode_core_width n c0 c1 c2 c3 :
  1 <= n ->
  1 <= snd (decode_core n c0 c1 c2 c3) <= 4 /\
  snd (decode_core n c0 c1 c2 c3) <= n.
Proof.
  intros Hn. decode_cases c0; tests; cbn [snd]; lia.
Qed.

(** The decoder reads no byte beyond the width it returns, and a
    shorter string that still holds that many bytes decodes alike. *)
Lemma decode_core_local n c0 c1 c2 c3 n' c1' c2' c3' :
  1 <= n ->
  snd (decode_core n c0 c1 c2 c3) <= n' <= n ->
  (2 <= n' -> c1' = c1) -> (3 <= n' -> c2' = c2) -> (4 <= n' -> c3' = c3) ->
  decode_core n' c0 c1' c2' c3' = decode_core n c0 c1 c2 c3.
Proof.
  intros Hn Hw E1 E2 E3. revert Hw.
  decode_cases c0; tests; cbn [snd]; intros Hw;
    try reflexivity; try (exfalso; lia);
    try (rewrite ?E1, ?E2, ?E3 in * by lia; first [reflexivity | exfalso; lia]).
Qed.

Lemma decode_empty : utf8.DecodeRuneInString [] = (utf8.RuneError, 0).
Proof. reflexivity. Qed.

(** The width is zero for the empty string only; otherwise it is between
    one and four bytes and never more than the string holds. *)
Lemma decode_width (s : gostring) :
  s <> [] ->
  1 <= snd (utf8.DecodeRuneInString s) <= 4 /\
  snd (utf8.DecodeRuneInString s) <= len s.
Proof.
  intros Hs. rewrite Decode_core by assumption.
  apply decode_core_width.
  destruct s; [congruence|]. unfold len. simpl length. lia.
Qed.

Lemma index_take (s : gostring) (m i : nat) :
  (i < m)%nat -> index (take m s) i = index s i.
Proof. intros H. unfold index. rewrite lookup_take_lt by assumption. reflexivity. Qed.

(** Cutting the string anywhere at or after the end of its first code
    point leaves the decoding of that code point as it was. *)
Lemma decode_take (s : gostring) (m : nat) :
  s <> [] ->
  snd (utf8.DecodeRuneInString s) <= Z.of_nat m ->
  utf8.DecodeRuneInString (take m s) = utf8.DecodeRuneInString s.
Proof.
  intros Hs Hm.
  pose proof (decode_width s Hs) as [Hw1 Hw2].
  assert (Hlen : len (take m s) = Z.min (Z.of_nat m) (len s)).
  { unfold len. rewrite length_take. lia. }
  assert (Hne : take m s <> []).
  { intros E. rewrite E in Hlen. unfold len in *. simpl in Hlen. lia. }
  rewrite (Decode_core (take m s)) by assumption.
  rewrite (Decode_core s) in * by assumption.
  rewrite index_take by lia.
  apply decode_core_local.
  - lia.
  - lia.
  - intros H. apply index_take. lia.
  - intros H. apply index_take. lia.
  - intros H. apply index_take. lia.
Qed.

Lemma decode_prefix (p t : gostring) :
  p ++ t <> [] ->
  snd (utf8.DecodeRuneInString (p ++ t)) <= len p ->
  utf8.DecodeRuneInString p = utf8.DecodeRuneInString (p ++ t).
Proof.
  intros Hs Hw.
  rewrite <- (decode_take (p ++ t) (length p)) by (assumption || exact Hw).
  rewrite take_app_length. reflexivity.
Qed.

(** The decoder by the range of the first byte. *)
Lemma decode_core_one (n c0 c1 c2 c3 : Z) :
  c0 < 0x80 -> decode_core n c0 c1 c2 c3 = (c0, 1).
Proof. intros H. decode_cases c0. reflexivity. Qed.

Lemma decode_core_stray (n c0 c1 c2 c3 : Z) :
  0x80 <= c0 < 0xC2 \/ 0xF5 <= c0 ->
  decode_core n c0 c1 c2 c3 = (utf8.RuneError, 1).
Proof. intros H. decode_cases c0; reflexivity. Qed.

Lemma decode_core_two (n c0 c1 c2 c3 : Z) :
  0xC2 <= c0 <= 0xDF ->
  decode_core n c0 c1 c2 c3 =
  if (2 <=? n) && continuation c1
  then ((c0 - 0xC0) * 64 + (c1 - 0x80), 2)
  else (utf8.RuneError, 1).
Proof.
  intros H. unfold continuation. decode_cases c0; tests;
    first [reflexivity | f_equal; apply value_of_two; lia].
Qed.

Lemma decode_core_three (n c0 c1 c2 c3 : Z) :
  0xE0 <= c0 <= 0xEF ->
  decode_core n c0 c1 c2 c3 =
  if (3 <=? n) && second_of_three c0 c1 && continuation c2
  then ((c0 - 0xE0) * 4096 + (c1 - 0x80) * 64 + (c2 - 0x80), 3)
  else (utf8.RuneError, 1).
Proof.
  intros H. unfold second_of_three, continuation. decode_cases c0; tests;
    first [reflexivity | f_equal; apply value_of_three; lia].
Qed.

Lemma decode_core_four (n c0 c1 c2 c3 : Z) :
  0xF0 <= c0 <= 0xF4 ->
  decode_core n c0 c1 c2 c3 =
  if (4 <=? n) && second_of_four c0 c1 && continuation c2 && continuation c3
  then ((c0 - 0xF0) * 262144 + (c1 - 0x80) * 4096 + (c2 - 0x80) * 64
        + (c3 - 0x80), 4)
  else (utf8.RuneError, 1).
Proof.
  intros H. unfold second_of_four, continuation. decode_cases c0; tests;
    first [reflexivity | f_equal; apply value_of_four; lia].
Qed.

Lemma len_cons (b : byte) (s : gostring) : len (b :: s) = 1 + len s.
Proof. unfold len. simpl length. lia. Qed.

(** The decoder on a string that is not empty, against the table of
    well-formed sequences. *)
Lemma decode_decoded (s : gostring) :
  s <> [] ->
  decoded s (fst (utf8.DecodeRuneInString s)) (snd (utf8.DecodeRuneInString s)).
Proof.
  intros Hs. rewrite Decode_core by assumption.
  destruct s as [|b0 t]; [congruence|]. clear Hs.
  pose proof (byte_val_range b0) as R0.
  assert (Hbad : forall x, x = well_formed_len (b0 :: t) -> x = None ->
                           decoded (b0 :: t) utf8.RuneError 1)
    by (intros x -> H; apply dec_bad; exact H).
  assert (I0 : index (b0 :: t) 0 = byte_val b0) by reflexivity.
  rewrite I0. clear I0.
  destruct (Z.lt_ge_cases (byte_val b0) 0x80) as [C|C].
  { rewrite decode_core_one by assumption. apply dec_one. assumption. }
  destruct (Z.lt_ge_cases (byte_val b0) 0xC2) as [C1|C1].
  { rewrite decode_core_stray by lia. eapply Hbad; [reflexivity|].
    unfold well_formed_len. cbv zeta. tests. reflexivity. }
  destruct (Z.le_gt_cases (byte_val b0) 0xDF) as [C2|C2].
  { rewrite decode_core_two by lia.
    destruct t as [|b1 t].
    - rewrite !len_cons. change (len []) with 0. cbn [Z.leb Z.add Z.compare andb].
      eapply Hbad; [reflexivity|].
      unfold well_formed_len. cbv zeta. tests. reflexivity.
    - unfold index; cbn [lookup list_lookup].
      rewrite !len_cons. pose proof (len_nonneg t).
      destruct (Z.leb_spec 2 (1 + (1 + len t))); [|lia]. cbn [andb fst snd].
      destruct (continuation (byte_val b1)) eqn:K; cbn [fst snd].
      + apply dec_two; [lia | assumption].
      + eapply Hbad; [reflexivity|].
        unfold well_formed_len. cbv zeta. rewrite K. tests. reflexivity. }
  destruct (Z.le_gt_cases (byte_val b0) 0xEF) as [C3|C3].
  { rewrite decode_core_three by lia.
    destruct t as [|b1 [|b2 t]].
    - rewrite !len_cons. change (len []) with 0. cbn [Z.leb Z.add Z.compare andb].
      eapply Hbad; [reflexivity|].
      unfold well_formed_len. cbv zeta. tests. reflexivity.
    - rewrite !len_cons. change (len []) with 0. cbn [Z.leb Z.add Z.compare Pos.compare Pos.compare_cont andb Pos.add Pos.succ].
      eapply Hbad; [reflexivity|].
      unfold well_formed_len. cbv zeta. tests. reflexivity.
    - unfold index; cbn [lookup list_lookup].
      rewrite !len_cons. pose proof (len_nonneg t).
      destruct (Z.leb_spec 3 (1 + (1 + (1 + len t)))); [|lia]. cbn [andb].
      destruct (second_of_three (byte_val b0) (byte_val b1)
                && continuation (byte_val b2)) eqn:K; cbn [fst snd].
      + apply andb_prop in K as [K1 K2]. apply dec_three; [lia | assumption ..].
      + eapply Hbad; [reflexivity|].
        unfold well_formed_len. cbv zeta. rewrite K. tests. reflexivity. }
  destruct (Z.le_gt_cases (byte_val b0) 0xF4) as [C4|C4].
  { rewrite decode_core_four by lia.
    destruct t as [|b1 [|b2 [|b3 t]]].
    - rewrite !len_cons. change (len []) with 0. cbn [Z.leb Z.add Z.compare andb].
      eapply Hbad; [reflexivity|].
      unfold well_formed_len. cbv zeta. tests. reflexivity.
    - rewrite !len_cons. change (len []) with 0. cbn [Z.leb Z.add Z.compare Pos.compare Pos.compare_cont andb Pos.add Pos.succ].
      eapply Hbad; [reflexivity|].
      unfold well_formed_len. cbv zeta. tests. reflexivity.
    - rewrite !len_cons. change (len []) with 0. cbn [Z.leb Z.add Z.compare Pos.compare Pos.compare_cont andb Pos.add Pos.succ].
      eapply Hbad; [reflexivity|].
      unfold well_formed_len. cbv zeta. tests. reflexivity.
    - unfold index; cbn [lookup list_lookup].
      rewrite !len_cons. pose proof (len_nonneg t).
      destruct (Z.leb_spec 4 (1 + (1 + (1 + (1 + len t))))); [|lia]. cbn [andb].
      destruct (second_of_four (byte_val b0) (byte_val b1)
                && continuation (byte_val b2) && continuation (byte_val b3))
        eqn:K; cbn [fst snd].
      + apply andb_prop in K as [K K3]. apply andb_prop in K as [K1 K2].
        apply dec_four; [lia | assumption ..].
      + eapply Hbad; [reflexivity|].
        unfold well_formed_len. cbv zeta. rewrite K. tests. reflexivity. }
  rewrite decode_core_stray by lia. eapply Hbad; [reflexivity|].
  unfold well_formed_len. cbv zeta. tests. reflexivity.
Qed.

Lemma well_formed_len_decoded (s : gostring) (r w : Z) :
  decoded s r w ->
  match well_formed_len s with
  | Some n => w = n
  | None => r = utf8.RuneError /\ w = 1
  end.
Proof.
  intros H. destruct H as
      [ b0 t C | b0 b1 t C K1 | b0 b1 b2 t C K1 K2
      | b0 b1 b2 b3 t C K1 K2 K3 | b0 t Hbad ].
  - unfold well_formed_len. cbv zeta. tests. reflexivity.
  - unfold well_formed_len. cbv zeta. rewrite K1. tests. reflexivity.
  - unfold well_formed_len. cbv zeta. rewrite K1, K2. tests. reflexivity.
  - unfold well_formed_len. cbv zeta. rewrite K1, K2, K3. tests. reflexivity.
  - rewrite Hbad. split; reflexivity.
Qed.

(** A string that begins with no well-formed sequence decodes to the
    replacement character with width one. *)
Lemma decode_malformed_width_one (s : gostring) :
  s <> [] -> well_formed_len s = None ->
  utf8.DecodeRuneInString s = (utf8.RuneError, 1).
Proof.
  intros Hs H.
  pose proof (well_formed_len_decoded _ _ _ (decode_decoded s Hs)) as T.
  rewrite H in T. destruct T as [T1 T2].
  destruct (utf8.DecodeRuneInString s). cbn [fst snd] in *. congruence.
Qed.

(** ** Facts about ranging over a string *)

Lemma range_from_enough (fuel fuel' : nat) (i : Z) (s : gostring) :
  (length s <= fuel)%nat -> (length s <= fuel')%nat ->
  utf8.range_from fuel i s = utf8.range_from fuel' i s.
Proof.
  revert fuel' i s. induction fuel as [|fuel IH]; intros fuel' i s H H'.
  - destruct s; [|simpl in H; lia]. destruct fuel'; reflexivity.
  - destruct fuel' as [|fuel'].
    + destruct s; [reflexivity | simpl in H'; lia].
    + destruct s as [|b s]; [reflexivity|].
      cbn [utf8.range_from].
      destruct (utf8.DecodeRuneInString (b :: s)) as [r w] eqn:E.
      f_equal.
      pose proof (decode_width (b :: s) ltac:(congruence)) as [W1 W2].
      rewrite E in W1, W2. cbn [snd] in W1, W2.
      apply IH; rewrite length_drop; simpl length in *; lia.
Qed.

Lemma range_from_cons (i : Z) (s : gostring) :
  s <> [] ->
  utf8.range_from (length s) i s =
  (i, fst (utf8.DecodeRuneInString s))
    :: utf8.range_from
         (length (drop (Z.to_nat (snd (utf8.DecodeRuneInString s))) s))
         (i + snd (utf8.DecodeRuneInString s))
         (drop (Z.to_nat (snd (utf8.DecodeRuneInString s))) s).
Proof.
  intros Hs. destruct s as [|b s]; [congruence|].
  cbn [length utf8.range_from].
  pose proof (decode_width (b :: s) Hs) as [W1 W2].
  destruct (utf8.DecodeRuneInString (b :: s)) as [r w] eqn:E.
  cbn [fst snd] in *. f_equal.
  apply range_from_enough; [|lia].
  rewrite length_drop. simpl length. lia.
Qed.

Lemma runes_from_offset (fuel : nat) (i j : Z) (s : gostring) :
  map snd (utf8.range_from fuel i s) = map snd (utf8.range_from fuel j s).
Proof.
  revert i j s. induction fuel as [|fuel IH]; intros i j s; [reflexivity|].
  destruct s as [|b s]; [reflexivity|]. cbn [utf8.range_from].
  destruct (utf8.DecodeRuneInString (b :: s)) as [r w].
  cbn [map snd]. f_equal. apply IH.
Qed.

Lemma runes_nil : utf8.runes [] = [].
Proof. reflexivity. Qed.

Lemma runes_cons (s : gostring) :
  s <> [] ->
  utf8.runes s =
  fst (utf8.DecodeRuneInString s)
    :: utf8.runes (drop (Z.to_nat (snd (utf8.DecodeRuneInString s))) s).
Proof.
  intros Hs. unfold utf8.runes, utf8.range.
  rewrite range_from_cons by assumption. cbn [map snd]. f_equal.
  apply runes_from_offset.
Qed.

Lemma code_point_prefix_nil (s : gostring) : code_point_prefix [] s.
Proof. exists s. split; reflexivity. Qed.

(** One more code point in front of a prefix. *)
Lemma code_point_prefix_cons (s q : gostring) :
  s <> [] ->
  code_point_prefix q (drop (Z.to_nat (snd (utf8.DecodeRuneInString s))) s) ->
  code_point_prefix (take (Z.to_nat (snd (utf8.DecodeRuneInString s))) s ++ q) s /\
  utf8.runes (take (Z.to_nat (snd (utf8.DecodeRuneInString s))) s ++ q) =
  fst (utf8.DecodeRuneInString s) :: utf8.runes q.
Proof.
  intros Hs (t & Hd & Hr).
  pose proof (decode_width s Hs) as [W1 W2].
  set (w := Z.to_nat (snd (utf8.DecodeRuneInString s))) in *.
  assert (Hlen : length (take w s) = w).
  { rewrite length_take. unfold len in W2. lia. }
  assert (Hsplit : s = (take w s ++ q) ++ t).
  { rewrite <- app_assoc, <- Hd. symmetry. apply take_drop. }
  assert (Hq : utf8.runes (take w s ++ q) =
               fst (utf8.DecodeRuneInString s) :: utf8.runes q).
  { assert (Hne : take w s ++ q <> []).
    { intros E. apply (f_equal (@length byte)) in E.
      rewrite length_app, Hlen in E. simpl in E. lia. }
    assert (Hdec : utf8.DecodeRuneInString (take w s ++ q) =
                   utf8.DecodeRuneInString s).
    { rewrite Hsplit at 2. apply decode_prefix.
      - rewrite <- Hsplit. assumption.
      - rewrite <- Hsplit. rewrite len_app. unfold len at 1. rewrite Hlen.
        pose proof (len_nonneg q). lia. }
    rewrite (runes_cons _ Hne), Hdec. fold w.
    rewrite (drop_app_length' _ _ _ (eq_sym Hlen)). reflexivity. }
  split; [|exact Hq].
  exists t. split; [exact Hsplit|].
  rewrite Hq, (runes_cons s Hs). fold w. rewrite Hr. reflexivity.
Qed.

(** ** Facts about the cursor *)

(** Unfolds the monad underneath the methods. *)
Ltac munfold := cbv [bind ret get modify lift].

Lemma in_set_EOF (valid : gostring) : in_set valid EOF = false.
Proof. reflexivity. Qed.

Section CursorFacts.

Context {StateFn : Type}.
Implicit Types l : Lexer StateFn.

Lemma rest_nonempty l :
  0 <= Pos l < len (input l) -> rest l <> [].
Proof.
  intros H E. apply (f_equal (@length byte)) in E.
  unfold rest in E. rewrite length_drop in E. unfold len in H.
  simpl in E. lia.
Qed.

Lemma rest_empty l : len (input l) <= Pos l -> rest l = [].
Proof.
  intros H. unfold rest. apply drop_ge. unfold len in H. lia.
Qed.

Lemma len_rest l :
  0 <= Pos l <= len (input l) -> len (rest l) = len (input l) - Pos l.
Proof.
  intros H. unfold rest, len in *. rewrite length_drop. lia.
Qed.

(** At or past the end of the input [Next] returns [EOF] and records
    a zero width. *)
Lemma Next_at_end l :
  len (input l) <= Pos l -> Next l = Ok (EOF, set_Width 0 l).
Proof.
  intros H. unfold Next. munfold.
  destruct (Z.leb_spec (len (input l)) (Pos l)); [reflexivity | lia].
Qed.

(** Before the start of the input the slice expression panics. *)
Lemma Next_negative l : Pos l < 0 -> Next l = Panic.
Proof.
  intros H. unfold Next. munfold.
  pose proof (len_nonneg (input l)).
  destruct (Z.leb_spec (len (input l)) (Pos l)); [lia|].
  unfold slice_from. rewrite slice_panics by lia. reflexivity.
Qed.

(** Inside the input [Next] decodes one code point and steps over it. *)
Lemma Next_decode l :
  0 <= Pos l < len (input l) ->
  len (input l) <= max_int ->
  Next l =
  Ok (fst (utf8.DecodeRuneInString (rest l)),
      set_Pos (Pos l + snd (utf8.DecodeRuneInString (rest l)))
              (set_Width (snd (utf8.DecodeRuneInString (rest l))) l)).
Proof.
  intros H Hmax. unfold Next. munfold.
  destruct (Z.leb_spec (len (input l)) (Pos l)); [lia|].
  rewrite slice_from_ok by lia. fold (rest l).
  pose proof (decode_width (rest l) (rest_nonempty l H)) as [W1 W2].
  rewrite len_rest in W2 by lia.
  destruct (utf8.DecodeRuneInString (rest l)) as [r w].
  cbn [fst snd] in *. cbn [Pos Width set_Width].
  rewrite wrap_id; [reflexivity|].
  unfold is_int, min_int, max_int, int_bits in *. lia.
Qed.

Lemma rest_after_Next l (w : Z) :
  0 <= Pos l -> 0 <= w ->
  rest (set_Pos (Pos l + w) (set_Width w l)) = drop (Z.to_nat w) (rest l).
Proof.
  intros H Hw. unfold rest. cbn [Pos input set_Pos set_Width].
  rewrite drop_drop. f_equal. lia.
Qed.

Lemma Backup_eq l :
  Backup l = Ok (tt, set_Pos (wrap (Pos l - Width l)) l).
Proof. reflexivity. Qed.

Lemma Ignore_eq l : Ignore l = Ok (tt, set_Start (Pos l) l).
Proof. reflexivity. Qed.

(** [Peek] at or past the end, inside the input and before it. *)
Lemma Peek_at_end l :
  is_int (Pos l) -> len (input l) <= Pos l ->
  Peek l = Ok (EOF, set_Width 0 l).
Proof.
  intros Hi H. unfold Peek, bind. rewrite Next_at_end by assumption.
  rewrite Backup_eq. unfold ret. cbn [Pos Width set_Width].
  rewrite Z.sub_0_r, wrap_id by assumption.
  destruct l; reflexivity.
Qed.

Lemma Peek_negative l : Pos l < 0 -> Peek l = Panic.
Proof.
  intros H. unfold Peek, bind. rewrite Next_negative by assumption.
  reflexivity.
Qed.

Lemma Peek_decode l :
  0 <= Pos l < len (input l) ->
  len (input l) <= max_int ->
  Peek l =
  Ok (fst (utf8.DecodeRuneInString (rest l)),
      set_Width (snd (utf8.DecodeRuneInString (rest l))) l).
Proof.
  intros H Hmax. unfold Peek, bind. rewrite Next_decode by assumption.
  rewrite Backup_eq. unfold ret. cbn [Pos Width set_Pos set_Width].
  replace (Pos l + _ - _) with (Pos l) by lia.
  rewrite wrap_id.
  - destruct l; reflexivity.
  - unfold is_int, min_int, max_int, int_bits in *. lia.
Qed.

(** [Emit] with the offsets in order: the send blocks on a full
    buffer, and otherwise the pending text is sent and [Start] moves
    up to [Pos]. *)
Lemma Emit_in_order (t : TokenType) l :
  cursor_inv l ->
  Emit t l =
  if (tokens_cap <=? length (tokens l))%nat then Blocked
  else Ok (tt, set_Start (Pos l)
                 (set_tokens (tokens l ++ [Token.mk t (pending l) (Start l)]) l)).
Proof.
  intros (H1 & H2). unfold Emit, send. munfold.
  rewrite slice_ok by lia. fold (pending l).
  destruct (tokens_cap <=? length (tokens l))%nat; reflexivity.
Qed.

(** [Emit] with the offsets out of order panics in the slice
    expression. *)
Lemma Emit_out_of_order (t : TokenType) l :
  Start l < 0 \/ Pos l < Start l \/ len (input l) < Pos l ->
  Emit t l = Panic.
Proof.
  intros H. unfold Emit. munfold. rewrite slice_panics by assumption.
  reflexivity.
Qed.

(** [Accept] at or past the end, and inside the input. *)
Lemma Accept_at_end (valid : gostring) l :
  is_int (Pos l) -> len (input l) <= Pos l ->
  Accept valid l = Ok (false, set_Width 0 l).
Proof.
  intros Hi H. unfold Accept, bind. rewrite Next_at_end by assumption.
  fold (in_set valid EOF). rewrite in_set_EOF.
  rewrite Backup_eq. unfold ret. cbn [Pos Width set_Width].
  rewrite Z.sub_0_r, wrap_id by assumption.
  destruct l; reflexivity.
Qed.

Lemma Accept_decode (valid : gostring) l :
  0 <= Pos l < len (input l) ->
  len (input l) <= max_int ->
  Accept valid l =
  if in_set valid (fst (utf8.DecodeRuneInString (rest l)))
  then Ok (true, set_Pos (Pos l + snd (utf8.DecodeRuneInString (rest l)))
                   (set_Width (snd (utf8.DecodeRuneInString (rest l))) l))
  else Ok (false, set_Width (snd (utf8.DecodeRuneInString (rest l))) l).
Proof.
  intros H Hmax. unfold Accept, bind. rewrite Next_decode by assumption.
  fold (in_set valid (fst (utf8.DecodeRuneInString (rest l)))).
  destruct (in_set valid _); [reflexivity|].
  rewrite Backup_eq. unfold ret. cbn [Pos Width set_Pos set_Width].
  replace (Pos l + _ - _) with (Pos l) by lia.
  rewrite wrap_id.
  - destruct l; reflexivity.
  - unfold is_int, min_int, max_int, int_bits in *. lia.
Qed.

End CursorFacts.

(** ** The loop of [AcceptRun] *)

Section AcceptRunFacts.

Context {StateFn : Type}.
Implicit Types l : Lexer StateFn.

Lemma set_Pos_Width_eta l (p w : Z) :
  p = Pos l -> set_Pos p (set_Width w l) = set_Width w l.
Proof. intros ->. destruct l; reflexivity. Qed.

Lemma set_Pos_Width_twice l (p p' w w' : Z) :
  set_Pos p' (set_Width w' (set_Pos p (set_Width w l))) =
  set_Pos p' (set_Width w' l).
Proof. destruct l; reflexivity. Qed.

(** With more fuel than the rest of the input has bytes the loop ends:
    it has stepped over the longest run of code points of [valid] and
    over the code point after it, whose width it has recorded. *)
Lemma AcceptRun_loop_total (valid : gostring) (fuel : nat) l :
  0 <= Pos l ->
  len (input l) <= max_int ->
  (length (rest l) < fuel)%nat ->
  exists run t,
    max_run valid (rest l) run t /\
    AcceptRun_loop fuel valid l =
    Ok (tt, set_Pos (Pos l + len run + snd (utf8.DecodeRuneInString t))
                    (set_Width (snd (utf8.DecodeRuneInString t)) l)).
Proof.
  revert l. induction fuel as [|fuel IH]; intros l Hpos Hmax Hfuel; [lia|].
  cbn [AcceptRun_loop]. unfold bind at 1.
  destruct (Z.le_gt_cases (len (input l)) (Pos l)) as [Hend|Hin].
  - (* at or past the end *)
    rewrite Next_at_end by assumption. rewrite rest_empty by assumption.
    fold (in_set valid EOF). rewrite in_set_EOF.
    exists [], []. split.
    + repeat split; auto.
    + unfold ret. rewrite decode_empty. cbn [snd].
      rewrite set_Pos_Width_eta; [reflexivity|]. change (len []) with 0. lia.
  - (* inside the input *)
    assert (Hne : rest l <> []) by (apply rest_nonempty; lia).
    pose proof (decode_width _ Hne) as [W1 W2].
    rewrite Next_decode by (assumption || lia).
    set (r := fst (utf8.DecodeRuneInString (rest l))) in *.
    set (w := snd (utf8.DecodeRuneInString (rest l))) in *.
    fold (in_set valid r).
    destruct (in_set valid r) eqn:Hin_set.
    + (* the code point is in the set: go round again *)
      set (l1 := set_Pos (Pos l + w) (set_Width w l)).
      assert (Hrest1 : rest l1 = drop (Z.to_nat w) (rest l))
        by (apply rest_after_Next; lia).
      destruct (IH l1) as (run' & t & Hrun & Hloop).
      * cbn. lia.
      * exact Hmax.
      * rewrite Hrest1, length_drop. unfold len in W2. lia.
      * destruct Hrun as (Hs & Hr & Hall & Hlast).
        rewrite Hrest1 in Hs, Hr.
        destruct (code_point_prefix_cons (rest l) run' Hne) as [(t0 & Ht0 & Hrt0) Hq].
        { exists t. split; assumption. }
        fold w in Ht0, Hrt0, Hq. fold r in Hq.
        exists (take (Z.to_nat w) (rest l) ++ run'), t. split.
        -- assert (Et : t0 = t).
           { rewrite <- (take_drop (Z.to_nat w) (rest l)) in Ht0 at 1.
             rewrite Hs, <- app_assoc in Ht0.
             apply app_inv_head in Ht0. apply app_inv_head in Ht0.
             congruence. }
           subst t0. repeat split; try assumption.
           rewrite Hq. constructor; assumption.
        -- rewrite Hloop. unfold l1. rewrite set_Pos_Width_twice.
           do 3 f_equal. cbn [Pos set_Pos set_Width].
           assert (Hlt : len (take (Z.to_nat w) (rest l)) = w)
             by (unfold len in *; rewrite length_take; lia).
           rewrite len_app, Hlt. lia.
    + (* the code point is not in the set: the loop ends *)
      exists [], (rest l). split.
      * split; [reflexivity|]. split; [reflexivity|]. split; [constructor|].
        right. exact Hin_set.
      * unfold ret. fold w. change (len []) with 0.
        do 3 f_equal. lia.
Qed.

(** A call before the start of the input panics in its first [Next]. *)
Lemma AcceptRun_negative (valid : gostring) l :
  Pos l < 0 -> AcceptRun valid l = Panic.
Proof.
  intros H. unfold AcceptRun, AcceptRun_fuel, bind, get.
  cbn [AcceptRun_loop]. unfold bind. rewrite Next_negative by assumption.
  reflexivity.
Qed.

(** [AcceptRun] returns with the scan offset just past the longest run
    of code points of [valid]; only [Pos] and [Width] change. *)
Lemma AcceptRun_total (valid : gostring) l :
  typed l -> 0 <= Pos l ->
  exists run t,
    max_run valid (rest l) run t /\
    AcceptRun valid l =
    Ok (tt, set_Pos (Pos l + len run)
                    (set_Width (snd (utf8.DecodeRuneInString t)) l)).
Proof.
  intros (HS & HP & HW & HL & Hmax) Hpos.
  destruct (AcceptRun_loop_total valid (S (length (input l))) l Hpos Hmax)
    as (run & t & Hrun & Hloop).
  { unfold rest. rewrite length_drop. lia. }
  exists run, t. split; [exact Hrun|].
  unfold AcceptRun, AcceptRun_fuel, bind at 1, get.
  unfold bind. rewrite Hloop. rewrite Backup_eq.
  cbn [Pos Width set_Pos set_Width].
  replace (Pos l + len run + _ - _) with (Pos l + len run) by lia.
  rewrite wrap_id.
  - destruct l; reflexivity.
  - destruct Hrun as (Hs & _).
    destruct (Z.le_gt_cases (len (input l)) (Pos l)) as [Hend|Hin].
    + rewrite rest_empty in Hs by assumption.
      symmetry in Hs. apply app_eq_nil in Hs as [-> _].
      change (len []) with 0. rewrite Z.add_0_r. exact HP.
    + apply (f_equal len) in Hs. rewrite len_rest, len_app in Hs by lia.
      pose proof (len_nonneg t). pose proof (len_nonneg run).
      unfold is_int, min_int, max_int, int_bits in *. lia.
Qed.

End AcceptRunFacts.

(** ** Membership in a string, by code points *)

Lemma byte_of_val (b : byte) : byte_of (byte_val b) = b.
Proof.
  unfold byte_of, byte_val. pose proof (Byte.to_N_bounded b) as B.
  rewrite Z.mod_small by lia. rewrite N2Z.id, Byte.of_to_N. reflexivity.
Qed.

Lemma byte_val_of (z : Z) : 0 <= z < 256 -> byte_val (byte_of z) = z.
Proof.
  intros H. unfold byte_of, byte_val. rewrite Z.mod_small by assumption.
  destruct (Byte.of_N (Z.to_N z)) as [b|] eqn:E.
  - apply Byte.to_of_N in E. rewrite E. lia.
  - apply Byte.of_N_None_iff in E. lia.
Qed.

Lemma byte_eqb_eq (a b : byte) : Byte.eqb a b = true <-> a = b.
Proof.
  split.
  - apply Byte.byte_dec_bl.
  - apply Byte.byte_dec_lb.
Qed.

(** The encoder in arithmetic. *)
Lemma lor_tag (tag x : Z) (n : Z) :
  0 <= n -> 0 <= x < 2 ^ n -> tag mod 2 ^ n = 0 -> Z.lor tag x = tag + x.
Proof. intros. apply (lor_add_disjoint tag x n); assumption. Qed.

Ltac encode_unfold :=
  unfold utf8.EncodeRune, utf8.ValidRune, utf8.rune1Max, utf8.rune2Max,
    utf8.rune3Max, utf8.surrogateMin, utf8.surrogateMax, utf8.MaxRune;
  change (2 ^ 7 - 1) with 127; change (2 ^ 11 - 1) with 2047;
  change (2 ^ 16 - 1) with 65535; cbv zeta.

Lemma encode_one (r : Z) :
  0 <= r < 0x80 -> utf8.EncodeRune r = [byte_of r].
Proof.
  intros H. encode_unfold. tests. reflexivity.
Qed.

Lemma encode_two (r : Z) :
  0x80 <= r <= 0x7FF ->
  utf8.EncodeRune r = [byte_of (0xC0 + r / 64); byte_of (0x80 + r mod 64)].
Proof.
  intros H. encode_unfold. tests.
  rewrite (land_low_bits r 6) by (reflexivity || lia).
  rewrite Z.shiftr_div_pow2 by lia.
  change (2 ^ 6) with 64.
  rewrite (lor_tag utf8.t2 _ 6) by (reflexivity || (change (2 ^ 6) with 64; dlia)).
  rewrite (lor_tag utf8.tx _ 6) by (reflexivity || (change (2 ^ 6) with 64; dlia)).
  reflexivity.
Qed.

Lemma encode_three (r : Z) :
  0x800 <= r <= 0xFFFF -> ~ 0xD800 <= r <= 0xDFFF ->
  utf8.EncodeRune r =
  [byte_of (0xE0 + r / 4096); byte_of (0x80 + (r / 64) mod 64);
   byte_of (0x80 + r mod 64)].
Proof.
  intros H S. encode_unfold. tests.
  all: rewrite (land_low_bits r 6) by (reflexivity || lia).
  all: rewrite (land_low_bits (Z.shiftr r 6) 6) by (reflexivity || lia).
  all: rewrite !Z.shiftr_div_pow2 by lia.
  all: change (2 ^ 6) with 64; change (2 ^ 12) with 4096.
  all: rewrite (lor_tag utf8.t3 _ 5) by (reflexivity || (change (2 ^ 5) with 32; dlia)).
  all: rewrite !(lor_tag utf8.tx _ 6) by (reflexivity || (change (2 ^ 6) with 64; dlia)).
  all: reflexivity.
Qed.

Lemma encode_four (r : Z) :
  0x10000 <= r <= 0x10FFFF ->
  utf8.EncodeRune r =
  [byte_of (0xF0 + r / 262144); byte_of (0x80 + (r / 4096) mod 64);
   byte_of (0x80 + (r / 64) mod 64); byte_of (0x80 + r mod 64)].
Proof.
  intros H. encode_unfold. tests.
  rewrite (land_low_bits r 6) by (reflexivity || lia).
  rewrite (land_low_bits (Z.shiftr r 6) 6) by (reflexivity || lia).
  rewrite (land_low_bits (Z.shiftr r 12) 6) by (reflexivity || lia).
  rewrite !Z.shiftr_div_pow2 by lia.
  change (2 ^ 6) with 64; change (2 ^ 12) with 4096;
    change (2 ^ 18) with 262144.
  rewrite (lor_tag utf8.t4 _ 4) by (reflexivity || (change (2 ^ 4) with 16; dlia)).
  rewrite !(lor_tag utf8.tx _ 6) by (reflexivity || (change (2 ^ 6) with 64; dlia)).
  reflexivity.
Qed.

(** The bounds that the tests on the bytes after the first decide. *)
Lemma continuation_bounds (c : Z) :
  continuation c = true <-> 0x80 <= c <= 0xBF.
Proof. unfold continuation. rewrite andb_true_iff, !Z.leb_le. reflexivity. Qed.

Lemma second_of_three_bounds (c0 c1 : Z) :
  second_of_three c0 c1 = true <->
  (if c0 =? 0xE0 then 0xA0 else 0x80) <= c1 <=
  (if c0 =? 0xED then 0x9F else 0xBF).
Proof.
  unfold second_of_three, continuation.
  destruct (c0 =? 0xE0) eqn:E0; destruct (c0 =? 0xED) eqn:E1;
    rewrite andb_true_iff, !Z.leb_le; try reflexivity.
  apply Z.eqb_eq in E0. apply Z.eqb_eq in E1. lia.
Qed.

Lemma second_of_four_bounds (c0 c1 : Z) :
  second_of_four c0 c1 = true <->
  (if c0 =? 0xF0 then 0x90 else 0x80) <= c1 <=
  (if c0 =? 0xF4 then 0x8F else 0xBF).
Proof.
  unfold second_of_four, continuation.
  destruct (c0 =? 0xF0) eqn:E0; destruct (c0 =? 0xF4) eqn:E1;
    rewrite andb_true_iff, !Z.leb_le; try reflexivity.
  apply Z.eqb_eq in E0. apply Z.eqb_eq in E1. lia.
Qed.

Ltac bounds :=
  repeat match goal with
    | H : continuation _ = true |- _ => apply continuation_bounds in H
    | H : second_of_three ?a _ = true |- _ =>
        apply second_of_three_bounds in H;
        let E := fresh "E" in let F := fresh "F" in
        destruct (Z.eqb_spec a 0xE0) as [E|E];
        destruct (Z.eqb_spec a 0xED) as [F|F]
    | H : second_of_four ?a _ = true |- _ =>
        apply second_of_four_bounds in H;
        let E := fresh "E" in let F := fresh "F" in
        destruct (Z.eqb_spec a 0xF0) as [E|E];
        destruct (Z.eqb_spec a 0xF4) as [F|F]
    end.

(** The relation [decoded] is the decoder. *)
Lemma decoded_Decode (s : gostring) (r w : Z) :
  decoded s r w -> utf8.DecodeRuneInString s = (r, w).
Proof.
  intros H. destruct H as
      [ b0 t C | b0 b1 t C K1 | b0 b1 b2 t C K1 K2
      | b0 b1 b2 b3 t C K1 K2 K3 | b0 t Hbad ].
  - rewrite Decode_core by discriminate.
    apply decode_core_one. exact C.
  - rewrite Decode_core by discriminate.
    unfold index; cbn [lookup list_lookup].
    rewrite decode_core_two by exact C. rewrite !len_cons, K1.
    pose proof (len_nonneg t).
    destruct (Z.leb_spec 2 (1 + (1 + len t))); [reflexivity | lia].
  - rewrite Decode_core by discriminate.
    unfold index; cbn [lookup list_lookup].
    rewrite decode_core_three by exact C. rewrite !len_cons, K1, K2.
    pose proof (len_nonneg t).
    destruct (Z.leb_spec 3 (1 + (1 + (1 + len t)))); [reflexivity | lia].
  - rewrite Decode_core by discriminate.
    unfold index; cbn [lookup list_lookup].
    rewrite decode_core_four by exact C. rewrite !len_cons, K1, K2, K3.
    pose proof (len_nonneg t).
    destruct (Z.leb_spec 4 (1 + (1 + (1 + (1 + len t))))); [reflexivity | lia].
  - apply decode_malformed_width_one; [discriminate | exact Hbad].
Qed.

Lemma decoded_eq (s : gostring) (r r' w w' : Z) :
  decoded s r' w' -> r' = r -> w' = w -> decoded s r w.
Proof. intros H <- <-. exact H. Qed.

(** What is decoded is the replacement character for a malformed byte,
    or a code point whose encoding the string begins with. *)
Lemma decoded_encoded (s : gostring) (r w : Z) :
  decoded s r w ->
  (well_formed_len s = None /\ r = utf8.RuneError /\ w = 1) \/
  (utf8.ValidRune r = true /\ w = len (utf8.EncodeRune r) /\
   exists t, s = utf8.EncodeRune r ++ t).
Proof.
  intros H. destruct H as
      [ b0 t C | b0 b1 t C K1 | b0 b1 b2 t C K1 K2
      | b0 b1 b2 b3 t C K1 K2 K3 | b0 t Hbad ].
  - right. pose proof (byte_val_range b0) as R0.
    rewrite encode_one by lia. rewrite byte_of_val.
    split; [|split; [reflexivity | exists t; reflexivity]].
    unfold utf8.ValidRune, utf8.surrogateMin. tests; reflexivity.
  - right. bounds.
    remember ((byte_val b0 - 192) * 64 + (byte_val b1 - 128)) as r eqn:Er.
    rewrite encode_two by lia.
    replace (192 + r / 64) with (byte_val b0) by dlia.
    replace (128 + r mod 64) with (byte_val b1) by dlia.
    rewrite !byte_of_val.
    split; [|split; [reflexivity | exists t; reflexivity]].
    unfold utf8.ValidRune, utf8.surrogateMin. tests; reflexivity.
  - right. pose proof (byte_val_range b1) as R1.
    remember ((byte_val b0 - 224) * 4096 + (byte_val b1 - 128) * 64
              + (byte_val b2 - 128)) as r eqn:Er.
    bounds; try (exfalso; lia).
    all: rewrite encode_three by lia.
    all: replace (224 + r / 4096) with (byte_val b0) by dlia.
    all: replace (128 + r / 64 mod 64) with (byte_val b1) by dlia.
    all: replace (128 + r mod 64) with (byte_val b2) by dlia.
    all: rewrite !byte_of_val.
    all: split; [|split; [reflexivity | exists t; reflexivity]].
    all: unfold utf8.ValidRune, utf8.surrogateMin, utf8.surrogateMax,
           utf8.MaxRune; tests; reflexivity.
  - right. pose proof (byte_val_range b1) as R1.
    remember ((byte_val b0 - 240) * 262144 + (byte_val b1 - 128) * 4096
              + (byte_val b2 - 128) * 64 + (byte_val b3 - 128)) as r eqn:Er.
    bounds; try (exfalso; lia).
    all: rewrite encode_four by lia.
    all: replace (240 + r / 262144) with (byte_val b0) by dlia.
    all: replace (128 + r / 4096 mod 64) with (byte_val b1) by dlia.
    all: replace (128 + r / 64 mod 64) with (byte_val b2) by dlia.
    all: replace (128 + r mod 64) with (byte_val b3) by dlia.
    all: rewrite !byte_of_val.
    all: split; [|split; [reflexivity | exists t; reflexivity]].
    all: unfold utf8.ValidRune, utf8.surrogateMin, utf8.surrogateMax,
           utf8.MaxRune; tests; reflexivity.
  - left. split; [exact Hbad|]. split; reflexivity.
Qed.

(** A code point is one of four sizes. *)
Lemma ValidRune_cases (r : Z) :
  utf8.ValidRune r = true ->
  0 <= r < 0x80 \/ 0x80 <= r <= 0x7FF \/
  (0x800 <= r <= 0xFFFF /\ ~ 0xD800 <= r <= 0xDFFF) \/
  0x10000 <= r <= 0x10FFFF.
Proof.
  unfold utf8.ValidRune, utf8.surrogateMin, utf8.surrogateMax, utf8.MaxRune.
  tests; intros H; try discriminate; lia.
Qed.

(** Decoding the encoding of a code point gives the code point back,
    whatever follows it. *)
Lemma encoded_decoded (r : Z) (t : gostring) :
  utf8.ValidRune r = true ->
  decoded (utf8.EncodeRune r ++ t) r (len (utf8.EncodeRune r)).
Proof.
  intros V. destruct (ValidRune_cases r V) as [H|[H|[[H S]|H]]].
  - rewrite encode_one by assumption. cbn [app].
    eapply decoded_eq; [apply dec_one | | reflexivity];
      rewrite byte_val_of by lia; lia.
  - rewrite encode_two by assumption. cbn [app].
    eapply decoded_eq; [apply dec_two | | reflexivity];
      rewrite ?continuation_bounds, ?byte_val_of by dlia; dlia.
  - rewrite encode_three by assumption. cbn [app].
    eapply decoded_eq; [apply dec_three | | reflexivity];
      rewrite ?continuation_bounds, ?second_of_three_bounds,
        ?byte_val_of by dlia.
    + dlia.
    + destruct (Z.eqb_spec (224 + r / 4096) 224);
        destruct (Z.eqb_spec (224 + r / 4096) 237); dlia.
    + dlia.
    + dlia.
  - rewrite encode_four by assumption. cbn [app].
    eapply decoded_eq; [apply dec_four | | reflexivity];
      rewrite ?continuation_bounds, ?second_of_four_bounds,
        ?byte_val_of by dlia.
    + dlia.
    + destruct (Z.eqb_spec (240 + r / 262144) 240);
        destruct (Z.eqb_spec (240 + r / 262144) 244); dlia.
    + dlia.
    + dlia.
    + dlia.
Qed.

(** The first byte of an encoding is no continuation byte. *)
Lemma encode_lead (r : Z) :
  utf8.ValidRune r = true ->
  exists b e, utf8.EncodeRune r = b :: e /\ continuation (byte_val b) = false.
Proof.
  intros V.
  assert (N : forall c, ~ 0x80 <= c <= 0xBF -> continuation c = false).
  { intros c Hc. destruct (continuation c) eqn:K; [|reflexivity].
    apply continuation_bounds in K. contradiction. }
  destruct (ValidRune_cases r V) as [H|[H|[[H S]|H]]].
  - rewrite encode_one by assumption. eexists _, _. split; [reflexivity|].
    apply N. rewrite byte_val_of by lia. lia.
  - rewrite encode_two by assumption. eexists _, _. split; [reflexivity|].
    apply N. rewrite byte_val_of by dlia. dlia.
  - rewrite encode_three by assumption. eexists _, _. split; [reflexivity|].
    apply N. rewrite byte_val_of by dlia. dlia.
  - rewrite encode_four by assumption. eexists _, _. split; [reflexivity|].
    apply N. rewrite byte_val_of by dlia. dlia.
Qed.

(** An encoding that lies in [s] somewhere after its first byte lies in
    what follows the first code point of [s]: the bytes of a code point
    after the first are continuation bytes, and no encoding begins with
    one. *)
Lemma decoded_synchronises (s : gostring) (r0 w : Z) (p e t : gostring) (b : byte) :
  decoded s r0 w ->
  s = p ++ (b :: e) ++ t -> p <> [] ->
  continuation (byte_val b) = false ->
  exists p', drop (Z.to_nat w) s = p' ++ (b :: e) ++ t.
Proof.
  intros D Hs Hp Hb.
  destruct D as
      [ b0 t0 C | b0 b1 t0 C K1 | b0 b1 b2 t0 C K1 K2
      | b0 b1 b2 b3 t0 C K1 K2 K3 | b0 t0 Hbad ].
  - destruct p as [|p0 p]; [congruence|].
    injection Hs as _ Hs. exists p. exact Hs.
  - destruct p as [|p0 [|p1 p]]; [congruence| |].
    + injection Hs as _ Hs _. subst b1. congruence.
    + injection Hs as _ _ Hs. exists p. exact Hs.
  - assert (K1' : continuation (byte_val b1) = true).
    { apply continuation_bounds. bounds; lia. }
    destruct p as [|p0 [|p1 [|p2 p]]]; [congruence| | |].
    + injection Hs as _ Hs _. subst b1. congruence.
    + injection Hs as _ _ Hs _. subst b2. congruence.
    + injection Hs as _ _ _ Hs. exists p. exact Hs.
  - assert (K1' : continuation (byte_val b1) = true).
    { apply continuation_bounds. bounds; lia. }
    destruct p as [|p0 [|p1 [|p2 [|p3 p]]]]; [congruence| | | |].
    + injection Hs as _ Hs _. subst b1. congruence.
    + injection Hs as _ _ Hs _. subst b2. congruence.
    + injection Hs as _ _ _ Hs _. subst b3. congruence.
    + injection Hs as _ _ _ _ Hs. exists p. exact Hs.
  - destruct p as [|p0 p]; [congruence|].
    injection Hs as _ Hs. exists p. exact Hs.
Qed.

(** [e] lies somewhere in [s]. *)
Lemma HasPrefix_app (s e : gostring) :
  strings.HasPrefix s e = true <-> exists t, s = e ++ t.
Proof.
  revert s. induction e as [|c e IH]; intros s.
  - destruct s; cbn [strings.HasPrefix]; split; intros; eauto.
  - destruct s as [|b s]; cbn [strings.HasPrefix].
    + split; [discriminate | intros [t Ht]; discriminate].
    + rewrite andb_true_iff, byte_eqb_eq, IH. split.
      * intros [-> [t ->]]. exists t. reflexivity.
      * intros [t Ht]. injection Ht as -> ->. eauto.
Qed.

Lemma Index_from_found (i : Z) (s e : gostring) :
  0 <= i ->
  (0 <= strings.Index_from i s e <-> exists p t, s = p ++ e ++ t).
Proof.
  revert i. induction s as [|b s IH]; intros i Hi.
  - cbn [strings.Index_from].
    destruct (strings.HasPrefix [] e) eqn:P.
    + apply HasPrefix_app in P as [t Ht].
      split; [intros _; exists [], t; exact Ht | intros _; exact Hi].
    + split; [lia|]. intros (p & t & Hs).
      destruct p; [|discriminate]. cbn [app] in Hs.
      assert (P' : strings.HasPrefix [] e = true)
        by (apply HasPrefix_app; eauto).
      congruence.
  - cbn [strings.Index_from].
    destruct (strings.HasPrefix (b :: s) e) eqn:P.
    + apply HasPrefix_app in P as [t Ht].
      split; [intros _; exists [], t; exact Ht | intros _; exact Hi].
    + rewrite IH by lia. split.
      * intros (p & t & ->). exists (b :: p), t. reflexivity.
      * intros (p & t & Hs). destruct p as [|p0 p].
        -- assert (P' : strings.HasPrefix (b :: s) e = true)
             by (apply HasPrefix_app; eauto).
           congruence.
        -- injection Hs as _ ->. eauto.
Qed.

Lemma Index_found (s e : gostring) :
  0 <= strings.Index s e <-> exists p t, s = p ++ e ++ t.
Proof. apply Index_from_found. lia. Qed.

Lemma IndexByte_from_found (i : Z) (s : gostring) (c : byte) :
  0 <= i ->
  (0 <= strings.IndexByte_from i s c <-> exists p t, s = p ++ [c] ++ t).
Proof.
  revert i. induction s as [|b s IH]; intros i Hi.
  - cbn [strings.IndexByte_from]. split; [lia|].
    intros (p & t & Hs). destruct p; discriminate.
  - cbn [strings.IndexByte_from]. destruct (Byte.eqb b c) eqn:E.
    + apply byte_eqb_eq in E as ->.
      split; [intros _; exists [], s; reflexivity | intros _; exact Hi].
    + rewrite IH by lia. split.
      * intros (p & t & ->). exists (b :: p), t. reflexivity.
      * intros (p & t & Hs). destruct p as [|p0 p].
        -- injection Hs as -> _.
           assert (E' : Byte.eqb c c = true) by (apply byte_eqb_eq; reflexivity).
           congruence.
        -- injection Hs as _ ->. eauto.
Qed.

Lemma IndexByte_found (s : gostring) (c : byte) :
  0 <= strings.IndexByte s c <-> exists p t, s = p ++ [c] ++ t.
Proof. apply IndexByte_from_found. lia. Qed.

(** The code points of a string are the code points whose encoding lies
    in it, the replacement character apart (which a malformed byte
    yields as well). *)
Lemma runes_encoded (r : Z) (s : gostring) :
  utf8.ValidRune r = true -> r <> utf8.RuneError ->
  (In r (utf8.runes s) <-> exists p t, s = p ++ utf8.EncodeRune r ++ t).
Proof.
  intros V NE.
  destruct (encode_lead r V) as (b & e & He & Hb).
  remember (length s) as n eqn:Hn. revert s Hn.
  induction n as [n IH] using lt_wf_ind. intros s Hn.
  destruct s as [|b0 s0].
  - rewrite runes_nil. split; [intros []|].
    intros (p & t & Hs). rewrite He in Hs. destruct p; discriminate.
  - set (s := b0 :: s0) in *.
    assert (Hne : s <> []) by discriminate.
    pose proof (decode_decoded s Hne) as D.
    pose proof (decode_width s Hne) as [[W1 _] W2].
    rewrite runes_cons by assumption.
    assert (Hlt : (length (drop (Z.to_nat (snd (utf8.DecodeRuneInString s))) s)
                   < n)%nat).
    { rewrite length_drop. subst n. subst s. cbn [length] in *. lia. }
    specialize (IH _ Hlt _ eq_refl).
    split.
    + intros [Hr | Hr].
      * rewrite Hr in D.
        destruct (decoded_encoded _ _ _ D) as [(_ & Hbad & _) | (_ & _ & t & Ht)];
          [contradiction|].
        exists [], t. exact Ht.
      * apply IH in Hr as (p & t & Hs).
        exists (take (Z.to_nat (snd (utf8.DecodeRuneInString s))) s ++ p), t.
        rewrite <- app_assoc, <- Hs, take_drop. reflexivity.
    + intros (p & t & Hs). destruct p as [|p0 p].
      * left. cbn [app] in Hs. rewrite Hs.
        rewrite (decoded_Decode _ _ _ (encoded_decoded r t V)). reflexivity.
      * right. apply IH. rewrite He in Hs.
        destruct (decoded_synchronises _ _ _ _ _ _ _ D Hs ltac:(discriminate) Hb)
          as (p' & Hd).
        exists p', t. rewrite He. exact Hd.
Qed.

(** What the decoder yields is a code point. *)
Lemma runes_valid (r : Z) (s : gostring) :
  In r (utf8.runes s) -> utf8.ValidRune r = true.
Proof.
  remember (length s) as n eqn:Hn. revert s Hn.
  induction n as [n IH] using lt_wf_ind. intros s Hn.
  destruct s as [|b0 s0]; [rewrite runes_nil; intros []|].
  set (s := b0 :: s0) in *.
  assert (Hne : s <> []) by discriminate.
  pose proof (decode_decoded s Hne) as D.
  pose proof (decode_width s Hne) as [[W1 _] W2].
  rewrite runes_cons by assumption.
  intros [Hr | Hr].
  - rewrite Hr in D.
    destruct (decoded_encoded _ _ _ D) as [(_ & -> & _) | (V & _)];
      [reflexivity | exact V].
  - refine (IH _ _ _ eq_refl Hr).
    rewrite length_drop. subst n. subst s. cbn [length] in *. lia.
Qed.

(** The offsets that [range] yields are offsets. *)
Lemma range_from_offsets (fuel : nat) (i : Z) (s : gostring) :
  0 <= i -> Forall (fun p => 0 <= fst p) (utf8.range_from fuel i s).
Proof.
  revert i s. induction fuel as [|fuel IH]; intros i s Hi;
    cbn [utf8.range_from]; [constructor|].
  destruct s as [|b0 s0]; [constructor|].
  pose proof (decode_width (b0 :: s0) ltac:(discriminate)) as [[W1 _] _].
  destruct (utf8.DecodeRuneInString (b0 :: s0)) as [r w].
  cbn [snd] in W1. constructor; [exact Hi|]. apply IH. lia.
Qed.

(** The search of [IndexRune] for the replacement character. *)
Lemma find_RuneError (s : gostring) :
  0 <= match find (fun p => snd p =? utf8.RuneError) (utf8.range s) with
       | Some (i, _) => i
       | None => -1
       end <->
  In utf8.RuneError (utf8.runes s).
Proof.
  unfold utf8.runes, utf8.range.
  pose proof (range_from_offsets (length s) 0 s ltac:(lia)) as Hoff.
  induction (utf8.range_from (length s) 0 s) as [|[i r] rs IH];
    cbn [find map In snd].
  - split; [lia | intros []].
  - apply Forall_cons in Hoff as [Hi Hoff]. cbn [fst] in Hi.
    destruct (Z.eqb_spec r utf8.RuneError) as [E|E].
    + split; [intros _; left; exact E | intros _; exact Hi].
    + rewrite (IH Hoff). split; [intros H; right; exact H|].
      intros [H|H]; [contradiction | exact H].
Qed.

(** [IndexRune] finds [r] in [valid] exactly when [r] is one of the
    code points of [valid], a malformed byte of [valid] counting as the
    replacement character. *)
Lemma in_set_code_point (valid : gostring) (r : Z) :
  in_set valid r = true <-> code_point_of valid r.
Proof.
  unfold in_set, code_point_of, strings.IndexRune, utf8.RuneSelf.
  rewrite Z.leb_le.
  destruct ((0 <=? r) && (r <? 128)) eqn:A.
  { apply andb_prop in A as [A1 A2].
    apply Z.leb_le in A1. apply Z.ltb_lt in A2.
    assert (V : utf8.ValidRune r = true).
    { unfold utf8.ValidRune, utf8.surrogateMin. tests; reflexivity. }
    rewrite IndexByte_found, (runes_encoded r valid V)
      by (unfold utf8.RuneError; lia).
    rewrite encode_one by lia. reflexivity. }
  destruct (Z.eqb_spec r utf8.RuneError) as [->|NE].
  { apply find_RuneError. }
  destruct (utf8.ValidRune r) eqn:V; cbn [negb].
  - rewrite Index_found. symmetry. apply runes_encoded; assumption.
  - split; [lia|]. intros H. apply runes_valid in H. congruence.
Qed.

(** ** The cursor: lookahead and decoding *)

Section CursorClaims.

Context {StateFn : Type}.
Implicit Types l : Lexer StateFn.

Lemma typed_Pos l : typed l -> is_int (Pos l).
Proof. intros (_ & H & _). exact H. Qed.

Lemma typed_len l : typed l -> len (input l) <= max_int.
Proof. intros (_ & _ & _ & _ & H). exact H. Qed.

(** Once [Peek] has returned, the state is a fixed point of [Peek]. *)
Lemma peeks_fixed l (r : Z) (n : nat) :
  Peek l = Ok (r, l) -> peeks n l = Ok (repeat r n, l).
Proof.
  intros H. induction n as [|n IH]; [reflexivity|].
  cbn [peeks repeat]. unfold bind at 1. rewrite H.
  unfold bind. rewrite IH. reflexivity.
Qed.

(** C7: in every cursor state [Peek] gives the rune that [Next] would
    give (and panics exactly when [Next] would), leaves [Pos] where it
    was, and any number of calls of [Peek] in a row give that same
    rune and leave a state from which [Next] returns the rune and the
    state it would have returned without them. *)
Theorem Peek_is_Next_without_advance l :
  typed l ->
  (Next l = Panic /\ Peek l = Panic) \/
  (exists r l1 l2,
      Next l = Ok (r, l2) /\
      Peek l = Ok (r, l1) /\
      Pos l1 = Pos l /\
      (forall n, peeks (S n) l = Ok (repeat r (S n), l1)) /\
      Next l1 = Ok (r, l2)).
Proof.
  intros Ht. pose proof (typed_Pos l Ht) as HP.
  pose proof (typed_len l Ht) as Hmax.
  destruct (Z.lt_ge_cases (Pos l) 0) as [Hneg|Hpos].
  { left. split; [apply Next_negative | apply Peek_negative]; assumption. }
  right.
  destruct (Z.le_gt_cases (len (input l)) (Pos l)) as [Hend|Hin].
  - (* at or past the end *)
    exists EOF, (set_Width 0 l), (set_Width 0 l).
    assert (Hfix : Peek (set_Width 0 l) = Ok (EOF, set_Width 0 l)).
    { rewrite Peek_at_end by assumption. destruct l; reflexivity. }
    repeat split.
    + apply Next_at_end. assumption.
    + apply Peek_at_end; assumption.
    + intros n. cbn [peeks repeat]. unfold bind at 1.
      rewrite Peek_at_end by assumption.
      unfold bind. rewrite (peeks_fixed _ _ n Hfix). reflexivity.
    + rewrite Next_at_end by assumption. destruct l; reflexivity.
  - (* inside the input *)
    set (r := fst (utf8.DecodeRuneInString (rest l))).
    set (w := snd (utf8.DecodeRuneInString (rest l))).
    exists r, (set_Width w l), (set_Pos (Pos l + w) (set_Width w l)).
    assert (Hfix : Peek (set_Width w l) = Ok (r, set_Width w l)).
    { rewrite Peek_decode by (assumption || (cbn; lia)).
      destruct l; reflexivity. }
    repeat split.
    + apply Next_decode; [lia | assumption].
    + apply Peek_decode; [lia | assumption].
    + intros n. cbn [peeks repeat]. unfold bind at 1.
      rewrite Peek_decode by (assumption || lia). fold r w.
      unfold bind. rewrite (peeks_fixed _ _ n Hfix). reflexivity.
    + rewrite Next_decode by (assumption || (cbn; lia)).
      destruct l; reflexivity.
Qed.

(** C9: in every cursor state ([Pos] being an offset, not negative)
    [Peek] returns and changes nothing but [Width]: [Pos], [Start] and
    the input are as before, and [Width] is the byte width of the code
    point at the scan offset, zero at or past the end of the input and
    one to four before it.  So a [Backup] right after [Peek] moves
    [Pos] back by that width, below where it was unless the input is at
    its end. *)
Theorem Peek_overwrites_Width l :
  typed l ->
  0 <= Pos l ->
  exists r w l' l'',
    Peek l = Ok (r, l') /\
    l' = set_Width w l /\
    Pos l' = Pos l /\ Start l' = Start l /\ input l' = input l /\
    Width l' = w /\
    w = snd (utf8.DecodeRuneInString (rest l)) /\
    (len (input l) <= Pos l -> w = 0) /\
    (Pos l < len (input l) -> 1 <= w <= 4) /\
    Backup l' = Ok (tt, l'') /\
    Pos l'' = Pos l - w /\
    (Pos l < len (input l) -> Pos l'' < Pos l).
Proof.
  intros Ht Hpos. pose proof (typed_Pos l Ht) as HP.
  pose proof (typed_len l Ht) as Hmax.
  set (w := snd (utf8.DecodeRuneInString (rest l))).
  assert (Hw : (len (input l) <= Pos l -> w = 0) /\
               (Pos l < len (input l) -> 1 <= w <= 4)).
  { split; intros H.
    - unfold w. rewrite rest_empty by assumption. reflexivity.
    - apply decode_width. apply rest_nonempty. lia. }
  assert (Hw4 : 0 <= w <= 4).
  { destruct (Z.le_gt_cases (len (input l)) (Pos l)) as [H|H];
      [apply Hw in H | apply Hw in H]; lia. }
  assert (HB : wrap (Pos l - w) = Pos l - w).
  { apply wrap_id. unfold is_int, min_int, max_int, int_bits in *. lia. }
  assert (HPeek : exists r, Peek l = Ok (r, set_Width w l)).
  { destruct (Z.le_gt_cases (len (input l)) (Pos l)) as [H|H].
    - exists EOF. rewrite Peek_at_end by assumption.
      destruct Hw as [Hw0 _]. rewrite (Hw0 H). reflexivity.
    - eexists. apply Peek_decode; [lia | assumption]. }
  destruct HPeek as [r HPeek].
  exists r, w, (set_Width w l), (set_Pos (Pos l - w) (set_Width w l)).
  destruct Hw as [Hw0 Hw1].
  repeat apply conj; try assumption; try reflexivity.
  - rewrite Backup_eq. cbn [Pos Width set_Width]. rewrite HB. reflexivity.
  - intros H. cbn [Pos set_Pos]. apply Hw1 in H. lia.
Qed.

(** C8: in every cursor state ([Pos] being an offset, not negative), at
    or past the end of the input [Next] returns [EOF] and sets [Width]
    to zero, so that the [Backup] after it leaves [Pos] where it was;
    before the end it moves [Pos] forward by the one to four bytes it
    records in [Width], and by exactly one byte, returning the
    replacement character, when the bytes at [Pos] begin no well-formed
    UTF-8 sequence. *)
Theorem Next_end_or_progress l :
  typed l ->
  0 <= Pos l ->
  (len (input l) <= Pos l ->
   exists l' l'',
     Next l = Ok (EOF, l') /\ Width l' = 0 /\ Pos l' = Pos l /\
     Backup l' = Ok (tt, l'') /\ Pos l'' = Pos l) /\
  (Pos l < len (input l) ->
   exists r l',
     Next l = Ok (r, l') /\
     Pos l + 1 <= Pos l' <= len (input l) /\
     Pos l' <= Pos l + 4 /\
     Width l' = Pos l' - Pos l /\
     (well_formed_len (rest l) = None ->
      r = utf8.RuneError /\ Pos l' = Pos l + 1)).
Proof.
  intros Ht Hpos. pose proof (typed_Pos l Ht) as HP.
  pose proof (typed_len l Ht) as Hmax.
  split.
  - intros Hend.
    exists (set_Width 0 l), (set_Pos (Pos l) (set_Width 0 l)).
    repeat split.
    + apply Next_at_end. assumption.
    + rewrite Backup_eq. cbn [Pos Width set_Width].
      rewrite Z.sub_0_r, wrap_id by assumption. reflexivity.
  - intros Hin.
    assert (Hne : rest l <> []) by (apply rest_nonempty; lia).
    pose proof (decode_width _ Hne) as [W1 W2].
    rewrite len_rest in W2 by lia.
    eexists _, _. split; [apply Next_decode; [lia | assumption]|].
    cbn [Pos Width set_Pos set_Width].
    repeat apply conj; try lia.
    intros Hbad.
    rewrite (decode_malformed_width_one _ Hne Hbad). split; reflexivity.
Qed.

(** C6: for every set [valid] and every cursor state
    ([Pos] being an offset, not negative), [AcceptRun valid] returns with
    [Pos] just past the longest run of code points of [valid] that
    begins at the scan offset, having changed nothing else but
    [Width]: every code point of the run is one of the code points of
    [valid], and what follows the run is empty or begins with a code
    point that is none of them; the text of the pending token grows by
    that run. *)
Theorem AcceptRun_consumes_max_run (valid : gostring) l :
  typed l ->
  0 <= Pos l ->
  exists run t l',
    max_run valid (rest l) run t /\
    AcceptRun valid l = Ok (tt, l') /\
    Pos l' = Pos l + len run /\
    Start l' = Start l /\ input l' = input l /\ tokens l' = tokens l /\
    state l' = state l /\
    Forall (code_point_of valid) (utf8.runes run) /\
    (t = [] \/ ~ code_point_of valid (fst (utf8.DecodeRuneInString t))) /\
    (forall pending,
        slice (input l) (Start l) (Pos l) = Ok pending ->
        slice (input l') (Start l') (Pos l') = Ok (pending ++ run)).
Proof.
  intros Ht Hpos.
  destruct (AcceptRun_total valid l Ht Hpos) as (run & t & Hrun & HA).
  exists run, t. eexists. split; [exact Hrun|]. split; [exact HA|].
  cbn [Pos Start input tokens state set_Pos set_Width].
  repeat apply conj; try reflexivity.
  - destruct Hrun as (_ & _ & Hall & _).
    eapply Forall_impl; [exact Hall|].
    intros r Hr. apply in_set_code_point. exact Hr.
  - destruct Hrun as (_ & _ & _ & [Ht0 | Hstop]); [left; exact Ht0|].
    right. intros Hin. apply in_set_code_point in Hin. congruence.
  - intros pending Hp. unfold slice in *.
    destruct (Z.leb_spec 0 (Start l)); cbn [andb] in *; [|discriminate].
    destruct (Z.leb_spec (Start l) (Pos l)); cbn [andb] in *; [|discriminate].
    destruct (Z.leb_spec (Pos l) (len (input l))); [|discriminate].
    injection Hp as Hp.
    destruct Hrun as (Hs & _).
    assert (Hlen : len (rest l) = len run + len t)
      by (rewrite Hs; apply len_app).
    rewrite len_rest in Hlen by lia.
    pose proof (len_nonneg run). pose proof (len_nonneg t).
    destruct (Z.leb_spec (Start l) (Pos l + len run)); [|lia].
    destruct (Z.leb_spec (Pos l + len run) (len (input l))); [|lia].
    cbn [andb]. f_equal. subst pending.
    replace (Z.to_nat (Pos l + len run - Start l))
      with (Z.to_nat (Pos l - Start l) + length run)%nat
      by (unfold len; lia).
    rewrite <- (take_drop (Z.to_nat (Pos l - Start l))
                  (drop (Z.to_nat (Start l)) (input l))) at 1.
    rewrite take_app_ge by (rewrite length_take, length_drop; unfold len in *; lia).
    f_equal.
    rewrite length_take, length_drop, drop_drop.
    replace (Z.to_nat (Start l) + Z.to_nat (Pos l - Start l))%nat
      with (Z.to_nat (Pos l)) by lia.
    fold (rest l). rewrite Hs.
    rewrite Nat.min_l by (unfold len in *; lia).
    replace (Z.to_nat (Pos l - Start l) + length run
             - Z.to_nat (Pos l - Start l))%nat with (length run) by lia.
    apply take_app_length.
Qed.

(** Method by method: the order [0 <= Start <= Pos <= len(input)] of
    the offsets holds in the state [NewLexer] returns and, from a
    state in which it holds, [Next], [Peek], [Accept], [AcceptRun]
    and [Ignore] return with it holding again, and so does [Emit]
    unless its send blocks on a full buffer.  [Backup] keeps it when
    the width it takes back is at most [Pos - Start], the text still
    pending; with a greater width it leaves [Pos] below [Start]. *)
Lemma cursor_inv_preserved :
  (forall nm inp (start : option StateFn),
      len inp <= max_int ->
      typed (NewLexer nm inp start) /\
      cursor_inv (NewLexer nm inp start)) /\
  (forall l,
      typed l -> cursor_inv l ->
      (exists r l', Next l = Ok (r, l') /\ typed l' /\ cursor_inv l') /\
      (exists r l', Peek l = Ok (r, l') /\ typed l' /\ cursor_inv l') /\
      (forall valid,
          exists b l', Accept valid l = Ok (b, l') /\ typed l' /\ cursor_inv l') /\
      (forall valid,
          exists l', AcceptRun valid l = Ok (tt, l') /\ typed l' /\ cursor_inv l') /\
      (exists l', Ignore l = Ok (tt, l') /\ typed l' /\ cursor_inv l') /\
      (forall t,
          Emit t l = Blocked \/
          exists l', Emit t l = Ok (tt, l') /\ typed l' /\ cursor_inv l') /\
      (exists l',
          Backup l = Ok (tt, l') /\
          (0 <= Width l <= Pos l - Start l -> typed l' /\ cursor_inv l') /\
          (Pos l - Start l < Width l -> Pos l' < Start l'))).
Proof.
  split.
  { intros nm inp start Hmax. unfold typed, cursor_inv, is_int.
    cbn [NewLexer Start Pos Width lastPos input].
    pose proof (len_nonneg inp).
    unfold min_int, max_int, int_bits in *. cbn. lia. }
  intros l Ht Hinv.
  pose proof Ht as (HS & HP & HW & HL & Hmax).
  pose proof Hinv as ((H0 & H1) & H2).
  assert (Hnext : forall w,
             0 <= w <= 4 -> Pos l + w <= len (input l) ->
             typed (set_Pos (Pos l + w) (set_Width w l)) /\
             cursor_inv (set_Pos (Pos l + w) (set_Width w l))).
  { intros w Hw Hle. unfold typed, cursor_inv, is_int in *.
    cbn [Start Pos Width lastPos input set_Pos set_Width].
    unfold min_int, max_int, int_bits in *. lia. }
  assert (Hpeek : forall w,
             0 <= w <= 4 ->
             typed (set_Width w l) /\ cursor_inv (set_Width w l)).
  { intros w Hw. unfold typed, cursor_inv, is_int in *.
    cbn [Start Pos Width lastPos input set_Width].
    unfold min_int, max_int, int_bits in *. lia. }
  assert (Hdec : Pos l < len (input l) ->
             1 <= snd (utf8.DecodeRuneInString (rest l)) <= 4 /\
             Pos l + snd (utf8.DecodeRuneInString (rest l)) <= len (input l)).
  { intros Hin.
    assert (Hne : rest l <> []) by (apply rest_nonempty; lia).
    pose proof (decode_width _ Hne) as [W1 W2].
    rewrite len_rest in W2 by lia. lia. }
  repeat apply conj.
  - (* Next *)
    destruct (Z.le_gt_cases (len (input l)) (Pos l)) as [Hend|Hin].
    + eexists _, _. split; [apply Next_at_end; assumption|].
      apply Hpeek. lia.
    + eexists _, _. split; [apply Next_decode; [lia | assumption]|].
      apply Hnext; apply Hdec in Hin; lia.
  - (* Peek *)
    destruct (Z.le_gt_cases (len (input l)) (Pos l)) as [Hend|Hin].
    + eexists _, _. split; [apply Peek_at_end; assumption|].
      apply Hpeek. lia.
    + eexists _, _. split; [apply Peek_decode; [lia | assumption]|].
      apply Hpeek; apply Hdec in Hin; lia.
  - (* Accept *)
    intros valid.
    destruct (Z.le_gt_cases (len (input l)) (Pos l)) as [Hend|Hin].
    + eexists _, _. split; [apply Accept_at_end; assumption|].
      apply Hpeek. lia.
    + rewrite Accept_decode by (assumption || lia).
      destruct (in_set valid _); eexists _, _; (split; [reflexivity|]).
      * apply Hnext; apply Hdec in Hin; lia.
      * apply Hpeek; apply Hdec in Hin; lia.
  - (* AcceptRun *)
    intros valid.
    destruct (AcceptRun_total valid l Ht ltac:(lia)) as (run & t & Hrun & HA).
    eexists. split; [exact HA|].
    destruct Hrun as (Hs & _).
    assert (Hlen : len (rest l) = len run + len t)
      by (rewrite Hs; apply len_app).
    rewrite len_rest in Hlen by lia.
    pose proof (len_nonneg run). pose proof (len_nonneg t).
    assert (Hw : 0 <= snd (utf8.DecodeRuneInString t) <= 4).
    { destruct t as [|b t]; [rewrite decode_empty; cbn; lia|].
      pose proof (decode_width (b :: t) ltac:(congruence)). lia. }
    unfold typed, cursor_inv, is_int in *.
    cbn [Start Pos Width lastPos input set_Pos set_Width].
    unfold min_int, max_int, int_bits in *. lia.
  - (* Ignore *)
    eexists. split; [apply Ignore_eq|].
    unfold typed, cursor_inv, is_int in *.
    cbn [Start Pos Width lastPos input set_Start]. lia.
  - (* Emit *)
    intros t. rewrite Emit_in_order by assumption.
    destruct (tokens_cap <=? length (tokens l))%nat; [left; reflexivity|].
    right. eexists. split; [reflexivity|].
    unfold typed, cursor_inv, is_int in *.
    cbn [Start Pos Width lastPos input set_Start set_tokens]. lia.
  - (* Backup *)
    eexists. split; [apply Backup_eq|].
    split.
    + intros Hw. rewrite wrap_id
        by (unfold is_int, min_int, max_int, int_bits in *; lia).
      unfold typed, cursor_inv, is_int in *.
      cbn [Start Pos Width lastPos input set_Pos].
      unfold min_int, max_int, int_bits in *. lia.
    + intros Hw. rewrite wrap_id
        by (unfold is_int, min_int, max_int, int_bits in *; lia).
      cbn [Start Pos set_Pos]. lia.
Qed.

End CursorClaims.

(** The theorems above at the state [NewLexer] returns for the input
    ["a1"]. *)

Lemma Peek_is_Next_without_advance_witness :
  typed fresh_a1 /\
  ((Next fresh_a1 = Panic /\ Peek fresh_a1 = Panic) \/
   (exists r l1 l2,
       Next fresh_a1 = Ok (r, l2) /\
       Peek fresh_a1 = Ok (r, l1) /\
       Pos l1 = Pos fresh_a1 /\
       (forall n, peeks (S n) fresh_a1 = Ok (repeat r (S n), l1)) /\
       Next l1 = Ok (r, l2))).
Proof.
  assert (H : typed fresh_a1).
  { unfold typed, is_int. repeat split; vm_compute; discriminate. }
  split; [exact H|].
  exact (Peek_is_Next_without_advance fresh_a1 H).
Defined.

Lemma Peek_overwrites_Width_witness :
  typed fresh_a1 /\ 0 <= Pos fresh_a1 /\
  exists r w l' l'',
    Peek fresh_a1 = Ok (r, l') /\
    l' = set_Width w fresh_a1 /\
    Pos l' = Pos fresh_a1 /\ Start l' = Start fresh_a1 /\
    input l' = input fresh_a1 /\
    Width l' = w /\
    w = snd (utf8.DecodeRuneInString (rest fresh_a1)) /\
    (len (input fresh_a1) <= Pos fresh_a1 -> w = 0) /\
    (Pos fresh_a1 < len (input fresh_a1) -> 1 <= w <= 4) /\
    Backup l' = Ok (tt, l'') /\
    Pos l'' = Pos fresh_a1 - w /\
    (Pos fresh_a1 < len (input fresh_a1) -> Pos l'' < Pos fresh_a1).
Proof.
  assert (H : typed fresh_a1).
  { unfold typed, is_int. repeat split; vm_compute; discriminate. }
  assert (H0 : 0 <= Pos fresh_a1) by (vm_compute; discriminate).
  split; [exact H|]. split; [exact H0|].
  exact (Peek_overwrites_Width fresh_a1 H H0).
Defined.

Lemma Next_end_or_progress_witness :
  typed fresh_a1 /\ 0 <= Pos fresh_a1 /\
  (len (input fresh_a1) <= Pos fresh_a1 ->
   exists l' l'',
     Next fresh_a1 = Ok (EOF, l') /\ Width l' = 0 /\ Pos l' = Pos fresh_a1 /\
     Backup l' = Ok (tt, l'') /\ Pos l'' = Pos fresh_a1) /\
  (Pos fresh_a1 < len (input fresh_a1) ->
   exists r l',
     Next fresh_a1 = Ok (r, l') /\
     Pos fresh_a1 + 1 <= Pos l' <= len (input fresh_a1) /\
     Pos l' <= Pos fresh_a1 + 4 /\
     Width l' = Pos l' - Pos fresh_a1 /\
     (well_formed_len (rest fresh_a1) = None ->
      r = utf8.RuneError /\ Pos l' = Pos fresh_a1 + 1)).
Proof.
  assert (H : typed fresh_a1).
  { unfold typed, is_int. repeat split; vm_compute; discriminate. }
  assert (H0 : 0 <= Pos fresh_a1) by (vm_compute; discriminate).
  split; [exact H|]. split; [exact H0|].
  exact (Next_end_or_progress fresh_a1 H H0).
Defined.

Lemma AcceptRun_consumes_max_run_witness :
  typed fresh_a1 /\ 0 <= Pos fresh_a1 /\
  exists run t l',
    max_run (str "a") (rest fresh_a1) run t /\
    AcceptRun (str "a") fresh_a1 = Ok (tt, l') /\
    Pos l' = Pos fresh_a1 + len run /\
    Start l' = Start fresh_a1 /\ input l' = input fresh_a1 /\
    tokens l' = tokens fresh_a1 /\
    state l' = state fresh_a1 /\
    Forall (code_point_of (str "a")) (utf8.runes run) /\
    (t = [] \/ ~ code_point_of (str "a") (fst (utf8.DecodeRuneInString t))) /\
    (forall pending,
        slice (input fresh_a1) (Start fresh_a1) (Pos fresh_a1) = Ok pending ->
        slice (input l') (Start l') (Pos l') = Ok (pending ++ run)).
Proof.
  assert (H : typed fresh_a1).
  { unfold typed, is_int. repeat split; vm_compute; discriminate. }
  assert (H0 : 0 <= Pos fresh_a1) by (vm_compute; discriminate).
  split; [exact H|]. split; [exact H0|].
  exact (AcceptRun_consumes_max_run (str "a") fresh_a1 H H0).
Defined.

(** The step of backtracking on ["a1"]: after [l.Next(); l.Emit(1)]
    the offsets are in order, and the one [Backup] that the call of
    [Next] permits puts [Pos] below [Start]; an [Emit] from that state
    panics. *)
Example Backup_after_Emit_breaks_order :
  (Next ;; Emit 1) fresh_a1 = Ok (tt, emitted_a) /\
  cursor_inv emitted_a /\
  Backup emitted_a = Ok (tt, backed_up_behind_Start) /\
  Pos backed_up_behind_Start < Start backed_up_behind_Start /\
  ~ cursor_inv backed_up_behind_Start /\
  Emit 2 backed_up_behind_Start = Panic.
Proof.
  split; [reflexivity|].
  split; [unfold cursor_inv; repeat split; vm_compute; discriminate|].
  split; [reflexivity|].
  split; [reflexivity|].
  split; [|reflexivity].
  intros ((_ & H) & _). vm_compute in H. apply H. reflexivity.
Qed.

(** Splits the conjunctions of the goal that are written as such. *)
Ltac conjs := repeat match goal with |- _ /\ _ => split end.

(** X19: the offset [Pos] is never negative, nor past the end of the
    input, in a state reached from [NewLexer] by calls of the cursor
    methods that keep to the contract of [Backup] ("can be called only
    once per call of next"); [Start] is an offset of the input too and
    [Width] is between 0 and 4; and when a [Backup] is permitted the
    width it would take back is at most [Pos]. *)

Lemma reached_in_input {StateFn : Type} (may : bool) (l : Lexer StateFn) :
  reached may l ->
  typed l /\
  0 <= Pos l <= len (input l) /\
  0 <= Start l <= len (input l) /\
  0 <= Width l <= 4 /\
  (may = true -> Width l <= Pos l).
Proof.
  assert (Hints : forall z, 0 <= z <= max_int -> is_int z).
  { intros z Hz. unfold is_int, min_int, max_int, int_bits in *. lia. }
  assert (H4 : 4 <= max_int) by (vm_compute; discriminate).
  induction 1 as
    [ nm inp start Hmax
    | may l r l' _ IH E
    | l l' _ IH E
    | may l r l' _ IH E
    | may l valid b l' _ IH E
    | may l valid l' _ IH E
    | may l l' _ IH E
    | may l t l' _ IH E ];
    [ pose proof (len_nonneg inp) | .. ];
    try (destruct IH as (Ht & HP & HS & HW & Hmay);
         pose proof Ht as (T1 & T2 & T3 & T4 & T5);
         pose proof (len_nonneg (input l))).
  all: try (assert (Hdec : Pos l < len (input l) ->
                     1 <= snd (utf8.DecodeRuneInString (rest l)) <= 4 /\
                     Pos l + snd (utf8.DecodeRuneInString (rest l))
                     <= len (input l));
            [ intros Hin;
              pose proof (decode_width _ (rest_nonempty l ltac:(lia))) as [W1 W2];
              rewrite len_rest in W2 by lia; lia |]).
  - (* NewLexer *)
    unfold typed. cbn [NewLexer Start Pos Width lastPos input].
    conjs; try (apply Hints); try lia; try discriminate.
  - (* Next *)
    destruct (Z.le_gt_cases (len (input l)) (Pos l)) as [Hend|Hin].
    + rewrite Next_at_end in E by assumption. injection E as _ <-.
      unfold typed. cbn [Start Pos Width lastPos input set_Width].
      conjs; try assumption; try (apply Hints); lia.
    + rewrite Next_decode in E by (assumption || lia). injection E as _ <-.
      apply Hdec in Hin.
      unfold typed. cbn [Start Pos Width lastPos input set_Pos set_Width].
      conjs; try assumption; try (apply Hints); lia.
  - (* Backup *)
    specialize (Hmay eq_refl).
    rewrite Backup_eq in E. injection E as <-.
    rewrite wrap_id by (apply Hints; lia).
    unfold typed. cbn [Start Pos Width lastPos input set_Pos].
    conjs; try assumption; try (apply Hints);
      first [lia | discriminate].
  - (* Peek *)
    destruct (Z.le_gt_cases (len (input l)) (Pos l)) as [Hend|Hin].
    + rewrite Peek_at_end in E by assumption. injection E as _ <-.
      unfold typed. cbn [Start Pos Width lastPos input set_Width].
      conjs; try assumption; try (apply Hints);
        first [lia | discriminate].
    + rewrite Peek_decode in E by (assumption || lia). injection E as _ <-.
      apply Hdec in Hin.
      unfold typed. cbn [Start Pos Width lastPos input set_Width].
      conjs; try assumption; try (apply Hints);
        first [lia | discriminate].
  - (* Accept *)
    destruct (Z.le_gt_cases (len (input l)) (Pos l)) as [Hend|Hin].
    + rewrite Accept_at_end in E by assumption. injection E as <- <-.
      unfold typed. cbn [Start Pos Width lastPos input set_Width].
      conjs; try assumption; try (apply Hints);
        first [lia | discriminate].
    + rewrite Accept_decode in E by (assumption || lia).
      apply Hdec in Hin.
      destruct (in_set valid _); injection E as <- <-;
        unfold typed; cbn [Start Pos Width lastPos input set_Pos set_Width];
        conjs; try assumption; try (apply Hints);
        first [lia | discriminate].
  - (* AcceptRun *)
    destruct (AcceptRun_total valid l Ht ltac:(lia)) as (run & t & Hrun & HA).
    rewrite HA in E. injection E as <-.
    destruct Hrun as (Hs & _).
    assert (Hlen : len (rest l) = len run + len t)
      by (rewrite Hs; apply len_app).
    rewrite len_rest in Hlen by lia.
    pose proof (len_nonneg run). pose proof (len_nonneg t).
    assert (Hw : 0 <= snd (utf8.DecodeRuneInString t) <= 4).
    { destruct t as [|b t]; [rewrite decode_empty; cbn; lia|].
      pose proof (decode_width (b :: t) ltac:(congruence)). lia. }
    unfold typed. cbn [Start Pos Width lastPos input set_Pos set_Width].
    conjs; try assumption; try (apply Hints);
      first [lia | discriminate].
  - (* Ignore *)
    rewrite Ignore_eq in E. injection E as <-.
    unfold typed. cbn [Start Pos Width lastPos input set_Start].
    conjs; try assumption; lia.
  - (* Emit *)
    destruct (Z.lt_ge_cases (Pos l) (Start l)) as [Hlt|Hge].
    + rewrite Emit_out_of_order in E by lia. discriminate.
    + rewrite Emit_in_order in E by (unfold cursor_inv; lia).
      destruct (tokens_cap <=? length (tokens l))%nat; [discriminate|].
      injection E as <-.
      unfold typed. cbn [Start Pos Width lastPos input set_Start set_tokens].
      conjs; try assumption; lia.
Qed.

(** Outside that contract the offset does become negative: a [Backup]
    after [Peek] takes back a rune that [Peek] has given back already,
    and the [Next] after it panics in [l.input[l.Pos:]]. *)
Example Backup_after_Peek_leaves_the_input :
  (Peek ;; Backup) fresh_a1 =
  Ok (tt, mkLexer (str "t") (str "a1") None 0 (-1) 0 1 []) /\
  (Peek ;; Backup ;; Next) fresh_a1 = Panic.
Proof. split; reflexivity. Qed.

(** ** [Token.String] *)

(** The loop of [truncateString] from the offset [len pre] on: it keeps
    [pre] and the first [k] code points of what follows. *)
Lemma truncate_loop_spec (k : nat) (pre s : gostring) :
  exists q,
    fmt.truncate_loop (Z.of_nat k) (utf8.range_from (length s) (len pre) s)
      (pre ++ s) = pre ++ q /\
    code_point_prefix q s /\
    utf8.runes q = take k (utf8.runes s).
Proof.
  revert pre s. induction k as [|k IH]; intros pre s.
  - exists []. destruct s as [|b s].
    + cbn. rewrite app_nil_r. repeat split; try reflexivity.
      apply code_point_prefix_nil.
    + rewrite range_from_cons by congruence. cbn [fmt.truncate_loop].
      change (Z.of_nat 0 - 1 <? 0) with true. cbv iota.
      rewrite take_app_length' by (unfold len; lia).
      rewrite app_nil_r. repeat split; try reflexivity.
      apply code_point_prefix_nil.
  - destruct s as [|b s].
    + exists []. cbn. repeat split; try reflexivity.
      apply code_point_prefix_nil.
    + set (s0 := b :: s). assert (Hne : s0 <> []) by (unfold s0; congruence).
      rewrite range_from_cons by assumption. cbn [fmt.truncate_loop].
      destruct (Z.ltb_spec (Z.of_nat (S k) - 1) 0) as [H|_]; [lia|].
      replace (Z.of_nat (S k) - 1) with (Z.of_nat k) by lia.
      pose proof (decode_width s0 Hne) as [W1 W2].
      set (w := snd (utf8.DecodeRuneInString s0)) in *.
      assert (Hlt : length (take (Z.to_nat w) s0) = Z.to_nat w)
        by (rewrite length_take; unfold len in W2; lia).
      destruct (IH (pre ++ take (Z.to_nat w) s0) (drop (Z.to_nat w) s0))
        as (q & Hq & Hcpp & Hr).
      rewrite <- app_assoc, take_drop in Hq.
      replace (len (pre ++ take (Z.to_nat w) s0)) with (len pre + w) in Hq
        by (rewrite len_app; unfold len at 3; rewrite Hlt; lia).
      exists (take (Z.to_nat w) s0 ++ q).
      destruct (code_point_prefix_cons s0 q Hne Hcpp) as [Hc Hrq].
      fold w in Hc, Hrq.
      split; [rewrite Hq, app_assoc; reflexivity|].
      split; [exact Hc|].
      rewrite Hrq, (runes_cons s0 Hne). fold w. cbn [take]. rewrite Hr.
      reflexivity.
Qed.

(** [truncateString prec s] is the prefix of [s] made of its first
    [prec] code points, all of [s] if it has no more. *)
Lemma truncateString_spec (prec : Z) (s : gostring) :
  0 <= prec ->
  code_point_prefix (fmt.truncateString prec s) s /\
  utf8.runes (fmt.truncateString prec s) =
  take (Z.to_nat prec) (utf8.runes s).
Proof.
  intros H. unfold fmt.truncateString, utf8.range.
  destruct (truncate_loop_spec (Z.to_nat prec) [] s) as (q & Hq & Hc & Hr).
  rewrite Z2Nat.id in Hq by assumption.
  cbn [app] in Hq. change (len []) with 0 in Hq. rewrite Hq.
  split; assumption.
Qed.

(** On a string of one-byte characters that is cutting after [prec]
    bytes. *)
Example truncate_ten_of_eleven :
  fmt.truncateString 10 (str "0123456789A") = str "0123456789".
Proof. reflexivity. Qed.

(** C10: [String] of a token is ["EOF"] for the end-of-input type [-1];
    the text as it is for the error type [-2]; and for every other type
    the quoted text, where a text of more than ten bytes is first cut
    down to its first ten code points and the quoted form is followed
    by three dots. *)
Theorem Token_String_cases (Quote : gostring -> gostring) (t : Token.t) :
  Token.String Quote t =
  (if Token.Typ t =? -1 then str "EOF"
   else if Token.Typ t =? -2 then Token.Val t
   else if 10 <? len (Token.Val t)
        then Quote (fmt.truncateString 10 (Token.Val t)) ++ str "..."
        else Quote (Token.Val t)) /\
  code_point_prefix (fmt.truncateString 10 (Token.Val t)) (Token.Val t) /\
  utf8.runes (fmt.truncateString 10 (Token.Val t)) =
  take 10 (utf8.runes (Token.Val t)).
Proof.
  split; [reflexivity|].
  apply (truncateString_spec 10 (Token.Val t)). lia.
Qed.

(** ** The drivers *)

Section DriverFacts.

Context {StateFn : Type}.
Variable call : StateFn -> M StateFn (option StateFn).
Implicit Types l : Lexer StateFn.

Lemma NextToken_buffered (fuel : nat) l token rest :
  tokens l = token :: rest ->
  NextToken call fuel l =
  Ok (token, set_lastPos (Token.Pos token) (set_tokens rest l)).
Proof.
  intros H. destruct fuel; cbn [NextToken]; munfold; rewrite H; reflexivity.
Qed.

Lemma NextToken_nil_state (fuel : nat) l :
  tokens l = [] -> state l = None ->
  NextToken call (S fuel) l = Panic.
Proof.
  intros H1 H2. cbn [NextToken]. munfold. rewrite H1, H2. reflexivity.
Qed.

Lemma NextToken_default (fuel : nat) l f :
  tokens l = [] -> state l = Some f ->
  NextToken call (S fuel) l =
  (next <- call f ;; modify (set_state next) ;; NextToken call fuel) l.
Proof.
  intros H1 H2. cbn [NextToken]. unfold bind at 1, get.
  rewrite H1, H2. reflexivity.
Qed.

Lemma NextToken_out_of_fuel l :
  tokens l = [] -> NextToken call 0 l = OutOfFuel.
Proof. intros H. cbn [NextToken]. munfold. rewrite H. reflexivity. Qed.

(** A call of [NextToken] that returns or panics is a run of the
    caller's thread in the transition system, whatever the control
    point [b] of the goroutine. *)
Lemma NextToken_is_a_schedule (fuel : nat) l b out :
  match NextToken call fuel l with
  | Ok (token, l') =>
      rtc (step call) (Cfg l b CSelect out) (Cfg l' b CIdle (out ++ [token]))
  | Panic => rtc (step call) (Cfg l b CSelect out) (Crash out)
  | _ => True
  end.
Proof.
  revert l. induction fuel as [|fuel IH]; intros l.
  - destruct (tokens l) as [|token rest] eqn:Ht.
    + rewrite NextToken_out_of_fuel by assumption. exact I.
    + rewrite (NextToken_buffered _ _ _ _ Ht).
      apply rtc_once. apply c_receive. assumption.
  - destruct (tokens l) as [|token rest] eqn:Ht.
    + destruct (state l) as [f|] eqn:Hs.
      * rewrite (NextToken_default _ _ _ Ht Hs). unfold bind at 1.
        destruct (call f l) as [[next l1]| | |] eqn:Hc; try exact I.
        -- unfold bind, modify.
           specialize (IH (set_state next l1)).
           destruct (NextToken call fuel (set_state next l1))
             as [[token l']| | |]; try exact I.
           ++ eapply rtc_l; [apply c_enter; eassumption|].
              eapply rtc_l; [apply c_return; eassumption|]. exact IH.
           ++ eapply rtc_l; [apply c_enter; eassumption|].
              eapply rtc_l; [apply c_return; eassumption|]. exact IH.
        -- eapply rtc_l; [apply c_enter; eassumption|].
           apply rtc_once. apply c_panic. assumption.
      * rewrite NextToken_nil_state by assumption.
        apply rtc_once. apply c_nil; assumption.
    + rewrite (NextToken_buffered _ _ _ _ Ht).
      apply rtc_once. apply c_receive. assumption.
Qed.

End DriverFacts.

(** ** The drivers: the end of a scan *)

Section DriverClaims.

Context {StateFn : Type}.
Variable call : StateFn -> M StateFn (option StateFn).
Implicit Types l : Lexer StateFn.

(** When a state function returns nil, [run] returns without calling
    another one. *)
Lemma run_stops_on_nil (fuel : nat) l l' f :
  call f l = Ok (None, l') ->
  run_loop call (S fuel) (Some f) l = Ok (tt, l').
Proof.
  intros H. cbn [run_loop]. unfold bind. rewrite H.
  destruct fuel; reflexivity.
Qed.

(** C2, as amended: a call of [NextToken], after a terminal token as
    at any other time, returns the first token of the buffer when
    there is one, without calling a state function; with the buffer
    empty it calls [l.state]: a run-time panic when [l.state] is nil
    (as it is once a state function run by [NextToken] has returned
    nil), and one more call of that state function otherwise. *)
Theorem NextToken_after_terminal l :
  (forall fuel token rest,
      tokens l = token :: rest ->
      NextToken call fuel l =
      Ok (token, set_lastPos (Token.Pos token) (set_tokens rest l))) /\
  (forall fuel,
      tokens l = [] -> state l = None ->
      NextToken call (S fuel) l = Panic) /\
  (forall fuel f,
      tokens l = [] -> state l = Some f ->
      NextToken call (S fuel) l =
      (next <- call f ;; modify (set_state next) ;; NextToken call fuel) l).
Proof.
  split; [|split].
  - intros fuel token rest H. apply NextToken_buffered. assumption.
  - intros fuel H1 H2. apply NextToken_nil_state; assumption.
  - intros fuel f H1 H2. apply NextToken_default; assumption.
Qed.

(** C3, on the code: for every grammar and every input, once
    [NewLexer] has returned with a start state that is not nil, the
    program reaches a configuration in which [run] (in its goroutine)
    and [NextToken] (in the caller) are both inside a state function
    on the same [Lexer]: the goroutine has read [l.state] and called
    it, and the caller, finding no token in the channel, has called
    [l.state] too. *)
Theorem drivers_overlap (name input : gostring) (f : StateFn) :
  exists c, reachable call name input (Some f) c /\ overlap c.
Proof.
  exists (Cfg (NewLexer name input (Some f)) (BgCall f) (CCall f) []).
  split; [|exact I].
  unfold reachable, initial.
  eapply rtc_l; [apply bg_init|]. cbn [state NewLexer].
  eapply rtc_l; [apply bg_enter|].
  eapply rtc_l; [apply c_call|].
  apply rtc_once. apply c_enter; reflexivity.
Qed.

End DriverClaims.

Section ErrorfFacts.

Context {StateFn Arg : Type}.
Variable Sprintf : gostring -> list Arg -> gostring.
Implicit Types l : Lexer StateFn.

(** [Errorf] sends one token of type [TokenError] with the formatted
    message as text and [Start] as position, and returns nil; with the
    buffer full the send waits. *)
Lemma Errorf_eq (format : gostring) (args : list Arg) l :
  Errorf Sprintf format args l =
  if (tokens_cap <=? length (tokens l))%nat then Blocked
  else Ok (None,
           set_tokens
             (tokens l ++ [Token.mk (-2) (Sprintf format args) (Start l)]) l).
Proof.
  unfold Errorf, send. munfold.
  destruct (tokens_cap <=? length (tokens l))%nat; reflexivity.
Qed.

End ErrorfFacts.

Lemma NextToken_after_terminal_witness :
  tokens Stop.ended = [] /\ state Stop.ended = None /\
  NextToken Stop.body 1 Stop.ended = Panic.
Proof.
  assert (H1 : tokens Stop.ended = []) by reflexivity.
  assert (H2 : state Stop.ended = None) by reflexivity.
  split; [exact H1|]. split; [exact H2|].
  exact (proj1 (proj2 (NextToken_after_terminal Stop.body Stop.ended)) 0%nat H1 H2).
Defined.

(** C2 as it is stated fails for the grammar that emits the
    end-of-input token and returns nil: the first [NextToken] returns
    that token, and the next one calls the nil [l.state] and panics,
    whatever bound is put on its loop. *)
Lemma NextToken_after_EOF_panics :
  NextToken Stop.body 1 Stop.lexer = Ok (Token.mk TokenEOF [] 0, Stop.ended) /\
  terminal (Token.mk TokenEOF [] 0) /\
  NextToken Stop.body 1 Stop.ended = Panic /\
  (forall fuel,
      ~ exists t l', NextToken Stop.body fuel Stop.ended = Ok (t, l')).
Proof.
  split; [reflexivity|].
  split; [left; reflexivity|].
  split; [reflexivity|].
  intros fuel (t & l' & E). destruct fuel; discriminate E.
Qed.

(** C5, on the code: with the grammar [return l.Errorf("boom")] the
    caller's [NextToken] runs the state function, [Errorf] sends the
    error token and returns nil, [l.state] becomes nil and the token is
    returned to the caller; the goroutine, which had read [l.state]
    before, then calls the state function once more, and a second error
    token is in the channel. *)
Theorem Errorf_does_not_stop_run :
  reachable Fail.body (str "fail") [] (Some Fail.lexFail)
    (Cfg Fail.delivered (BgLoop (Some Fail.lexFail)) CIdle [Fail.boom]) /\
  state Fail.delivered = None /\ tokens Fail.delivered = [] /\
  rtc (step Fail.body)
    (Cfg Fail.delivered (BgLoop (Some Fail.lexFail)) CIdle [Fail.boom])
    (Cfg Fail.second (BgLoop None) CIdle [Fail.boom]) /\
  tokens Fail.second = [Fail.boom].
Proof.
  split; [|split; [|split; [|split]]].
  - unfold reachable, initial.
    set (l0 := NewLexer (str "fail") [] (Some Fail.lexFail)).
    apply (rtc_l _ _ (Cfg l0 (BgLoop (Some Fail.lexFail)) CIdle []));
      [exact (bg_init Fail.body l0 CIdle [])|].
    apply (rtc_l _ _ (Cfg l0 (BgLoop (Some Fail.lexFail)) CSelect []));
      [apply c_call|].
    apply (rtc_l _ _ (Cfg l0 (BgLoop (Some Fail.lexFail)) (CCall Fail.lexFail) []));
      [apply c_enter; reflexivity|].
    apply (rtc_l _ _ (Cfg Fail.second (BgLoop (Some Fail.lexFail)) CSelect []));
      [exact (c_return Fail.body l0 _ [] Fail.lexFail None
                (set_tokens [Fail.boom] l0) eq_refl)|].
    apply rtc_once.
    exact (c_receive Fail.body Fail.second _ [] Fail.boom [] eq_refl).
  - reflexivity.
  - reflexivity.
  - eapply rtc_l; [apply bg_enter|].
    apply rtc_once.
    apply (bg_return Fail.body Fail.delivered Fail.lexFail CIdle [Fail.boom]
             None Fail.second).
    reflexivity.
  - reflexivity.
Qed.

(** ** The token stream *)

Lemma slice_nil (s : gostring) (a : Z) :
  0 <= a <= len s -> slice s a a = Ok [].
Proof.
  intros H. rewrite slice_ok by lia. rewrite Z.sub_diag. reflexivity.
Qed.

Lemma slice_len (s v : gostring) (a b : Z) :
  slice s a b = Ok v -> 0 <= a <= b /\ b <= len s /\ len v = b - a.
Proof.
  unfold slice. intros H.
  destruct (Z.leb_spec 0 a); cbn [andb] in H; [|discriminate].
  destruct (Z.leb_spec a b); cbn [andb] in H; [|discriminate].
  destruct (Z.leb_spec b (len s)); [|discriminate].
  injection H as <-. repeat split; try lia.
  unfold len in *. rewrite length_take, length_drop. lia.
Qed.

Lemma slice_app (s x y : gostring) (a m b : Z) :
  slice s a m = Ok x -> slice s m b = Ok y -> slice s a b = Ok (x ++ y).
Proof.
  intros Hx Hy.
  pose proof (slice_len _ _ _ _ Hx) as (H1 & H2 & H3).
  pose proof (slice_len _ _ _ _ Hy) as (H4 & H5 & H6).
  rewrite slice_ok in Hx, Hy |- * by lia.
  injection Hx as <-. injection Hy as <-. f_equal.
  replace (Z.to_nat (b - a)) with (Z.to_nat (m - a) + Z.to_nat (b - m))%nat
    by lia.
  rewrite <- take_take_drop. f_equal. rewrite drop_drop. do 2 f_equal. lia.
Qed.

Lemma pieces_app (input : gostring) (a b c : Z) (xs ys : list Token.t) :
  pieces input a xs b -> pieces input b ys c -> pieces input a (xs ++ ys) c.
Proof.
  revert a. induction xs as [|t xs IH]; intros a Hx Hy.
  - destruct Hx as [-> _]. exact Hy.
  - destruct Hx as (Hp & Hs & Hrest). cbn [app pieces].
    split; [exact Hp|]. split; [exact Hs|]. apply IH; assumption.
Qed.

(** The texts of consecutive pieces are the input between the two
    offsets. *)
Lemma pieces_texts (input : gostring) (a b : Z) (ts : list Token.t) :
  pieces input a ts b ->
  0 <= a <= b /\ b <= len input /\ slice input a b = Ok (texts ts).
Proof.
  revert a. induction ts as [|t ts IH]; intros a H.
  - destruct H as [<- H]. repeat split; try lia. apply slice_nil. lia.
  - destruct H as (Hp & Hs & Hrest).
    destruct (IH _ Hrest) as (H1 & H2 & H3).
    pose proof (slice_len _ _ _ _ Hs) as (H4 & H5 & H6).
    repeat split; try lia.
    change (texts (t :: ts)) with (Token.Val t ++ texts ts).
    eapply slice_app; eassumption.
Qed.

(** Every token is at the offset that the texts before it add up to. *)
Lemma pieces_positions (input : gostring) (a b : Z) (ts : list Token.t) :
  pieces input a ts b ->
  forall i t, ts !! i = Some t -> Token.Pos t = a + len (texts (take i ts)).
Proof.
  revert a. induction ts as [|t0 ts IH]; intros a H i t Hi.
  - discriminate Hi.
  - destruct H as (Hp & Hs & Hrest). destruct i as [|i].
    + injection Hi as <-. cbn. change (len []) with 0. lia.
    + cbn [lookup list_lookup] in Hi. cbn [take].
      change (texts (t0 :: take i ts)) with (Token.Val t0 ++ texts (take i ts)).
      rewrite len_app, (IH _ Hrest i t Hi). lia.
Qed.

Lemma pieces_split (input : gostring) (a c : Z) (xs ys : list Token.t) :
  pieces input a (xs ++ ys) c ->
  pieces input a xs (a + len (texts xs)) /\
  pieces input (a + len (texts xs)) ys c.
Proof.
  revert a. induction xs as [|t xs IH]; intros a H.
  - cbn [app] in H. change (len (texts [])) with 0. rewrite Z.add_0_r.
    split; [|exact H].
    destruct (pieces_texts _ _ _ _ H) as (H1 & H2 & _). cbn. lia.
  - destruct H as (Hp & Hs & Hrest).
    destruct (IH _ Hrest) as [Hx Hy].
    change (texts (t :: xs)) with (Token.Val t ++ texts xs).
    rewrite len_app, Z.add_assoc.
    split; [|exact Hy]. cbn [pieces]. auto.
Qed.

Section StreamFacts.

Context {StateFn : Type}.
Implicit Types l : Lexer StateFn.

Lemma frame_refl l : frame l l.
Proof. repeat split. Qed.

Lemma frame_trans l1 l2 l3 : frame l1 l2 -> frame l2 l3 -> frame l1 l3.
Proof.
  unfold frame. intros (A1 & A2 & A3 & A4) (B1 & B2 & B3 & B4).
  repeat split; congruence.
Qed.

Lemma Next_frame l r l' : Next l = Ok (r, l') -> frame l l'.
Proof.
  unfold Next. munfold.
  destruct (len (input l) <=? Pos l).
  - intros H. injection H as _ <-. repeat split.
  - destruct (slice_from (input l) (Pos l)); try discriminate.
    destruct (utf8.DecodeRuneInString a) as [r0 w].
    intros H. injection H as _ <-. repeat split.
Qed.

Lemma Backup_frame l u l' : Backup l = Ok (u, l') -> frame l l'.
Proof. rewrite Backup_eq. intros H. injection H as _ <-. repeat split. Qed.

Lemma Peek_frame l r l' : Peek l = Ok (r, l') -> frame l l'.
Proof.
  unfold Peek, bind. destruct (Next l) as [[r0 l1]| | |] eqn:E; try discriminate.
  rewrite Backup_eq. unfold ret. intros H. injection H as _ <-.
  eapply frame_trans; [eapply Next_frame; eassumption|]. repeat split.
Qed.

Lemma Accept_frame valid l b l' : Accept valid l = Ok (b, l') -> frame l l'.
Proof.
  unfold Accept, bind. destruct (Next l) as [[r0 l1]| | |] eqn:E; try discriminate.
  destruct (0 <=? strings.IndexRune valid r0).
  - unfold ret. intros H. injection H as _ <-.
    eapply Next_frame; eassumption.
  - rewrite Backup_eq. unfold ret. intros H. injection H as _ <-.
    eapply frame_trans; [eapply Next_frame; eassumption|]. repeat split.
Qed.

Lemma AcceptRun_loop_frame valid fuel l u l' :
  AcceptRun_loop fuel valid l = Ok (u, l') -> frame l l'.
Proof.
  revert l. induction fuel as [|fuel IH]; intros l; [discriminate|].
  cbn [AcceptRun_loop]. unfold bind.
  destruct (Next l) as [[r0 l1]| | |] eqn:E; try discriminate.
  destruct (0 <=? strings.IndexRune valid r0).
  - intros H. eapply frame_trans; [eapply Next_frame; eassumption|].
    apply IH. exact H.
  - unfold ret. intros H. injection H as _ <-.
    eapply Next_frame; eassumption.
Qed.

Lemma AcceptRun_frame valid l u l' :
  AcceptRun valid l = Ok (u, l') -> frame l l'.
Proof.
  unfold AcceptRun, AcceptRun_fuel, bind at 1, get. unfold bind.
  destruct (AcceptRun_loop _ valid l) as [[u0 l1]| | |] eqn:E; try discriminate.
  rewrite Backup_eq. intros H. injection H as _ <-.
  eapply frame_trans; [eapply AcceptRun_loop_frame; eassumption|].
  repeat split.
Qed.

Lemma LineNumber_frame l n l' : LineNumber l = Ok (n, l') -> frame l l'.
Proof.
  unfold LineNumber. munfold.
  destruct (slice_to (input l) (lastPos l)); try discriminate.
  intros H. injection H as _ <-. repeat split.
Qed.

Lemma frame_appends l l' :
  0 <= Start l <= len (input l) -> frame l l' -> appends l l'.
Proof.
  intros H (F1 & F2 & F3 & F4). exists [].
  rewrite app_nil_r, F2. cbn [pieces]. auto.
Qed.

Lemma appends_Start l l' :
  appends l l' -> 0 <= Start l' <= len (input l').
Proof.
  intros (new & _ & Hp & Hi & _). rewrite Hi.
  destruct (pieces_texts _ _ _ _ Hp). lia.
Qed.

Lemma appends_trans l1 l2 l3 : appends l1 l2 -> appends l2 l3 -> appends l1 l3.
Proof.
  intros (n1 & A1 & A2 & A3 & A4) (n2 & B1 & B2 & B3 & B4).
  exists (n1 ++ n2). rewrite B1, A1, app_assoc. split; [reflexivity|].
  split; [|split; congruence].
  rewrite A3 in B2. eapply pieces_app; eassumption.
Qed.

Lemma Emit_appends t l u l' :
  Emit t l = Ok (u, l') -> appends l l'.
Proof.
  unfold Emit, send. munfold.
  destruct (slice (input l) (Start l) (Pos l)) as [v| | |] eqn:Hs;
    try discriminate.
  destruct (tokens_cap <=? length (tokens l))%nat; [discriminate|].
  intros H. injection H as _ <-.
  pose proof (slice_len _ _ _ _ Hs) as (H1 & H2 & H3).
  exists [Token.mk t v (Start l)].
  cbn [tokens Start input state set_Start set_tokens pieces Token.Pos Token.Val].
  repeat split; try lia.
  replace (Start l + len v) with (Pos l) by lia. exact Hs.
Qed.

(** A program of a scanning grammar appends consecutive pieces. *)
Lemma scanning_appends {A} (m : M StateFn A) :
  scanning m ->
  forall l a l',
    0 <= Start l <= len (input l) -> m l = Ok (a, l') -> appends l l'.
Proof.
  induction 1 as [A a0 | A B m k Hm IHm Hk IHk | | | | | valid | valid | t | ];
    intros l a l' HS E.
  - injection E as _ <-. apply frame_appends; [assumption | apply frame_refl].
  - unfold bind in E. destruct (m l) as [[a1 l1]| | |] eqn:E1; try discriminate.
    pose proof (IHm _ _ _ HS E1) as H1.
    eapply appends_trans; [exact H1|].
    eapply IHk; [|exact E].
    exact (appends_Start _ _ H1).
  - injection E as _ <-. apply frame_appends; [assumption | apply frame_refl].
  - apply frame_appends; [assumption | eapply Next_frame; eassumption].
  - apply frame_appends; [assumption | eapply Backup_frame; eassumption].
  - apply frame_appends; [assumption | eapply Peek_frame; eassumption].
  - apply frame_appends; [assumption | eapply Accept_frame; eassumption].
  - apply frame_appends; [assumption | eapply AcceptRun_frame; eassumption].
  - eapply Emit_appends; eassumption.
  - apply frame_appends; [assumption | eapply LineNumber_frame; eassumption].
Qed.

Variable call : StateFn -> M StateFn (option StateFn).
Hypothesis call_scanning : forall f, scanning (call f).

Lemma stream_inv_Start out l :
  stream_inv out l -> 0 <= Start l <= len (input l).
Proof. intros H. destruct (pieces_texts _ _ _ _ H). lia. Qed.

(** [NextToken] moves one token from the stream to the caller. *)
Lemma NextToken_stream (fuel : nat) out l t l' :
  stream_inv out l ->
  NextToken call fuel l = Ok (t, l') ->
  stream_inv (out ++ [t]) l' /\ input l' = input l.
Proof.
  revert l. induction fuel as [|fuel IH]; intros l Hinv E.
  - destruct (tokens l) as [|token rest] eqn:Ht.
    + rewrite NextToken_out_of_fuel in E by assumption. discriminate.
    + rewrite (NextToken_buffered _ _ _ _ _ Ht) in E. injection E as <- <-.
      unfold stream_inv in *. rewrite Ht in Hinv.
      cbn [tokens Start input set_lastPos set_tokens].
      rewrite <- app_assoc. auto.
  - destruct (tokens l) as [|token rest] eqn:Ht.
    + destruct (state l) as [f|] eqn:Hs.
      * rewrite (NextToken_default _ _ _ _ Ht Hs) in E. unfold bind at 1 in E.
        destruct (call f l) as [[next l1]| | |] eqn:Hc; try discriminate.
        unfold bind, modify in E.
        pose proof (scanning_appends _ (call_scanning f) _ _ _
                      (stream_inv_Start _ _ Hinv) Hc)
          as (new & A1 & A2 & A3 & A4).
        destruct (IH (set_state next l1)) with (2 := E) as [I1 I2].
        { unfold stream_inv in *.
          cbn [tokens Start input set_state]. rewrite A1, Ht, A3.
          rewrite Ht, app_nil_r in Hinv. cbn [app].
          eapply pieces_app; eassumption. }
        split; [exact I1|]. cbn [input set_state] in I2. congruence.
      * rewrite NextToken_nil_state in E by assumption. discriminate.
    + rewrite (NextToken_buffered _ _ _ _ _ Ht) in E. injection E as <- <-.
      unfold stream_inv in *. rewrite Ht in Hinv.
      cbn [tokens Start input set_lastPos set_tokens].
      rewrite <- app_assoc. auto.
Qed.

Lemma consume_stream (fuel n : nat) out l ts l' :
  stream_inv out l ->
  consume call fuel n l = Ok (ts, l') ->
  stream_inv (out ++ ts) l' /\ input l' = input l.
Proof.
  revert out l ts. induction n as [|n IH]; intros out l ts Hinv E.
  - injection E as <- <-. rewrite app_nil_r. auto.
  - cbn [consume] in E. unfold bind in E.
    destruct (NextToken call fuel l) as [[t l1]| | |] eqn:E1; try discriminate.
    destruct (consume call fuel n l1) as [[ts1 l2]| | |] eqn:E2; try discriminate.
    injection E as <- <-.
    destruct (NextToken_stream _ _ _ _ _ Hinv E1) as [I1 I2].
    destruct (IH _ _ _ I1 E2) as [J1 J2].
    rewrite <- app_assoc in J1. split; [exact J1 | congruence].
Qed.

End StreamFacts.

Lemma pieces_lookup (input : gostring) (a b : Z) (ts : list Token.t) :
  pieces input a ts b ->
  forall i t,
    ts !! i = Some t ->
    slice input (Token.Pos t) (Token.Pos t + len (Token.Val t)) = Ok (Token.Val t).
Proof.
  revert a. induction ts as [|t0 ts IH]; intros a H i t Hi.
  - discriminate Hi.
  - destruct H as (Hp & Hs & Hrest). destruct i as [|i].
    + injection Hi as <-. rewrite Hp. exact Hs.
    + exact (IH _ Hrest i t Hi).
Qed.

Lemma slice_all (s : gostring) : slice s 0 (len s) = Ok s.
Proof.
  pose proof (len_nonneg s). rewrite slice_ok by lia.
  rewrite Z.sub_0_r. cbn [Z.to_nat drop]. f_equal.
  apply take_ge. unfold len. lia.
Qed.

Ltac scanning_tac :=
  repeat first
    [ apply sc_ret | apply sc_get | apply sc_Next | apply sc_Backup
    | apply sc_Peek | apply sc_Accept | apply sc_AcceptRun | apply sc_Emit
    | apply sc_LineNumber | apply sc_bind | intro
    | match goal with |- scanning (if ?c then _ else _) => destruct c end ].

Lemma Plain_scanning (f : Plain.fn) : scanning (Plain.body f).
Proof. destruct f. unfold Plain.body. scanning_tac. Qed.

(** C1, as amended: for every input and every grammar whose state
    functions call neither [Errorf] nor [Ignore] and leave the fields of
    the lexer to its methods, the tokens that calls of [NextToken]
    return, when [NextToken] alone runs the state functions, are
    consecutive pieces of the input from its beginning: their texts in
    the order of delivery are the input up to the end of the last of
    them, every token has the length of the text before it as [Pos],
    with the tokens still in the buffer they make up the input as far
    as [Start], and so all of it once [Start] is [len(input)] and the
    buffer is empty.  A token delivered after the whole input, as the
    end-of-input token of such a grammar is, has empty text and
    [len(input)] as [Pos]. *)
Theorem tokens_are_consecutive_pieces {StateFn : Type}
  (call : StateFn -> M StateFn (option StateFn))
  (nm inp : gostring) (start : option StateFn)
  (fuel n : nat) (ts : list Token.t) (l' : Lexer StateFn) :
  (forall f, scanning (call f)) ->
  consume call fuel n (NewLexer nm inp start) = Ok (ts, l') ->
  slice inp 0 (len (texts ts)) = Ok (texts ts) /\
  (forall i t, ts !! i = Some t -> Token.Pos t = len (texts (take i ts))) /\
  slice inp 0 (Start l') = Ok (texts (ts ++ tokens l')) /\
  (Start l' = len inp -> tokens l' = [] -> texts ts = inp) /\
  (forall i t,
      ts !! i = Some t -> texts (take i ts) = inp ->
      Token.Val t = [] /\ Token.Pos t = len inp).
Proof.
  intros Hsc E.
  assert (H0 : stream_inv [] (NewLexer nm inp start)).
  { unfold stream_inv. cbn. pose proof (len_nonneg inp). lia. }
  destruct (consume_stream call Hsc _ _ _ _ _ _ H0 E) as [Hinv Hin].
  unfold stream_inv in Hinv. cbn [app] in Hinv. rewrite Hin in Hinv.
  cbn [input NewLexer] in Hinv.
  destruct (pieces_split _ _ _ _ _ Hinv) as [Hts _].
  rewrite Z.add_0_l in Hts.
  destruct (pieces_texts _ _ _ _ Hts) as (_ & _ & S1).
  destruct (pieces_texts _ _ _ _ Hinv) as (_ & _ & S2).
  assert (Hpos : forall i t, ts !! i = Some t ->
                             Token.Pos t = len (texts (take i ts))).
  { intros i t Hi. rewrite (pieces_positions _ _ _ _ Hts i t Hi). lia. }
  repeat apply conj.
  - exact S1.
  - exact Hpos.
  - exact S2.
  - intros HS Hb. rewrite HS, Hb, app_nil_r, slice_all in S2. congruence.
  - intros i t Hi Hall.
    pose proof (pieces_lookup _ _ _ _ Hts i t Hi) as Hs.
    pose proof (slice_len _ _ _ _ Hs) as (H1 & H2 & H3).
    pose proof (Hpos i t Hi) as Hp. rewrite Hall in Hp.
    pose proof (len_nonneg (Token.Val t)).
    split; [|exact Hp].
    apply len_nil_iff. lia.
Qed.

(** The grammar without blanks on ["12+3"]. *)
Lemma tokens_are_consecutive_pieces_witness :
  (forall f, scanning (Plain.body f)) /\
  consume Plain.body 10 4 (NewLexer (str "plain") (str "12+3") (Some Plain.lexStart)) =
  Ok ([Token.mk 1 (str "12") 0; Token.mk 2 (str "+") 2;
       Token.mk 1 (str "3") 3; Token.mk TokenEOF [] 4],
      mkLexer (str "plain") (str "12+3") None 4 4 4 0 []) /\
  texts [Token.mk 1 (str "12") 0; Token.mk 2 (str "+") 2;
         Token.mk 1 (str "3") 3; Token.mk TokenEOF [] 4] = str "12+3".
Proof.
  assert (E : consume Plain.body 10 4
                (NewLexer (str "plain") (str "12+3") (Some Plain.lexStart)) =
              Ok ([Token.mk 1 (str "12") 0; Token.mk 2 (str "+") 2;
                   Token.mk 1 (str "3") 3; Token.mk TokenEOF [] 4],
                  mkLexer (str "plain") (str "12+3") None 4 4 4 0 []))
    by (vm_compute; reflexivity).
  split; [exact Plain_scanning|]. split; [exact E|].
  destruct (tokens_are_consecutive_pieces Plain.body _ _ _ _ _ _ _
              Plain_scanning E) as (_ & _ & _ & H & _).
  apply H; reflexivity.
Defined.

(** C1 as it is stated fails on the scenario of the specification: the
    grammar never calls [Errorf], the four tokens end with the
    end-of-input token, and their texts make ["1+23"], not the input
    ["1 + 23"], because [Ignore] has dropped the blanks. *)
Lemma Ignore_drops_text :
  consume Arith.body 10 4 (Arith.lexer (str "1 + 23")) =
  Ok ([Token.mk 1 (str "1") 0; Token.mk 2 (str "+") 2;
       Token.mk 1 (str "23") 4; Token.mk TokenEOF [] 6],
      mkLexer (str "arith") (str "1 + 23") None 6 6 6 0 []) /\
  texts [Token.mk 1 (str "1") 0; Token.mk 2 (str "+") 2;
         Token.mk 1 (str "23") 4; Token.mk TokenEOF [] 6] = str "1+23" /\
  ~ whole_input (str "1 + 23")
      [Token.mk 1 (str "1") 0; Token.mk 2 (str "+") 2;
       Token.mk 1 (str "23") 4; Token.mk TokenEOF [] 6].
Proof.
  split; [vm_compute; reflexivity|].
  split; [reflexivity|].
  intros [H _]. vm_compute in H. discriminate H.
Qed.

(** ** The order of the offsets and the step of backtracking *)

Lemma decode_width_bounds (s : gostring) :
  0 <= snd (utf8.DecodeRuneInString s) <= 4.
Proof.
  destruct s as [|b s]; [rewrite decode_empty; cbn [snd]; lia|].
  pose proof (decode_width (b :: s) ltac:(discriminate)). lia.
Qed.

Section Backtracking.

Context {StateFn : Type}.
Implicit Types l : Lexer StateFn.

(** The loop of [AcceptRun] ends one code point past the offset it
    began at, or further. *)
Lemma AcceptRun_loop_progress (valid : gostring) (fuel : nat) l u l1 :
  0 <= Pos l -> len (input l) <= max_int ->
  AcceptRun_loop fuel valid l = Ok (u, l1) ->
  Pos l1 - Width l1 = Pos l \/
  Pos l + snd (utf8.DecodeRuneInString (rest l)) <= Pos l1 - Width l1.
Proof.
  revert l. induction fuel as [|fuel IH]; intros l Hpos Hmax; [discriminate|].
  cbn [AcceptRun_loop]. unfold bind at 1.
  destruct (Z.le_gt_cases (len (input l)) (Pos l)) as [Hend|Hin].
  - rewrite Next_at_end by assumption.
    fold (in_set valid EOF). rewrite in_set_EOF. unfold ret.
    intros E. injection E as _ <-. left. cbn [Pos Width set_Width]. lia.
  - assert (Hne : rest l <> []) by (apply rest_nonempty; lia).
    pose proof (decode_width _ Hne) as [W1 W2].
    rewrite Next_decode by (assumption || lia).
    set (w := snd (utf8.DecodeRuneInString (rest l))) in *.
    destruct (0 <=? strings.IndexRune valid _).
    + intros E. apply IH in E; [|cbn [Pos set_Pos set_Width]; lia|exact Hmax].
      cbn [Pos set_Pos set_Width] in E.
      pose proof (decode_width_bounds (rest (set_Pos (Pos l + w) (set_Width w l)))).
      right. lia.
    + unfold ret. intros E. injection E as _ <-. left.
      cbn [Pos Width set_Pos set_Width]. lia.
Qed.

(** [AcceptRun] leaves [Pos] where it was or at least one code point
    further. *)
Lemma AcceptRun_advance (valid : gostring) l :
  typed l -> 0 <= Pos l ->
  exists run t,
    rest l = run ++ t /\
    AcceptRun valid l =
    Ok (tt, set_Pos (Pos l + len run)
                    (set_Width (snd (utf8.DecodeRuneInString t)) l)) /\
    (run = [] \/ snd (utf8.DecodeRuneInString (rest l)) <= len run).
Proof.
  intros Ht Hpos. pose proof Ht as (HS & HP & HW & HL & Hmax).
  destruct (AcceptRun_loop_total valid (S (length (input l))) l Hpos Hmax)
    as (run & t & Hrun & Hloop).
  { unfold rest. rewrite length_drop. lia. }
  pose proof (AcceptRun_loop_progress _ _ _ _ _ Hpos Hmax Hloop) as Hprog.
  cbn [Pos Width set_Pos set_Width] in Hprog.
  destruct Hrun as (Hs & _).
  pose proof (len_nonneg run). pose proof (len_nonneg t).
  assert (Hint : is_int (Pos l + len run)).
  { destruct (Z.le_gt_cases (len (input l)) (Pos l)) as [Hend|Hin].
    - rewrite rest_empty in Hs by assumption.
      symmetry in Hs. apply app_eq_nil in Hs as [-> _].
      change (len []) with 0. rewrite Z.add_0_r. exact HP.
    - apply (f_equal len) in Hs. rewrite len_rest, len_app in Hs by lia.
      unfold is_int, min_int, max_int, int_bits in *. lia. }
  exists run, t. split; [exact Hs|]. split.
  - unfold AcceptRun, AcceptRun_fuel, bind at 1, get.
    unfold bind. rewrite Hloop. rewrite Backup_eq.
    cbn [Pos Width set_Pos set_Width].
    replace (Pos l + len run + _ - _) with (Pos l + len run) by lia.
    rewrite wrap_id by exact Hint.
    destruct l; reflexivity.
  - destruct Hprog as [Heq | Hle]; [left | right; lia].
    apply len_nil_iff. lia.
Qed.

(** In a state reached under the contract of [Backup], [Pos] and
    [Start] are offsets of the input; [Start] is at most one code
    point, the one at [Pos], beyond [Pos]; and while a [Backup] is
    permitted [Start] is not beyond [Pos] at all and [Width] is the
    width of the code point that ends at [Pos]. *)
Lemma reached_order (may : bool) l :
  reached may l ->
  typed l /\
  0 <= Pos l <= len (input l) /\
  0 <= Start l <= len (input l) /\
  0 <= Width l <= 4 /\
  Start l <= Pos l + snd (utf8.DecodeRuneInString (rest l)) /\
  (may = true ->
   Start l <= Pos l /\ Width l <= Pos l /\
   snd (utf8.DecodeRuneInString
          (drop (Z.to_nat (Pos l - Width l)) (input l))) = Width l).
Proof.
  assert (Hints : forall z, 0 <= z <= max_int -> is_int z).
  { intros z Hz. unfold is_int, min_int, max_int, int_bits in *. lia. }
  assert (H4 : 4 <= max_int) by (vm_compute; discriminate).
  induction 1 as
    [ nm inp start Hmax
    | may l r l' _ IH E
    | l l' _ IH E
    | may l r l' _ IH E
    | may l valid b l' _ IH E
    | may l valid l' _ IH E
    | may l l' _ IH E
    | may l t l' _ IH E ];
    [ pose proof (len_nonneg inp) | .. ];
    try (destruct IH as (Ht & HP & HS & HW & Hnear & Hmay);
         pose proof Ht as (T1 & T2 & T3 & T4 & T5);
         pose proof (len_nonneg (input l));
         pose proof (decode_width_bounds (rest l)) as Hwb).
  all: try (assert (Hdec : Pos l < len (input l) ->
                     1 <= snd (utf8.DecodeRuneInString (rest l)) <= 4 /\
                     Pos l + snd (utf8.DecodeRuneInString (rest l))
                     <= len (input l));
            [ intros Hin;
              pose proof (decode_width _ (rest_nonempty l ltac:(lia))) as [W1 W2];
              rewrite len_rest in W2 by lia; lia |]).
  - (* NewLexer *)
    pose proof (decode_width_bounds (rest (NewLexer nm inp start))).
    unfold typed. cbn [NewLexer Start Pos Width lastPos input] in *.
    conjs; try (apply Hints); try lia; try discriminate.
  - (* Next *)
    destruct (Z.le_gt_cases (len (input l)) (Pos l)) as [Hend|Hin].
    + rewrite Next_at_end in E by assumption. injection E as _ <-.
      assert (Hr : rest (set_Width 0 l) = []) by (apply rest_empty; exact Hend).
      rewrite (rest_empty l Hend), decode_empty in Hnear. cbn [snd] in Hnear.
      rewrite Hr, decode_empty.
      unfold typed. cbn [Start Pos Width lastPos input set_Width snd].
      conjs; try assumption; try (apply Hints); try lia.
      intros _. conjs; try lia.
      rewrite Z.sub_0_r. fold (rest l).
      rewrite (rest_empty l Hend), decode_empty. reflexivity.
    + rewrite Next_decode in E by (assumption || lia). injection E as _ <-.
      apply Hdec in Hin.
      set (w := snd (utf8.DecodeRuneInString (rest l))) in *.
      pose proof (decode_width_bounds
                    (rest (set_Pos (Pos l + w) (set_Width w l)))) as Hwb'.
      unfold typed. cbn [Start Pos Width lastPos input set_Pos set_Width] in *.
      conjs; try assumption; try (apply Hints); try lia.
      intros _. conjs; try lia.
      replace (Pos l + w - w) with (Pos l) by lia. reflexivity.
  - (* Backup *)
    destruct (Hmay eq_refl) as (M1 & M2 & M3).
    rewrite Backup_eq in E. injection E as <-.
    rewrite wrap_id by (apply Hints; lia).
    unfold typed, rest. cbn [Start Pos Width lastPos input set_Pos].
    rewrite M3.
    conjs; try assumption; try (apply Hints);
      first [lia | discriminate].
  - (* Peek *)
    destruct (Z.le_gt_cases (len (input l)) (Pos l)) as [Hend|Hin].
    + rewrite Peek_at_end in E by assumption. injection E as _ <-.
      unfold typed, rest in *. cbn [Start Pos Width lastPos input set_Width].
      conjs; try assumption; try (apply Hints);
        first [lia | discriminate].
    + rewrite Peek_decode in E by (assumption || lia). injection E as _ <-.
      apply Hdec in Hin.
      unfold typed, rest in *. cbn [Start Pos Width lastPos input set_Width].
      conjs; try assumption; try (apply Hints);
        first [lia | discriminate].
  - (* Accept *)
    destruct (Z.le_gt_cases (len (input l)) (Pos l)) as [Hend|Hin].
    + rewrite Accept_at_end in E by assumption. injection E as <- <-.
      unfold typed, rest in *. cbn [Start Pos Width lastPos input set_Width].
      conjs; try assumption; try (apply Hints);
        first [lia | discriminate].
    + rewrite Accept_decode in E by (assumption || lia).
      apply Hdec in Hin.
      set (w := snd (utf8.DecodeRuneInString (rest l))) in *.
      pose proof (decode_width_bounds
                    (rest (set_Pos (Pos l + w) (set_Width w l)))) as Hwb'.
      destruct (in_set valid _); injection E as <- <-.
      * unfold typed.
        cbn [Start Pos Width lastPos input set_Pos set_Width] in *.
        conjs; try assumption; try (apply Hints); try lia.
        intros _. conjs; try lia.
        replace (Pos l + w - w) with (Pos l) by lia. reflexivity.
      * unfold typed, rest in *.
        cbn [Start Pos Width lastPos input set_Width].
        conjs; try assumption; try (apply Hints);
          first [lia | discriminate].
  - (* AcceptRun *)
    destruct (AcceptRun_advance valid l Ht ltac:(lia))
      as (run & t & Hs & HA & Hadv).
    rewrite HA in E. injection E as <-.
    assert (Hlen : len (rest l) = len run + len t)
      by (rewrite Hs; apply len_app).
    rewrite len_rest in Hlen by lia.
    pose proof (len_nonneg run). pose proof (len_nonneg t).
    pose proof (decode_width_bounds t) as Hw.
    assert (Hr : rest (set_Pos (Pos l + len run)
                         (set_Width (snd (utf8.DecodeRuneInString t)) l)) = t).
    { unfold rest. cbn [Pos input set_Pos set_Width].
      replace (Z.to_nat (Pos l + len run))
        with (Z.to_nat (Pos l) + length run)%nat by (unfold len; lia).
      rewrite <- drop_drop. fold (rest l). rewrite Hs.
      apply drop_app_length. }
    rewrite Hr.
    assert (Hnear' : Start l <= Pos l + len run
                                + snd (utf8.DecodeRuneInString t)).
    { destruct Hadv as [-> | Hle].
      - cbn [app] in Hs. rewrite Hs in Hnear. change (len []) with 0. lia.
      - lia. }
    unfold typed. cbn [Start Pos Width lastPos input set_Pos set_Width].
    conjs; try assumption; try (apply Hints);
      first [lia | discriminate].
  - (* Ignore *)
    rewrite Ignore_eq in E. injection E as <-.
    unfold typed, rest in *. cbn [Start Pos Width lastPos input set_Start].
    conjs; try assumption; try lia.
    intros Hm. destruct (Hmay Hm) as (M1 & M2 & M3). conjs; try assumption. lia.
  - (* Emit *)
    destruct (Z.lt_ge_cases (Pos l) (Start l)) as [Hlt|Hge].
    + rewrite Emit_out_of_order in E by lia. discriminate.
    + rewrite Emit_in_order in E by (unfold cursor_inv; lia).
      destruct (tokens_cap <=? length (tokens l))%nat; [discriminate|].
      injection E as <-.
      unfold typed, rest in *.
      cbn [Start Pos Width lastPos input set_Start set_tokens].
      conjs; try assumption; try lia.
      intros Hm. destruct (Hmay Hm) as (M1 & M2 & M3).
      conjs; try assumption. lia.
Qed.

(** C4: in the state [NewLexer] returns and in every state reached
    from it by the cursor methods under the contract of [Backup], the
    offsets are in order, [0 <= Start <= Pos <= len(input)], except
    transiently in the step of backtracking.  [Pos] and [Start] are
    offsets of the input throughout.  While a [Backup] is permitted
    (after a [Next] or an accepting [Accept]) the order holds; in the
    other states it holds or [Pos] is behind [Start] by no more than the
    code point at [Pos], the one that [Backup] gave back, so that the
    next [Next] restores the order, as [Ignore] does.  From a state in
    which the order holds every method but [Backup] returns with it
    holding ([Emit] may block instead); the permitted [Backup] returns
    with [Pos] not before the beginning of the input and [Start] at
    most [Width] beyond it, and with the order kept when the code point
    given back is part of the pending text. *)
Theorem cursor_inv_outside_backtracking :
  (forall nm inp (start : option StateFn),
      len inp <= max_int ->
      reached false (NewLexer nm inp start) /\
      cursor_inv (NewLexer nm inp start)) /\
  (forall (may : bool) l,
      reached may l ->
      0 <= Start l <= len (input l) /\
      0 <= Pos l <= len (input l) /\
      (may = true -> cursor_inv l) /\
      (cursor_inv l \/
       Pos l < Start l <= Pos l + snd (utf8.DecodeRuneInString (rest l))) /\
      (exists r l', Next l = Ok (r, l') /\ reached true l' /\ cursor_inv l') /\
      (exists l', Ignore l = Ok (tt, l') /\ reached may l' /\ cursor_inv l') /\
      (cursor_inv l ->
       (exists r l', Peek l = Ok (r, l') /\ cursor_inv l') /\
       (forall valid,
           exists b l', Accept valid l = Ok (b, l') /\ cursor_inv l') /\
       (forall valid,
           exists l', AcceptRun valid l = Ok (tt, l') /\ cursor_inv l') /\
       (forall t,
           Emit t l = Blocked \/
           exists l', Emit t l = Ok (tt, l') /\ cursor_inv l')) /\
      (may = true ->
       exists l',
         Backup l = Ok (tt, l') /\ reached false l' /\
         0 <= Pos l' <= Pos l /\
         Start l' <= Pos l' + Width l' /\
         Width l' = snd (utf8.DecodeRuneInString (rest l')) /\
         (Width l <= Pos l - Start l -> cursor_inv l'))).
Proof.
  split.
  { intros nm inp start Hmax. split; [apply reached_new; exact Hmax|].
    unfold cursor_inv. cbn [NewLexer Start Pos input].
    pose proof (len_nonneg inp). lia. }
  intros may l R.
  destruct (reached_order may l R) as (Ht & HP & HS & HW & Hnear & Hmay).
  pose proof (typed_len l Ht) as Hmax. pose proof (typed_Pos l Ht) as HPi.
  assert (Hnext : exists r l', Next l = Ok (r, l')).
  { destruct (Z.le_gt_cases (len (input l)) (Pos l)) as [Hend|Hin].
    - rewrite Next_at_end by assumption. eauto.
    - rewrite Next_decode by (assumption || lia). eauto. }
  destruct Hnext as (r & l1 & EN).
  pose proof (reached_Next may l r l1 R EN) as R1.
  destruct (reached_order true l1 R1) as (_ & HP1 & HS1 & _ & _ & Hmay1).
  destruct (Hmay1 eq_refl) as (M1 & _).
  pose proof (reached_Ignore may l _ R (Ignore_eq l)) as R2.
  split; [exact HS|]. split; [exact HP|].
  split.
  { intros Hm. destruct (Hmay Hm) as (A & _). unfold cursor_inv. lia. }
  split.
  { destruct (Z.le_gt_cases (Start l) (Pos l)) as [Hle|Hgt].
    - left. unfold cursor_inv. lia.
    - right. lia. }
  split.
  { exists r, l1. split; [exact EN|]. split; [exact R1|].
    unfold cursor_inv. lia. }
  split.
  { eexists. split; [apply Ignore_eq|]. split; [exact R2|].
    unfold cursor_inv. cbn [Start Pos input set_Start]. lia. }
  split.
  { intros Hi.
    destruct (proj2 cursor_inv_preserved l Ht Hi)
      as (_ & (r2 & l2 & E2 & _ & I2) & HAc & HAr & _ & HEm & _).
    split; [exists r2, l2; split; assumption|].
    split.
    { intros valid. destruct (HAc valid) as (b & l' & E & _ & I).
      exists b, l'. split; assumption. }
    split.
    { intros valid. destruct (HAr valid) as (l' & E & _ & I).
      exists l'. split; assumption. }
    intros t. destruct (HEm t) as [B | (l' & E & _ & I)];
      [left; exact B | right; exists l'; split; assumption]. }
  intros Hm. subst may. destruct (Hmay eq_refl) as (A & B & C).
  assert (Hint : is_int (Pos l - Width l))
    by (unfold is_int, min_int, max_int, int_bits in *; lia).
  eexists. split; [apply Backup_eq|].
  split; [exact (reached_Backup l _ R (Backup_eq l))|].
  rewrite wrap_id by exact Hint.
  unfold cursor_inv, rest. cbn [Start Pos Width input set_Pos].
  rewrite C.
  split; [lia|]. split; [lia|]. split; [reflexivity|]. lia.
Qed.

End Backtracking.

(** The step of backtracking on ["a1"]: the state after [l.Next();
    l.Emit(1); l.Backup()]. *)
Lemma cursor_inv_outside_backtracking_witness :
  reached false backed_up_behind_Start /\
  ~ cursor_inv backed_up_behind_Start /\
  (cursor_inv backed_up_behind_Start \/
   Pos backed_up_behind_Start < Start backed_up_behind_Start
   <= Pos backed_up_behind_Start
      + snd (utf8.DecodeRuneInString (rest backed_up_behind_Start))) /\
  (exists r l',
      Next backed_up_behind_Start = Ok (r, l') /\ reached true l' /\
      cursor_inv l').
Proof.
  assert (R : reached false backed_up_behind_Start).
  { apply (reached_Backup emitted_a); [|reflexivity].
    apply (reached_Emit true (mkLexer (str "t") (str "a1") None 0 1 0 1 []) 1);
      [|reflexivity].
    apply (reached_Next false fresh_a1 0x61); [|reflexivity].
    apply reached_new. vm_compute. discriminate. }
  split; [exact R|].
  split.
  { intros ((_ & H) & _). vm_compute in H. apply H. reflexivity. }
  destruct (proj2 (@cursor_inv_outside_backtracking unit) false
              backed_up_behind_Start R)
    as (_ & _ & _ & Hnear & Hnext & _).
  split; [exact Hnear | exact Hnext].
Defined.

(** ** More about the cursor *)

(** What the decoder yields from a string that is not empty is a code
    point. *)
Lemma decode_valid (s : gostring) :
  s <> [] -> utf8.ValidRune (fst (utf8.DecodeRuneInString s)) = true.
Proof.
  intros Hs.
  destruct (decoded_encoded _ _ _ (decode_decoded s Hs))
    as [(_ & -> & _) | (V & _)]; [reflexivity | exact V].
Qed.

Section CursorMore.

Context {StateFn : Type}.
Implicit Types l : Lexer StateFn.

(** X1: [Accept valid] always returns in a cursor state whose [Pos] is
    an offset; it returns true exactly when the input is not at its end
    and the code point at [Pos] is one of the code points of [valid],
    and then [Pos] has moved past that code point and the one [Backup]
    takes it back; it returns false with [Pos] where it was.  [Width]
    is the width of the code point looked at in both cases (0 at the
    end of the input), and nothing else changes. *)
Theorem Accept_takes_code_point_of_valid (valid : gostring) l :
  typed l ->
  0 <= Pos l ->
  exists (b : bool) l',
    Accept valid l = Ok (b, l') /\
    (b = true <->
     Pos l < len (input l) /\
     code_point_of valid (fst (utf8.DecodeRuneInString (rest l)))) /\
    Width l' = snd (utf8.DecodeRuneInString (rest l)) /\
    Pos l' = (if b then Pos l + Width l' else Pos l) /\
    (b = true -> 1 <= Width l' <= 4 /\ Pos l' <= len (input l)) /\
    (b = true -> Backup l' = Ok (tt, set_Pos (Pos l) l')) /\
    Start l' = Start l /\ input l' = input l /\ tokens l' = tokens l /\
    state l' = state l /\ lastPos l' = lastPos l /\ name l' = name l.
Proof.
  intros Ht HP.
  pose proof (typed_Pos l Ht) as HPi. pose proof (typed_len l Ht) as Hmax.
  destruct (Z.le_gt_cases (len (input l)) (Pos l)) as [Hend | Hin].
  - exists false, (set_Width 0 l).
    rewrite Accept_at_end by assumption.
    rewrite (rest_empty l Hend), decode_empty.
    cbn [fst snd Pos Width Start input tokens state lastPos name set_Width].
    repeat apply conj; try reflexivity; try discriminate.
    intros [H _]. lia.
  - assert (Hne : rest l <> []) by (apply rest_nonempty; lia).
    pose proof (decode_width _ Hne) as [Hw1 Hw2].
    rewrite len_rest in Hw2 by lia.
    rewrite Accept_decode by (assumption || lia).
    destruct (in_set valid (fst (utf8.DecodeRuneInString (rest l)))) eqn:Hin_set.
    + eexists true, _. split; [reflexivity|].
      cbn [fst snd Pos Width Start input tokens state lastPos name
             set_Width set_Pos].
      repeat apply conj; try reflexivity; try lia.
      * intros _. split; [lia|]. apply in_set_code_point. exact Hin_set.
      * intros _. rewrite Backup_eq.
        cbn [fst snd Pos Width set_Width set_Pos].
        replace (Pos l + snd (utf8.DecodeRuneInString (rest l))
                 - snd (utf8.DecodeRuneInString (rest l))) with (Pos l) by lia.
        rewrite wrap_id by assumption. reflexivity.
    + eexists false, _. split; [reflexivity|].
      cbn [fst snd Pos Width Start input tokens state lastPos name set_Width].
      repeat apply conj; try reflexivity; try discriminate.
      intros [_ H]. apply in_set_code_point in H. congruence.
Qed.

Lemma set_Width_same l : set_Width (Width l) l = l.
Proof. destruct l. reflexivity. Qed.

Lemma set_Pos_same l : set_Pos (Pos l) l = l.
Proof. destruct l. reflexivity. Qed.

Lemma rest_past l : rest l = [] -> 0 <= Pos l -> len (input l) <= Pos l.
Proof.
  unfold rest, len. intros H HP.
  apply (f_equal (@length byte)) in H. rewrite length_drop in H.
  cbn [length] in H. lia.
Qed.

(** A state in which the code point at [Pos] is not in [valid], or the
    input is at its end, and [Width] is the width of that code point,
    is a fixed point of [Accept valid] and of [AcceptRun valid]. *)
Lemma Accept_rejects l (valid : gostring) :
  is_int (Pos l) -> 0 <= Pos l -> len (input l) <= max_int ->
  Width l = snd (utf8.DecodeRuneInString (rest l)) ->
  rest l = [] \/ in_set valid (fst (utf8.DecodeRuneInString (rest l))) = false ->
  Accept valid l = Ok (false, l) /\ AcceptRun valid l = Ok (tt, l).
Proof.
  intros HPi HP Hmax HW Hstop.
  destruct (Z.le_gt_cases (len (input l)) (Pos l)) as [Hend | Hin].
  - rewrite (rest_empty l Hend), decode_empty in HW. cbn [snd] in HW.
    split.
    + rewrite Accept_at_end by assumption. rewrite <- HW, set_Width_same.
      reflexivity.
    + unfold AcceptRun, AcceptRun_fuel. unfold bind at 1, get.
      cbn [AcceptRun_loop]. unfold bind.
      rewrite Next_at_end by assumption. fold (in_set valid EOF).
      rewrite in_set_EOF. unfold ret. rewrite Backup_eq.
      rewrite <- HW, set_Width_same, HW, Z.sub_0_r, wrap_id by assumption.
      rewrite set_Pos_same. reflexivity.
  - assert (Hne : rest l <> []) by (apply rest_nonempty; lia).
    destruct Hstop as [Hnil | Hout]; [contradiction|].
    split.
    + rewrite Accept_decode by (assumption || lia). rewrite Hout, <- HW.
      rewrite set_Width_same. reflexivity.
    + unfold AcceptRun, AcceptRun_fuel. unfold bind at 1, get.
      cbn [AcceptRun_loop]. unfold bind.
      rewrite Next_decode by (assumption || lia).
      fold (in_set valid (fst (utf8.DecodeRuneInString (rest l)))).
      rewrite Hout. unfold ret. rewrite Backup_eq, <- HW.
      cbn [Pos Width set_Pos set_Width].
      replace (Pos l + Width l - Width l) with (Pos l) by lia.
      rewrite wrap_id by assumption.
      clear. destruct l. reflexivity.
Qed.

(** X2: [AcceptRun valid] leaves a state in which nothing more of
    [valid] can be taken: a further [Accept valid] returns false and a
    further [AcceptRun valid] returns, both without changing the lexer
    at all.  The [Width] it leaves is the width of the code point that
    stopped the run, not of the last one taken: it is 0 exactly when
    the run went to the end of the input. *)
Theorem AcceptRun_reaches_fixed_point (valid : gostring) l :
  typed l ->
  0 <= Pos l <= len (input l) ->
  exists l1,
    AcceptRun valid l = Ok (tt, l1) /\
    Accept valid l1 = Ok (false, l1) /\
    AcceptRun valid l1 = Ok (tt, l1) /\
    Pos l <= Pos l1 <= len (input l) /\
    Width l1 = snd (utf8.DecodeRuneInString (rest l1)) /\
    (Width l1 = 0 <-> Pos l1 = len (input l)).
Proof.
  intros Ht HP.
  pose proof (typed_Pos l Ht) as HPi. pose proof (typed_len l Ht) as Hmax.
  destruct (AcceptRun_total valid l Ht ltac:(lia)) as (run & t & Hrun & HA).
  destruct Hrun as (Hs & _ & _ & Hstop).
  set (l1 := set_Pos (Pos l + len run)
               (set_Width (snd (utf8.DecodeRuneInString t)) l)) in *.
  assert (Hlen : len (input l) - Pos l = len run + len t).
  { rewrite <- len_rest by lia. rewrite Hs. apply len_app. }
  pose proof (len_nonneg run). pose proof (len_nonneg t).
  assert (Hrest : rest l1 = t).
  { unfold rest, l1. cbn [Pos input set_Pos set_Width].
    replace (Z.to_nat (Pos l + len run))
      with (Z.to_nat (Pos l) + length run)%nat by (unfold len; lia).
    rewrite <- drop_drop. fold (rest l). rewrite Hs.
    rewrite drop_app_length. reflexivity. }
  assert (HP1 : Pos l1 = Pos l + len run) by reflexivity.
  assert (HW1 : Width l1 = snd (utf8.DecodeRuneInString (rest l1)))
    by (rewrite Hrest; reflexivity).
  assert (Hint : is_int (Pos l1)).
  { rewrite HP1. unfold is_int, min_int, max_int, int_bits in *. lia. }
  destruct (Accept_rejects l1 valid Hint ltac:(lia) Hmax HW1
              ltac:(rewrite Hrest; exact Hstop)) as [HAc HAr].
  exists l1. repeat apply conj; try assumption; try lia.
  - rewrite HW1, Hrest. intros Hw0.
    destruct t as [|b0 t0]; [rewrite HP1; change (len []) with 0 in Hlen; lia|].
    pose proof (decode_width (b0 :: t0) ltac:(discriminate)) as [[W1 _] _]. lia.
  - intros Hend. rewrite HW1, Hrest.
    assert (Ht0 : t = []) by (apply len_nil_iff; lia).
    rewrite Ht0. reflexivity.
Qed.

Lemma typed_advance l (w : Z) :
  typed l -> 0 <= w <= 4 -> 0 <= Pos l -> Pos l + w <= len (input l) ->
  typed (set_Pos (Pos l + w) (set_Width w l)).
Proof.
  intros (A & B & C & D & E) Hw HP Hle.
  unfold typed, is_int, min_int, max_int, int_bits in *.
  cbn [Start Pos Width lastPos input set_Pos set_Width].
  conjs; lia.
Qed.

Lemma nexts_all (n : nat) l :
  length (rest l) = n ->
  typed l -> 0 <= Pos l <= len (input l) ->
  exists l',
    nexts (length (utf8.runes (rest l))) l = Ok (utf8.runes (rest l), l') /\
    Pos l' = len (input l) /\
    Start l' = Start l /\ input l' = input l /\ tokens l' = tokens l /\
    state l' = state l /\ lastPos l' = lastPos l.
Proof.
  revert l. induction n as [n IH] using lt_wf_ind. intros l Hn Ht HP.
  pose proof (typed_len l Ht) as Hmax.
  destruct (rest l) as [|b0 s0] eqn:Hr.
  - exists l. rewrite runes_nil. cbn [length nexts].
    pose proof (rest_past l Hr ltac:(lia)).
    conjs; try reflexivity. lia.
  - assert (Hne : rest l <> []) by (rewrite Hr; discriminate).
    assert (Hin : Pos l < len (input l)).
    { destruct (Z.lt_ge_cases (Pos l) (len (input l))) as [H|H]; [exact H|].
      rewrite (rest_empty l) in Hr by lia. discriminate. }
    pose proof (decode_width _ Hne) as [Hw1 Hw2].
    rewrite len_rest in Hw2 by lia.
    rewrite <- Hr. rewrite runes_cons by assumption.
    cbn [length nexts]. unfold bind at 1.
    rewrite Next_decode by (assumption || lia).
    set (w := snd (utf8.DecodeRuneInString (rest l))) in *.
    set (l1 := set_Pos (Pos l + w) (set_Width w l)).
    assert (Hr1 : rest l1 = drop (Z.to_nat w) (rest l))
      by (apply rest_after_Next; lia).
    assert (Hlt : (length (rest l1) < n)%nat).
    { rewrite Hr1, length_drop, Hr. cbn [length] in *. lia. }
    destruct (IH _ Hlt l1 eq_refl) as (l' & E & HP' & HS & HI & HT & HSt & HL).
    { apply typed_advance; assumption || lia. }
    { unfold l1. cbn [Pos input set_Pos set_Width]. lia. }
    exists l'. rewrite <- Hr1. unfold bind. rewrite E.
    conjs; try reflexivity; assumption.
Qed.

(** X3: calling [Next] again and again from an offset in the input
    returns the code points of the rest of the input, the very
    sequence that the statement [for _, r := range l.input[l.Pos:]]
    yields (a malformed byte counting as one [RuneError]), one for each
    call, and leaves [Pos] at the end of the input, where [Next]
    returns [EOF] from then on. *)
Theorem Next_walks_code_points l :
  typed l ->
  0 <= Pos l <= len (input l) ->
  exists l',
    nexts (length (utf8.runes (rest l))) l = Ok (utf8.runes (rest l), l') /\
    Pos l' = len (input l) /\
    Next l' = Ok (EOF, set_Width 0 l') /\
    Next (set_Width 0 l') = Ok (EOF, set_Width 0 l') /\
    Start l' = Start l /\ input l' = input l /\ tokens l' = tokens l.
Proof.
  intros Ht HP.
  destruct (nexts_all _ l eq_refl Ht HP)
    as (l' & E & HP' & HS & HI & HT & _).
  exists l'. conjs; try assumption.
  - apply Next_at_end. rewrite HI. lia.
  - rewrite Next_at_end by (cbn [input Pos set_Width]; rewrite HI; lia).
    reflexivity.
Qed.

(** X4: when the input at [Pos] holds the UTF-8 encoding of a code
    point [r], the bytes of the conversion [string(r)], then [Next]
    returns [r] and moves [Pos] past those bytes, whatever follows
    them. *)
Theorem Next_reads_encoded_code_point l (r : Z) (t : gostring) :
  typed l ->
  0 <= Pos l ->
  utf8.ValidRune r = true ->
  rest l = utf8.EncodeRune r ++ t ->
  exists l',
    Next l = Ok (r, l') /\
    Pos l' = Pos l + len (utf8.EncodeRune r) /\
    Width l' = len (utf8.EncodeRune r) /\
    1 <= Width l' <= 4 /\
    rest l' = t.
Proof.
  intros Ht HP V Hr.
  pose proof (typed_len l Ht) as Hmax.
  pose proof (decoded_Decode _ _ _ (encoded_decoded r t V)) as D.
  rewrite <- Hr in D.
  assert (Hne : rest l <> []).
  { rewrite Hr. destruct (encode_lead r V) as (b & e & -> & _). discriminate. }
  assert (Hin : Pos l < len (input l)).
  { destruct (Z.lt_ge_cases (Pos l) (len (input l))) as [H|H]; [exact H|].
    rewrite (rest_empty l) in Hne by lia. congruence. }
  pose proof (decode_width _ Hne) as [Hw1 Hw2].
  rewrite Next_decode by (assumption || lia).
  rewrite D in *. cbn [fst snd] in *.
  eexists. split; [reflexivity|].
  cbn [Pos Width set_Pos set_Width]. conjs; try reflexivity; try lia.
  rewrite rest_after_Next by lia. rewrite Hr.
  unfold len. rewrite Nat2Z.id. apply drop_app_length.
Qed.

(** X5: [Next] returns [EOF] only at the end of the input: before the
    end the rune it returns is a Unicode code point ([utf8.ValidRune]
    holds of it: it is not negative, no surrogate and at most
    U+10FFFF), so it is never the [EOF] value -1, whatever the bytes of
    the input. *)
Theorem Next_EOF_only_at_end l :
  typed l ->
  0 <= Pos l ->
  exists r l',
    Next l = Ok (r, l') /\
    (r = EOF <-> len (input l) <= Pos l) /\
    (Pos l < len (input l) ->
     utf8.ValidRune r = true /\ 0 <= r <= utf8.MaxRune /\ Pos l < Pos l').
Proof.
  intros Ht HP. pose proof (typed_len l Ht) as Hmax.
  destruct (Z.le_gt_cases (len (input l)) (Pos l)) as [Hend | Hin].
  - rewrite Next_at_end by assumption. eexists _, _.
    split; [reflexivity|]. split; [tauto | lia].
  - assert (Hne : rest l <> []) by (apply rest_nonempty; lia).
    pose proof (decode_width _ Hne) as [Hw1 Hw2].
    pose proof (decode_valid _ Hne) as V.
    rewrite Next_decode by (assumption || lia).
    eexists _, _. split; [reflexivity|].
    assert (R : 0 <= fst (utf8.DecodeRuneInString (rest l)) <= utf8.MaxRune).
    { destruct (ValidRune_cases _ V) as [H|[H|[[H _]|H]]];
        unfold utf8.MaxRune; lia. }
    split.
    + split; [|lia]. unfold EOF. lia.
    + intros _. cbn [Pos set_Pos set_Width]. conjs; try assumption; lia.
Qed.

(** X6: [Backup] is guarded by nothing but its contract.  Called twice
    after one [Next] that read a code point, it takes the width of
    that code point off [Pos] twice, so [Pos] ends before the offset
    that [Next] started from; when that is the beginning of the input,
    [Pos] is negative and every method that reads the input panics. *)
Theorem Backup_twice_goes_too_far l :
  typed l ->
  0 <= Pos l < len (input l) ->
  exists r l',
    (r <- Next ;; Backup ;; Backup ;; ret r) l = Ok (r, l') /\
    1 <= Width l' <= 4 /\
    Pos l' = Pos l - Width l' /\
    Pos l' < Pos l /\
    (Pos l < Width l' ->
     forall valid,
       Next l' = Panic /\ Peek l' = Panic /\ AcceptRun valid l' = Panic).
Proof.
  intros Ht HP. pose proof (typed_len l Ht) as Hmax.
  pose proof (typed_Pos l Ht) as HPi.
  assert (Hne : rest l <> []) by (apply rest_nonempty; lia).
  pose proof (decode_width _ Hne) as [Hw1 Hw2].
  rewrite len_rest in Hw2 by lia.
  unfold bind at 1. rewrite Next_decode by (assumption || lia).
  unfold bind. rewrite !Backup_eq. unfold ret.
  cbn [Pos Width set_Pos set_Width].
  set (w := snd (utf8.DecodeRuneInString (rest l))) in *.
  replace (Pos l + w - w) with (Pos l) by lia.
  rewrite (wrap_id (Pos l)) by assumption.
  rewrite wrap_id
    by (unfold is_int, min_int, max_int, int_bits in *; lia).
  eexists _, _. split; [reflexivity|].
  cbn [Pos Width set_Pos set_Width]. conjs; try lia.
  intros Hneg valid. conjs.
  - apply Next_negative. cbn [Pos set_Pos]. lia.
  - apply Peek_negative. cbn [Pos set_Pos]. lia.
  - apply AcceptRun_negative. cbn [Pos set_Pos]. lia.
Qed.

End CursorMore.

(** ** Sending tokens *)

Section Sending.

Context {StateFn : Type}.
Implicit Types l : Lexer StateFn.

Lemma pending_located l :
  cursor_inv l ->
  slice (input l) (Start l) (Pos l) = Ok (pending l) /\
  len (pending l) = Pos l - Start l /\
  input l =
  take (Z.to_nat (Start l)) (input l) ++ pending l
    ++ drop (Z.to_nat (Pos l)) (input l).
Proof.
  intros ((H1 & H2) & H3).
  assert (Hs : slice (input l) (Start l) (Pos l) = Ok (pending l))
    by (apply slice_ok; lia).
  split; [exact Hs|].
  split; [apply (slice_len _ _ _ _ Hs)|].
  unfold pending.
  rewrite <- (take_drop (Z.to_nat (Start l)) (input l)) at 1. f_equal.
  rewrite <- (take_drop (Z.to_nat (Pos l - Start l))
                (drop (Z.to_nat (Start l)) (input l))) at 1.
  f_equal. rewrite drop_drop. f_equal. lia.
Qed.

(** X7: what [Emit] comes to in every state.  With the offsets out of
    order it panics, even when the channel is full, because the slice
    expression is evaluated before the send; with the offsets in order
    and two tokens in the channel it blocks; otherwise it appends to
    the channel one token with the given type, the bytes of the input
    from [Start] to [Pos] as text and [Start] as position, moves
    [Start] to [Pos] and changes nothing else, so that the pending text
    is empty afterwards. *)
Theorem Emit_outcomes (t : TokenType) l :
  (~ cursor_inv l -> Emit t l = Panic) /\
  (cursor_inv l -> (tokens_cap <= length (tokens l))%nat ->
   Emit t l = Blocked) /\
  (cursor_inv l -> (length (tokens l) < tokens_cap)%nat ->
   exists tok l',
     Emit t l = Ok (tt, l') /\
     tokens l' = tokens l ++ [tok] /\
     Token.Typ tok = t /\ Token.Pos tok = Start l /\
     len (Token.Val tok) = Pos l - Start l /\
     input l =
     take (Z.to_nat (Start l)) (input l) ++ Token.Val tok
       ++ drop (Z.to_nat (Pos l)) (input l) /\
     located (input l) tok /\
     Start l' = Pos l /\ Pos l' = Pos l /\ Width l' = Width l /\
     input l' = input l /\ state l' = state l /\ lastPos l' = lastPos l /\
     pending l' = [] /\ cursor_inv l').
Proof.
  conjs.
  - intros Hn. apply Emit_out_of_order. unfold cursor_inv in Hn. lia.
  - intros Hi Hfull. rewrite Emit_in_order by assumption.
    destruct (Nat.leb_spec tokens_cap (length (tokens l))); [reflexivity | lia].
  - intros Hi Hroom. rewrite Emit_in_order by assumption.
    destruct (Nat.leb_spec tokens_cap (length (tokens l))); [lia|].
    destruct (pending_located l Hi) as (Hs & Hl & Hsplit).
    eexists _, _. split; [reflexivity|].
    cbn [tokens Start Pos Width input state lastPos set_Start set_tokens
           Token.Typ Token.Pos Token.Val].
    conjs; try reflexivity; try assumption.
    + unfold located. cbn [Token.Pos Token.Val]. rewrite Hl.
      replace (Start l + (Pos l - Start l)) with (Pos l) by lia. exact Hs.
    + unfold pending. cbn [Start Pos input set_Start set_tokens].
      rewrite Z.sub_diag. reflexivity.
    + unfold cursor_inv in *.
      cbn [Start Pos input set_Start set_tokens]. lia.
Qed.

End Sending.

Section Capacity.

Context {StateFn : Type}.
Variable call : StateFn -> M StateFn (option StateFn).
Implicit Types l : Lexer StateFn.

Lemma Emit_twice_room (a b : TokenType) l :
  cursor_inv l -> tokens l = [] ->
  exists l2,
    (Emit a ;; Emit b) l = Ok (tt, l2) /\
    cursor_inv l2 /\ length (tokens l2) = 2%nat /\ state l2 = state l.
Proof.
  intros Hi Hb. unfold bind.
  rewrite Emit_in_order by assumption. rewrite Hb. cbn [length Nat.leb tokens_cap].
  set (l1 := set_Start _ _).
  assert (Hi1 : cursor_inv l1).
  { unfold cursor_inv in *. unfold l1.
    cbn [Start Pos input set_Start set_tokens]. lia. }
  rewrite Emit_in_order by assumption.
  unfold l1 at 1. cbn [tokens set_Start set_tokens app length Nat.leb tokens_cap].
  eexists. split; [reflexivity|].
  conjs.
  - unfold cursor_inv in *. unfold l1.
    cbn [Start Pos input set_Start set_tokens]. lia.
  - reflexivity.
  - reflexivity.
Qed.

(** X8: the channel holds two tokens and nothing receives while a
    state function runs, so a state function may send two tokens in
    one call and no more: called with the channel empty, as
    [NextToken] calls it, a state function that begins with three
    calls of [Emit] never returns, and neither does [NextToken]; [run]
    with nobody receiving blocks in the same way. *)
Theorem third_Emit_blocks (f : StateFn) (a b c : TokenType)
  (k : M StateFn (option StateFn)) l :
  cursor_inv l ->
  tokens l = [] ->
  state l = Some f ->
  call f l = (Emit a ;; Emit b ;; Emit c ;; k) l ->
  (exists l2, (Emit a ;; Emit b) l = Ok (tt, l2) /\ length (tokens l2) = 2%nat) /\
  call f l = Blocked /\
  (forall fuel, NextToken call (S fuel) l = Blocked) /\
  (forall fuel, run call (S fuel) l = Blocked).
Proof.
  intros Hi Hb Hs Hc.
  destruct (Emit_twice_room a b l Hi Hb) as (l2 & E2 & Hi2 & Hlen & _).
  assert (HB : call f l = Blocked).
  { rewrite Hc. unfold bind in E2 |- *.
    destruct (Emit a l) as [[u1 l1]| | |]; try discriminate.
    rewrite E2.
    rewrite Emit_in_order by assumption. rewrite Hlen. reflexivity. }
  conjs.
  - exists l2. split; assumption.
  - exact HB.
  - intros fuel. rewrite (NextToken_default call fuel l f Hb Hs).
    unfold bind at 1. rewrite HB. reflexivity.
  - intros fuel. unfold run, bind at 1, get. rewrite Hs.
    cbn [run_loop]. unfold bind. rewrite HB. reflexivity.
Qed.

End Capacity.

(** ** Line numbers *)

Lemma CountByte_app (s t : gostring) (c : byte) :
  strings.CountByte (s ++ t) c = strings.CountByte s c + strings.CountByte t c.
Proof. unfold strings.CountByte. rewrite filter_app. apply len_app. Qed.

Lemma CountByte_bounds (s : gostring) (c : byte) :
  0 <= strings.CountByte s c <= len s.
Proof.
  unfold strings.CountByte, len.
  pose proof (length_filter (fun b => Byte.eqb b c = true) s). lia.
Qed.

Lemma CountByte_one (b c : byte) :
  strings.CountByte [b] c = if Byte.eqb b c then 1 else 0.
Proof.
  unfold strings.CountByte. cbn [filter list_filter].
  destruct (decide (Byte.eqb b c = true)) as [E|E].
  - rewrite E. reflexivity.
  - destruct (Byte.eqb b c); [congruence | reflexivity].
Qed.

Lemma lines_before_mono (s : gostring) (a b : Z) :
  a <= b -> lines_before s a <= lines_before s b.
Proof.
  intros H. unfold lines_before.
  replace (Z.to_nat b) with (Z.to_nat a + (Z.to_nat b - Z.to_nat a))%nat by lia.
  rewrite <- take_take_drop, CountByte_app.
  pose proof (CountByte_bounds
                (take (Z.to_nat b - Z.to_nat a) (drop (Z.to_nat a) s)) newline).
  lia.
Qed.

Lemma lines_before_step (s : gostring) (n : Z) (b : byte) :
  0 <= n -> s !! Z.to_nat n = Some b ->
  lines_before s (n + 1) =
  lines_before s n + (if Byte.eqb b newline then 1 else 0).
Proof.
  intros Hn Hb. unfold lines_before.
  replace (Z.to_nat (n + 1)) with (S (Z.to_nat n)) by lia.
  rewrite (take_S_r _ _ _ Hb), CountByte_app, CountByte_one. lia.
Qed.

Section Lines.

Context {StateFn : Type}.
Implicit Types l : Lexer StateFn.

Lemma LineNumber_eq l :
  0 <= lastPos l <= len (input l) -> len (input l) < max_int ->
  LineNumber l = Ok (lines_before (input l) (lastPos l), l).
Proof.
  intros H Hmax. unfold LineNumber. munfold.
  unfold slice_to. rewrite slice_ok by lia.
  rewrite Z.sub_0_r. change (Z.to_nat 0) with 0%nat. rewrite drop_0.
  pose proof (CountByte_bounds (take (Z.to_nat (lastPos l)) (input l)) x0a)
    as [B1 B2].
  assert (Hl : len (take (Z.to_nat (lastPos l)) (input l)) <= lastPos l)
    by (unfold len; rewrite length_take; lia).
  rewrite wrap_id
    by (unfold is_int, min_int, max_int, int_bits in *; lia).
  unfold lines_before, newline. do 2 f_equal. lia.
Qed.

(** X9: [LineNumber] returns one more than the number of newline bytes
    in the first [lastPos] bytes of the input and changes nothing; it
    is 1 until a token has been received, between 1 and [lastPos]+1
    always, it grows by one exactly from an offset that holds a
    newline to the next, and it panics when [lastPos] is no offset of
    the input. *)
Theorem LineNumber_counts_newlines l :
  len (input l) < max_int ->
  (0 <= lastPos l <= len (input l) ->
   LineNumber l = Ok (lines_before (input l) (lastPos l), l) /\
   1 <= lines_before (input l) (lastPos l) <= lastPos l + 1) /\
  (lastPos l = 0 -> LineNumber l = Ok (1, l)) /\
  (lastPos l < 0 \/ len (input l) < lastPos l -> LineNumber l = Panic) /\
  (forall n b,
      0 <= n -> input l !! Z.to_nat n = Some b ->
      lines_before (input l) (n + 1) =
      lines_before (input l) n + (if Byte.eqb b newline then 1 else 0)) /\
  (forall a b, a <= b ->
               lines_before (input l) a <= lines_before (input l) b).
Proof.
  intros Hmax. split; [|split; [|split; [|split]]].
  - intros H. split; [apply LineNumber_eq; assumption|].
    unfold lines_before.
    pose proof (CountByte_bounds (take (Z.to_nat (lastPos l)) (input l)) newline)
      as [B1 B2].
    unfold len in B2. rewrite length_take in B2. lia.
  - intros H0. pose proof (len_nonneg (input l)).
    rewrite LineNumber_eq by lia. rewrite H0. reflexivity.
  - intros H. unfold LineNumber. munfold. unfold slice_to.
    rewrite slice_panics by lia. reflexivity.
  - intros n b. apply lines_before_step.
  - intros a b. apply lines_before_mono.
Qed.

End Lines.

(** ** State functions made of the methods *)

Section Interface.

Context {StateFn : Type}.
Implicit Types l : Lexer StateFn.

Lemma sends_only_refl l : sends_only l l.
Proof.
  unfold sends_only. conjs; try reflexivity; try tauto.
  exists []. rewrite app_nil_r. split; [reflexivity | constructor].
Qed.

Lemma sends_only_trans l1 l2 l3 :
  sends_only l1 l2 -> sends_only l2 l3 -> sends_only l1 l3.
Proof.
  intros (A1 & A2 & A3 & A4 & Ac & n1 & A5 & A6)
         (B1 & B2 & B3 & B4 & Bc & n2 & B5 & B6).
  unfold sends_only. conjs; try congruence.
  { intros H. apply Bc, Ac, H. }
  exists (n1 ++ n2). split.
  - rewrite B5, A5, app_assoc. reflexivity.
  - apply Forall_app. split; [exact A6|]. rewrite A2 in B6. exact B6.
Qed.

(** A call that leaves the channel, the input and the fields of
    [NextToken] alone. *)
Lemma sends_nothing l l' :
  name l' = name l -> input l' = input l -> state l' = state l ->
  lastPos l' = lastPos l -> tokens l' = tokens l -> sends_only l l'.
Proof.
  intros H1 H2 H3 H4 H5. unfold sends_only. conjs; try assumption.
  { rewrite H5. tauto. }
  exists []. rewrite app_nil_r. split; [assumption | constructor].
Qed.

Lemma Next_sends_only l r l' : Next l = Ok (r, l') -> sends_only l l'.
Proof.
  unfold Next. munfold.
  destruct (len (input l) <=? Pos l).
  - intros H. injection H as _ <-. apply sends_nothing; reflexivity.
  - destruct (slice_from (input l) (Pos l)); try discriminate.
    destruct (utf8.DecodeRuneInString a) as [r0 w].
    intros H. injection H as _ <-. apply sends_nothing; reflexivity.
Qed.

Lemma Backup_sends_only l u l' : Backup l = Ok (u, l') -> sends_only l l'.
Proof.
  rewrite Backup_eq. intros H. injection H as _ <-.
  apply sends_nothing; reflexivity.
Qed.

Lemma Ignore_sends_only l u l' : Ignore l = Ok (u, l') -> sends_only l l'.
Proof.
  rewrite Ignore_eq. intros H. injection H as _ <-.
  apply sends_nothing; reflexivity.
Qed.

Lemma LineNumber_sends_only l n l' :
  LineNumber l = Ok (n, l') -> sends_only l l'.
Proof.
  unfold LineNumber. munfold.
  destruct (slice_to (input l) (lastPos l)); try discriminate.
  intros H. injection H as _ <-. apply sends_only_refl.
Qed.

Lemma Emit_sends_only t l u l' : Emit t l = Ok (u, l') -> sends_only l l'.
Proof.
  unfold Emit, send. munfold.
  destruct (slice (input l) (Start l) (Pos l)) as [v| | |] eqn:Hs;
    try discriminate.
  destruct (Nat.leb_spec tokens_cap (length (tokens l))) as [Hc|Hc];
    [discriminate|].
  intros H. injection H as _ <-.
  pose proof (slice_len _ _ _ _ Hs) as (H1 & H2 & H3).
  unfold sends_only.
  cbn [name input state lastPos tokens set_Start set_tokens].
  conjs; try reflexivity.
  { intros _. rewrite length_app. cbn [length]. lia. }
  exists [Token.mk t v (Start l)]. split; [reflexivity|].
  constructor; [|constructor]. right. unfold located.
  cbn [Token.Pos Token.Val].
  replace (Start l + len v) with (Pos l) by lia. exact Hs.
Qed.

Lemma Errorf_sends_only {Arg} (Sprintf : gostring -> list Arg -> gostring)
  format args l next l' :
  Errorf Sprintf format args l = Ok (next, l') -> sends_only l l'.
Proof.
  rewrite Errorf_eq.
  destruct (Nat.leb_spec tokens_cap (length (tokens l))) as [Hc|Hc];
    [discriminate|].
  intros H. injection H as _ <-.
  unfold sends_only.
  cbn [name input state lastPos tokens set_tokens].
  conjs; try reflexivity.
  { intros _. rewrite length_app. cbn [length]. lia. }
  eexists. split; [reflexivity|].
  constructor; [|constructor]. left. reflexivity.
Qed.

Lemma lexing_sends_only {A} (m : M StateFn A) :
  lexing m -> forall l a l', m l = Ok (a, l') -> sends_only l l'.
Proof.
  induction 1 as [A a0 | A B m k Hm IHm Hk IHk | | | | | valid | valid | | t
                 | Arg Sprintf format args | ];
    intros l a l' E.
  - injection E as _ <-. apply sends_only_refl.
  - unfold bind in E. destruct (m l) as [[a1 l1]| | |] eqn:E1; try discriminate.
    eapply sends_only_trans; [eapply IHm; exact E1 | eapply IHk; exact E].
  - injection E as _ <-. apply sends_only_refl.
  - eapply Next_sends_only; exact E.
  - eapply Backup_sends_only; exact E.
  - unfold Peek, bind in E.
    destruct (Next l) as [[r0 l1]| | |] eqn:E1; try discriminate.
    rewrite Backup_eq in E. unfold ret in E. injection E as _ <-.
    eapply sends_only_trans; [eapply Next_sends_only; exact E1|].
    apply sends_nothing; reflexivity.
  - unfold Accept, bind in E.
    destruct (Next l) as [[r0 l1]| | |] eqn:E1; try discriminate.
    destruct (0 <=? strings.IndexRune valid r0).
    + unfold ret in E. injection E as _ <-. eapply Next_sends_only; exact E1.
    + rewrite Backup_eq in E. unfold ret in E. injection E as _ <-.
      eapply sends_only_trans; [eapply Next_sends_only; exact E1|].
      apply sends_nothing; reflexivity.
  - unfold AcceptRun, AcceptRun_fuel, bind at 1, get in E. unfold bind in E.
    destruct (AcceptRun_loop (S (length (input l))) valid l)
      as [[u0 l1]| | |] eqn:E1; try discriminate.
    rewrite Backup_eq in E. injection E as _ <-.
    assert (G : forall fuel l0 u l2,
               AcceptRun_loop fuel valid l0 = Ok (u, l2) -> sends_only l0 l2).
    { clear. induction fuel as [|fuel IH]; intros l0 u l2; [discriminate|].
      cbn [AcceptRun_loop]. unfold bind.
      destruct (Next l0) as [[r0 l1]| | |] eqn:E; try discriminate.
      destruct (0 <=? strings.IndexRune valid r0).
      - intros H. eapply sends_only_trans;
          [eapply Next_sends_only; exact E | eapply IH; exact H].
      - unfold ret. intros H. injection H as _ <-.
        eapply Next_sends_only; exact E. }
    eapply sends_only_trans; [eapply G; exact E1|].
    apply sends_nothing; reflexivity.
  - eapply Ignore_sends_only; exact E.
  - eapply Emit_sends_only; exact E.
  - eapply Errorf_sends_only; exact E.
  - eapply LineNumber_sends_only; exact E.
Qed.

End Interface.

Section InterfaceTheorems.

Context {StateFn : Type}.
Implicit Types l : Lexer StateFn.

Lemma LineNumber_same l l' (n : Z) :
  input l' = input l -> lastPos l' = lastPos l ->
  LineNumber l = Ok (n, l) -> LineNumber l' = Ok (n, l').
Proof.
  unfold LineNumber. munfold. intros -> ->.
  destruct (slice_to (input l) (lastPos l)); try discriminate.
  intros H. injection H as <-. reflexivity.
Qed.

(** X10: a state function made of the methods of the package (reading
    the lexer, [Next], [Backup], [Peek], [Accept], [AcceptRun],
    [Ignore], [Emit], [Errorf], [LineNumber]) never changes the name,
    the input, [l.state] or [lastPos]; to the channel it only appends,
    never beyond its capacity of two, and every token it appends is of
    the error type or has as text the bytes of the input at its
    [Pos].  So [LineNumber] gives inside a state function, from its
    first statement to its last, the line of the token that
    [NextToken] returned last, not the line of the scan offset. *)
Theorem state_function_only_sends {A} (m : M StateFn A) l (a : A) l' :
  lexing m ->
  m l = Ok (a, l') ->
  name l' = name l /\ input l' = input l /\ state l' = state l /\
  lastPos l' = lastPos l /\
  ((length (tokens l) <= tokens_cap)%nat ->
   (length (tokens l') <= tokens_cap)%nat) /\
  (exists new,
      tokens l' = tokens l ++ new /\
      Forall (fun t => Token.Typ t = TokenError \/ located (input l) t) new) /\
  (forall n, LineNumber l = Ok (n, l) -> LineNumber l' = Ok (n, l')).
Proof.
  intros Hm E.
  destruct (lexing_sends_only m Hm l a l' E) as (H1 & H2 & H3 & H4 & H5 & H6).
  conjs; try assumption.
  intros n. apply LineNumber_same; assumption.
Qed.

Variable call : StateFn -> M StateFn (option StateFn).
Hypothesis call_lexing : forall f, lexing (call f).

Lemma run_loop_sends_only (fuel : nat) (st : option StateFn) l u l' :
  run_loop call fuel st l = Ok (u, l') -> sends_only l l'.
Proof.
  revert st l. induction fuel as [|fuel IH]; intros st l.
  - destruct st; cbn [run_loop]; [discriminate|].
    intros H. injection H as _ <-. apply sends_only_refl.
  - destruct st as [f|]; cbn [run_loop].
    + unfold bind. destruct (call f l) as [[next l1]| | |] eqn:E;
        try discriminate.
      intros H. eapply sends_only_trans;
        [eapply lexing_sends_only; [apply call_lexing | exact E]
        | eapply IH; exact H].
    + intros H. injection H as _ <-. apply sends_only_refl.
Qed.

(** X11: [run] keeps the state function to call next in a variable of
    its own and never stores it: when [run] has returned, [l.state] is
    still the function the scan began with, although the chain of
    state functions has come to nil; [lastPos], the input and the name
    are as they were, and the channel holds what it held and what the
    state functions have sent since, two tokens at most. *)
Theorem run_never_stores_state (fuel : nat) l l' :
  run call fuel l = Ok (tt, l') ->
  state l' = state l /\ lastPos l' = lastPos l /\ input l' = input l /\
  name l' = name l /\
  ((length (tokens l) <= tokens_cap)%nat ->
   (length (tokens l') <= tokens_cap)%nat) /\
  exists new, tokens l' = tokens l ++ new.
Proof.
  unfold run, bind, get. intros E.
  destruct (run_loop_sends_only _ _ _ _ _ E)
    as (H1 & H2 & H3 & H4 & H5 & new & H6 & _).
  conjs; try assumption. exists new. exact H6.
Qed.

Lemma NextToken_stream_ok (inp : gostring) (fuel : nat) out l t l' :
  stream_ok inp out l ->
  NextToken call fuel l = Ok (t, l') ->
  stream_ok inp (out ++ [t]) l' /\ lastPos l' = Token.Pos t /\
  name l' = name l.
Proof.
  revert l. induction fuel as [|fuel IH]; intros l (Hi & Hc & Hall) E.
  - destruct (tokens l) as [|token rest] eqn:Ht.
    + rewrite NextToken_out_of_fuel in E by assumption. discriminate.
    + rewrite (NextToken_buffered _ _ _ _ _ Ht) in E. injection E as <- <-.
      unfold stream_ok. cbn [tokens input lastPos name set_lastPos set_tokens].
      cbn [length] in Hc. rewrite <- app_assoc.
      conjs; try assumption; try reflexivity. lia.
  - destruct (tokens l) as [|token rest] eqn:Ht.
    + destruct (state l) as [f|] eqn:Hs.
      * rewrite (NextToken_default _ _ _ _ Ht Hs) in E. unfold bind at 1 in E.
        destruct (call f l) as [[next l1]| | |] eqn:Hcall; try discriminate.
        unfold bind, modify in E.
        destruct (lexing_sends_only _ (call_lexing f) _ _ _ Hcall)
          as (A1 & A2 & A3 & A4 & A5 & new & A6 & A7).
        destruct (IH (set_state next l1)) with (2 := E) as (I1 & I2 & I3).
        { unfold stream_ok. cbn [tokens input set_state].
          conjs.
          - congruence.
          - apply A5. rewrite Ht. cbn [length tokens_cap]. lia.
          - rewrite A6, Ht. cbn [app]. rewrite app_nil_r in Hall.
            apply Forall_app. split; [exact Hall|]. rewrite Hi in A7. exact A7. }
        conjs; try assumption. cbn [name set_state] in I3. congruence.
      * rewrite NextToken_nil_state in E by assumption. discriminate.
    + rewrite (NextToken_buffered _ _ _ _ _ Ht) in E. injection E as <- <-.
      unfold stream_ok. cbn [tokens input lastPos name set_lastPos set_tokens].
      cbn [length] in Hc. rewrite <- app_assoc.
      conjs; try assumption; try reflexivity. lia.
Qed.

Lemma consume_stream_ok (inp : gostring) (fuel n : nat) out l ts l' :
  stream_ok inp out l ->
  consume call fuel n l = Ok (ts, l') ->
  stream_ok inp (out ++ ts) l' /\
  lastPos l' = match last ts with
               | Some t => Token.Pos t
               | None => lastPos l
               end.
Proof.
  revert out l ts. induction n as [|n IH]; intros out l ts Hinv E.
  - injection E as <- <-. rewrite app_nil_r. split; [exact Hinv|].
    reflexivity.
  - cbn [consume] in E. unfold bind in E.
    destruct (NextToken call fuel l) as [[t l1]| | |] eqn:E1; try discriminate.
    destruct (consume call fuel n l1) as [[ts1 l2]| | |] eqn:E2; try discriminate.
    injection E as <- <-.
    destruct (NextToken_stream_ok _ _ _ _ _ _ Hinv E1) as (I1 & I2 & _).
    destruct (IH _ _ _ I1 E2) as [J1 J2].
    rewrite <- app_assoc in J1. split; [exact J1|].
    rewrite J2. destruct ts1 as [|t1 ts1']; [exact I2|].
    rewrite last_cons_cons.
    destruct (last (t1 :: ts1')) eqn:EL; [reflexivity|].
    apply last_None in EL. discriminate.
Qed.

(** X12: however the grammar uses the methods of the package, [Backup]
    and [Ignore] in any order among them, every token that [NextToken]
    returns when it alone runs the state functions is either of the
    error type or a piece of the input lying at the offset the token
    gives: [input[t.Pos : t.Pos+len(t.Val)] == t.Val].  The same holds
    of the tokens still in the channel, which are never more than two,
    and [lastPos] is the offset of the token returned last. *)
Theorem tokens_are_located (nm inp : gostring) (start : option StateFn)
  (fuel n : nat) (ts : list Token.t) l' :
  consume call fuel n (NewLexer nm inp start) = Ok (ts, l') ->
  Forall (fun t => Token.Typ t = TokenError \/ located inp t) ts /\
  Forall (fun t => Token.Typ t = TokenError \/ located inp t) (tokens l') /\
  (length (tokens l') <= tokens_cap)%nat /\
  input l' = inp /\
  (forall t, last ts = Some t -> lastPos l' = Token.Pos t).
Proof.
  intros E.
  assert (H0 : stream_ok inp [] (NewLexer nm inp start)).
  { unfold stream_ok. cbn. conjs; [reflexivity | lia | constructor]. }
  destruct (consume_stream_ok _ _ _ _ _ _ _ H0 E) as ((I1 & I2 & I3) & J).
  cbn [app] in I3. apply Forall_app in I3 as [I3 I4].
  conjs; try assumption.
  intros t Hlast. rewrite J, Hlast. reflexivity.
Qed.

End InterfaceTheorems.

(** ** More about [NextToken] *)

Section Receiving.

Context {StateFn : Type}.
Variable call : StateFn -> M StateFn (option StateFn).
Implicit Types l : Lexer StateFn.

Lemma set_state_same l : set_state (state l) l = l.
Proof. destruct l. reflexivity. Qed.

(** X13: while the channel holds tokens, [NextToken] returns them
    oldest first and calls no state function, whatever the grammar
    and however small the bound on the calls: [n] calls return the
    first [n] tokens of the channel in the order they were sent,
    leave the others in it, set [lastPos] to the position of the last
    one returned and change nothing else. *)
Theorem NextToken_receives_in_order (fuel n : nat) l :
  (n <= length (tokens l))%nat ->
  exists l',
    consume call fuel n l = Ok (take n (tokens l), l') /\
    tokens l' = drop n (tokens l) /\
    lastPos l' = match last (take n (tokens l)) with
                 | Some t => Token.Pos t
                 | None => lastPos l
                 end /\
    state l' = state l /\ Start l' = Start l /\ Pos l' = Pos l /\
    Width l' = Width l /\ input l' = input l /\ name l' = name l.
Proof.
  revert l. induction n as [|n IH]; intros l Hn.
  - exists l. cbn [consume take drop last]. unfold ret.
    conjs; reflexivity.
  - destruct (tokens l) as [|t rest] eqn:Ht; [cbn [length] in Hn; lia|].
    cbn [length] in Hn.
    set (l1 := set_lastPos (Token.Pos t) (set_tokens rest l)).
    destruct (IH l1 ltac:(cbn; lia))
      as (l' & E & H1 & H2 & H3 & H4 & H5 & H6 & H7 & H8).
    exists l'. cbn [consume]. unfold bind.
    rewrite (NextToken_buffered call fuel l t rest Ht). fold l1.
    rewrite E. unfold ret.
    cbn [tokens lastPos state Start Pos Width input name
           set_lastPos set_tokens l1] in *.
    cbn [take drop]. conjs; try assumption; try reflexivity.
    rewrite H2. destruct n as [|n'].
    + cbn [take last]. reflexivity.
    + destruct rest as [|t2 rest']; [cbn [length] in Hn; lia|].
      cbn [take]. rewrite last_cons_cons.
      destruct (last (t2 :: take n' rest')) eqn:EL; [reflexivity|].
      apply last_None in EL. discriminate.
Qed.

(** X14: right after [NextToken] has returned a token, [LineNumber]
    is the number of the line on which that token begins: one more
    than the number of newlines before the offset [Pos] of the token,
    whatever the scan offsets of the lexer are by then. *)
Theorem LineNumber_after_NextToken (fuel : nat) l (tok : Token.t)
  (rest : list Token.t) :
  tokens l = tok :: rest ->
  0 <= Token.Pos tok <= len (input l) ->
  len (input l) < max_int ->
  (t <- NextToken call fuel ;; n <- LineNumber ;; ret (t, n)) l =
  Ok ((tok, lines_before (input l) (Token.Pos tok)),
      set_lastPos (Token.Pos tok) (set_tokens rest l)).
Proof.
  intros Ht HP Hmax. unfold bind at 1.
  rewrite (NextToken_buffered call fuel l tok rest Ht).
  unfold bind. rewrite LineNumber_eq by assumption. reflexivity.
Qed.

(** X15: [NextToken] returns only when a token is in the channel.  A
    state function that sends nothing, changes nothing and asks to be
    called again keeps [NextToken] in its loop for ever: whatever the
    bound on the turns of the loop, the bound is used up; and [run]
    likewise. *)
Theorem NextToken_spins (f : StateFn) l :
  tokens l = [] ->
  state l = Some f ->
  call f l = Ok (Some f, l) ->
  forall fuel,
    NextToken call fuel l = OutOfFuel /\ run call fuel l = OutOfFuel.
Proof.
  intros Ht Hs Hc fuel. split.
  - induction fuel as [|fuel IH].
    + apply NextToken_out_of_fuel. exact Ht.
    + rewrite (NextToken_default call fuel l f Ht Hs).
      unfold bind at 1. rewrite Hc. unfold bind, modify.
      rewrite <- Hs, set_state_same. exact IH.
  - unfold run, bind, get. rewrite Hs.
    induction fuel as [|fuel IH]; [reflexivity|].
    cbn [run_loop]. unfold bind. rewrite Hc. exact IH.
Qed.

End Receiving.

Section ErrorTokens.

Context {StateFn Arg : Type}.
Variable call : StateFn -> M StateFn (option StateFn).
Variable Sprintf : gostring -> list Arg -> gostring.
Implicit Types l : Lexer StateFn.

(** X16: a state function that returns [l.Errorf(format, args...)],
    called by [NextToken] with the channel empty, makes [NextToken]
    return a token of the error type with the formatted message as
    text and [Start], the beginning of the pending text, as position;
    the scan offsets stay where they were, [l.state] is nil
    afterwards, and the next call of [NextToken] panics on it. *)
Theorem NextToken_returns_the_error_token (f : StateFn)
  (format : gostring) (args : list Arg) l :
  tokens l = [] ->
  state l = Some f ->
  call f l = Errorf Sprintf format args l ->
  forall fuel,
  exists l',
    NextToken call (S fuel) l =
    Ok (Token.mk TokenError (Sprintf format args) (Start l), l') /\
    state l' = None /\ tokens l' = [] /\ lastPos l' = Start l /\
    Start l' = Start l /\ Pos l' = Pos l /\ Width l' = Width l /\
    input l' = input l /\
    forall fuel', NextToken call (S fuel') l' = Panic.
Proof.
  intros Ht Hs Hc fuel.
  rewrite (NextToken_default call fuel l f Ht Hs).
  unfold bind at 1. rewrite Hc, Errorf_eq, Ht.
  cbn [length Nat.leb tokens_cap app]. unfold bind, modify.
  erewrite NextToken_buffered by reflexivity.
  eexists. split; [reflexivity|].
  cbn [state tokens lastPos Start Pos Width input
         set_lastPos set_tokens set_state Token.Pos].
  conjs; reflexivity.
Qed.

End ErrorTokens.

(** ** The methods together *)

Section Together.

Context {StateFn : Type}.
Implicit Types l : Lexer StateFn.

Lemma pending_grows l (run t : gostring) (w : Z) :
  cursor_inv l -> rest l = run ++ t ->
  cursor_inv (set_Pos (Pos l + len run) (set_Width w l)) /\
  pending (set_Pos (Pos l + len run) (set_Width w l)) = pending l ++ run.
Proof.
  intros Hi Hs.
  pose proof Hi as ((H1 & H2) & H3).
  assert (Hlen : len (input l) - Pos l = len run + len t).
  { rewrite <- len_rest by lia. rewrite Hs. apply len_app. }
  pose proof (len_nonneg run). pose proof (len_nonneg t).
  assert (Hi1 : cursor_inv (set_Pos (Pos l + len run) (set_Width w l))).
  { unfold cursor_inv. cbn [Start Pos input set_Pos set_Width]. lia. }
  split; [exact Hi1|].
  destruct (pending_located l Hi) as (Sa & _ & _).
  destruct (pending_located _ Hi1) as (Sb & _ & _).
  cbn [Start Pos input set_Pos set_Width] in Sb.
  assert (Sr : slice (input l) (Pos l) (Pos l + len run) = Ok run).
  { rewrite slice_ok by lia.
    replace (Pos l + len run - Pos l) with (len run) by lia.
    fold (rest l). rewrite Hs. unfold len. rewrite Nat2Z.id.
    rewrite take_app_length. reflexivity. }
  pose proof (slice_app _ _ _ _ _ _ Sa Sr) as Sab.
  congruence.
Qed.

(** X17: [AcceptRun valid] followed by [Emit t], from a state with the
    offsets in order and room in the channel, sends one token: its
    text is the pending text followed by the longest run of code
    points of [valid] at the scan offset, its position is [Start];
    afterwards nothing is pending and the scan stands at the end of
    the input or before a code point that is not in [valid]. *)
Theorem AcceptRun_then_Emit (valid : gostring) (t : TokenType) l :
  typed l ->
  cursor_inv l ->
  (length (tokens l) < tokens_cap)%nat ->
  exists run after l',
    (AcceptRun valid ;; Emit t) l = Ok (tt, l') /\
    tokens l' = tokens l ++ [Token.mk t (pending l ++ run) (Start l)] /\
    rest l = run ++ after /\
    Forall (code_point_of valid) (utf8.runes run) /\
    (after = [] \/
     ~ code_point_of valid (fst (utf8.DecodeRuneInString after))) /\
    Pos l' = Pos l + len run /\ Start l' = Pos l' /\ rest l' = after /\
    cursor_inv l'.
Proof.
  intros Ht Hi Hroom.
  pose proof Hi as ((H1 & H2) & H3).
  destruct (AcceptRun_total valid l Ht ltac:(lia)) as (run & after & Hrun & HA).
  destruct Hrun as (Hs & _ & Hall & Hstop).
  destruct (pending_grows l run after
              (snd (utf8.DecodeRuneInString after)) Hi Hs) as [Hi1 Hp1].
  exists run, after. unfold bind. rewrite HA.
  rewrite Emit_in_order by assumption.
  cbn [tokens set_Pos set_Width].
  destruct (Nat.leb_spec tokens_cap (length (tokens l))); [lia|].
  eexists. split; [reflexivity|].
  rewrite Hp1.
  cbn [tokens Start Pos input set_Start set_tokens set_Pos set_Width].
  conjs; try reflexivity; try assumption.
  - eapply Forall_impl; [exact Hall|].
    intros r Hr. apply in_set_code_point. exact Hr.
  - destruct Hstop as [Hnil | Hout]; [left; exact Hnil|].
    right. intros Hin. apply in_set_code_point in Hin. congruence.
  - unfold rest. cbn [Pos input set_Start set_tokens set_Pos set_Width].
    replace (Z.to_nat (Pos l + len run))
      with (Z.to_nat (Pos l) + length run)%nat by (unfold len; lia).
    rewrite <- drop_drop. fold (rest l). rewrite Hs.
    apply drop_app_length.
  - unfold cursor_inv in *.
    cbn [Start Pos input set_Start set_tokens set_Pos set_Width] in *. lia.
Qed.

(** X18: the token start can move backwards.  [Backup] may follow the
    [Emit] that follows a [Next], and [Ignore] then sets [Start] to
    the [Pos] that [Backup] has put before it; the code point that
    [Next] and [Emit] have just sent as text is then read and sent
    once more, so two tokens of one scan can hold the same bytes of
    the input. *)
Theorem Backup_then_Ignore_repeats_text (a b : TokenType) l :
  typed l ->
  cursor_inv l ->
  Pos l < len (input l) ->
  tokens l = [] ->
  exists (c : gostring) l',
    (Next ;; Emit a ;; Backup ;; Ignore ;; Next ;; Emit b) l = Ok (tt, l') /\
    tokens l' = [Token.mk a (pending l ++ c) (Start l);
                 Token.mk b c (Pos l)] /\
    1 <= len c <= 4 /\
    slice (input l) (Pos l) (Pos l + len c) = Ok c /\
    Start l' = Pos l + len c /\ Pos l' = Pos l + len c.
Proof.
  intros Ht Hi Hin Hb.
  pose proof Hi as ((H1 & H2) & H3).
  pose proof (typed_len l Ht) as Hmax. pose proof (typed_Pos l Ht) as HPi.
  assert (Hne : rest l <> []) by (apply rest_nonempty; lia).
  pose proof (decode_width _ Hne) as [Hw1 Hw2].
  set (w := snd (utf8.DecodeRuneInString (rest l))) in *.
  set (c := take (Z.to_nat w) (rest l)).
  assert (Hc : len c = w).
  { unfold c, len in *. rewrite length_take. lia. }
  rewrite len_rest in Hw2 by lia.
  assert (Hs : rest l = c ++ drop (Z.to_nat w) (rest l))
    by (unfold c; rewrite take_drop; reflexivity).
  exists c.
  unfold bind at 1. rewrite Next_decode by (assumption || lia). fold w.
  set (l1 := set_Pos (Pos l + w) (set_Width w l)).
  destruct (pending_grows l c _ w Hi Hs) as [Hi1 Hp1].
  rewrite Hc in Hi1, Hp1. fold l1 in Hi1, Hp1.
  unfold bind at 1. rewrite Emit_in_order by assumption.
  unfold l1 at 1. cbn [tokens set_Pos set_Width]. rewrite Hb.
  cbn [length Nat.leb tokens_cap app]. rewrite Hp1.
  unfold bind at 1. rewrite Backup_eq.
  unfold bind at 1. rewrite Ignore_eq.
  cbn [Start Pos Width input tokens set_Start set_tokens set_Pos set_Width l1].
  replace (Pos l + w - w) with (Pos l) by lia.
  rewrite wrap_id by assumption.
  set (l2 := set_Start _ _).
  assert (E2 : Pos l2 = Pos l /\ Start l2 = Pos l /\ input l2 = input l /\
               rest l2 = rest l /\
               tokens l2 = [Token.mk a (pending l ++ c) (Start l)]).
  { unfold l2, rest. cbn [Start Pos input tokens set_Start set_tokens set_Pos
                            set_Width l1]. rewrite Hb. conjs; reflexivity. }
  destruct E2 as (P2 & S2 & I2 & R2 & T2).
  assert (Hi2 : cursor_inv l2).
  { unfold cursor_inv. rewrite P2, S2, I2. lia. }
  unfold bind at 1. rewrite Next_decode by (rewrite ?P2, ?I2; assumption || lia).
  rewrite R2, P2. fold w.
  set (l3 := set_Pos (Pos l + w) (set_Width w l2)).
  destruct (pending_grows l2 c _ w Hi2 ltac:(rewrite R2; exact Hs))
    as [Hi3 Hp3].
  rewrite Hc, P2 in Hi3, Hp3. fold l3 in Hi3, Hp3.
  assert (Hp2 : pending l2 = []).
  { unfold pending. rewrite P2, S2, Z.sub_diag. reflexivity. }
  rewrite Hp2 in Hp3. cbn [app] in Hp3.
  rewrite Emit_in_order by assumption.
  unfold l3 at 1. cbn [tokens set_Pos set_Width]. rewrite T2.
  cbn [length Nat.leb tokens_cap app]. rewrite Hp3.
  eexists. split; [reflexivity|].
  cbn [tokens Start Pos set_Start set_tokens set_Pos set_Width l3].
  rewrite S2, Hc, ?T2.
  conjs; try reflexivity; try lia.
  rewrite slice_ok by lia.
  replace (Pos l + w - Pos l) with w by lia. reflexivity.
Qed.

End Together.

(** ** The theorems of the last sections at concrete states

    The cursor theorems are taken at the state [NewLexer] returns for
    the input ["a1"], the others at the grammars defined with the
    specifications. *)

Ltac typed_here :=
  unfold typed, is_int; repeat split; vm_compute; discriminate.

Ltac lexing_tac :=
  repeat first
    [ apply lx_ret | apply lx_get | apply lx_Next | apply lx_Backup
    | apply lx_Peek | apply lx_Accept | apply lx_AcceptRun | apply lx_Ignore
    | apply lx_Emit | apply lx_Errorf | apply lx_LineNumber | apply lx_bind
    | intro
    | match goal with |- lexing (if ?c then _ else _) => destruct c end ].

Lemma Arith_lexing (f : Arith.fn) : lexing (Arith.body f).
Proof. destruct f. unfold Arith.body. lexing_tac. Qed.

Lemma Accept_takes_code_point_of_valid_witness :
  typed fresh_a1 /\ 0 <= Pos fresh_a1 /\
  exists (b : bool) l',
    Accept (str "a") fresh_a1 = Ok (b, l') /\
    (b = true <->
     Pos fresh_a1 < len (input fresh_a1) /\
     code_point_of (str "a")
       (fst (utf8.DecodeRuneInString (rest fresh_a1)))) /\
    Width l' = snd (utf8.DecodeRuneInString (rest fresh_a1)) /\
    Pos l' = (if b then Pos fresh_a1 + Width l' else Pos fresh_a1) /\
    (b = true -> 1 <= Width l' <= 4 /\ Pos l' <= len (input fresh_a1)) /\
    (b = true -> Backup l' = Ok (tt, set_Pos (Pos fresh_a1) l')) /\
    Start l' = Start fresh_a1 /\ input l' = input fresh_a1 /\
    tokens l' = tokens fresh_a1 /\ state l' = state fresh_a1 /\
    lastPos l' = lastPos fresh_a1 /\ name l' = name fresh_a1.
Proof.
  assert (H : typed fresh_a1) by typed_here.
  assert (H0 : 0 <= Pos fresh_a1) by (vm_compute; discriminate).
  split; [exact H|]. split; [exact H0|].
  exact (Accept_takes_code_point_of_valid (str "a") fresh_a1 H H0).
Defined.

Lemma AcceptRun_reaches_fixed_point_witness :
  typed fresh_a1 /\ 0 <= Pos fresh_a1 <= len (input fresh_a1) /\
  exists l1,
    AcceptRun (str "a") fresh_a1 = Ok (tt, l1) /\
    Accept (str "a") l1 = Ok (false, l1) /\
    AcceptRun (str "a") l1 = Ok (tt, l1) /\
    Pos fresh_a1 <= Pos l1 <= len (input fresh_a1) /\
    Width l1 = snd (utf8.DecodeRuneInString (rest l1)) /\
    (Width l1 = 0 <-> Pos l1 = len (input fresh_a1)).
Proof.
  assert (H : typed fresh_a1) by typed_here.
  assert (H0 : 0 <= Pos fresh_a1 <= len (input fresh_a1))
    by (split; vm_compute; discriminate).
  split; [exact H|]. split; [exact H0|].
  exact (AcceptRun_reaches_fixed_point (str "a") fresh_a1 H H0).
Defined.

Lemma Next_walks_code_points_witness :
  typed fresh_a1 /\ 0 <= Pos fresh_a1 <= len (input fresh_a1) /\
  exists l',
    nexts (length (utf8.runes (rest fresh_a1))) fresh_a1 =
    Ok (utf8.runes (rest fresh_a1), l') /\
    Pos l' = len (input fresh_a1) /\
    Next l' = Ok (EOF, set_Width 0 l') /\
    Next (set_Width 0 l') = Ok (EOF, set_Width 0 l') /\
    Start l' = Start fresh_a1 /\ input l' = input fresh_a1 /\
    tokens l' = tokens fresh_a1.
Proof.
  assert (H : typed fresh_a1) by typed_here.
  assert (H0 : 0 <= Pos fresh_a1 <= len (input fresh_a1))
    by (split; vm_compute; discriminate).
  split; [exact H|]. split; [exact H0|].
  exact (Next_walks_code_points fresh_a1 H H0).
Defined.

Lemma Next_reads_encoded_code_point_witness :
  typed fresh_a1 /\ 0 <= Pos fresh_a1 /\
  utf8.ValidRune 0x61 = true /\
  rest fresh_a1 = utf8.EncodeRune 0x61 ++ str "1" /\
  exists l',
    Next fresh_a1 = Ok (0x61, l') /\
    Pos l' = Pos fresh_a1 + len (utf8.EncodeRune 0x61) /\
    Width l' = len (utf8.EncodeRune 0x61) /\
    1 <= Width l' <= 4 /\
    rest l' = str "1".
Proof.
  assert (H : typed fresh_a1) by typed_here.
  assert (H0 : 0 <= Pos fresh_a1) by (vm_compute; discriminate).
  assert (V : utf8.ValidRune 0x61 = true) by reflexivity.
  assert (R : rest fresh_a1 = utf8.EncodeRune 0x61 ++ str "1") by reflexivity.
  split; [exact H|]. split; [exact H0|]. split; [exact V|]. split; [exact R|].
  exact (Next_reads_encoded_code_point fresh_a1 0x61 (str "1") H H0 V R).
Defined.

Lemma Next_EOF_only_at_end_witness :
  typed fresh_a1 /\ 0 <= Pos fresh_a1 /\
  exists r l',
    Next fresh_a1 = Ok (r, l') /\
    (r = EOF <-> len (input fresh_a1) <= Pos fresh_a1) /\
    (Pos fresh_a1 < len (input fresh_a1) ->
     utf8.ValidRune r = true /\ 0 <= r <= utf8.MaxRune /\
     Pos fresh_a1 < Pos l').
Proof.
  assert (H : typed fresh_a1) by typed_here.
  assert (H0 : 0 <= Pos fresh_a1) by (vm_compute; discriminate).
  split; [exact H|]. split; [exact H0|].
  exact (Next_EOF_only_at_end fresh_a1 H H0).
Defined.

Lemma Backup_twice_goes_too_far_witness :
  typed fresh_a1 /\ 0 <= Pos fresh_a1 < len (input fresh_a1) /\
  exists r l',
    (r <- Next ;; Backup ;; Backup ;; ret r) fresh_a1 = Ok (r, l') /\
    1 <= Width l' <= 4 /\
    Pos l' = Pos fresh_a1 - Width l' /\
    Pos l' < Pos fresh_a1 /\
    (Pos fresh_a1 < Width l' ->
     forall valid,
       Next l' = Panic /\ Peek l' = Panic /\ AcceptRun valid l' = Panic).
Proof.
  assert (H : typed fresh_a1) by typed_here.
  assert (H0 : 0 <= Pos fresh_a1 < len (input fresh_a1))
    by (split; vm_compute; congruence).
  split; [exact H|]. split; [exact H0|].
  exact (Backup_twice_goes_too_far fresh_a1 H H0).
Defined.

Lemma third_Emit_blocks_witness :
  cursor_inv Triple.lexer /\ tokens Triple.lexer = [] /\
  state Triple.lexer = Some Triple.lexThree /\
  Triple.body Triple.lexThree Triple.lexer =
  (Emit 1 ;; Emit 2 ;; Emit 3 ;; ret None) Triple.lexer /\
  (exists l2, (Emit 1 ;; Emit 2) Triple.lexer = Ok (tt, l2) /\
              length (tokens l2) = 2%nat) /\
  Triple.body Triple.lexThree Triple.lexer = Blocked /\
  (forall fuel, NextToken Triple.body (S fuel) Triple.lexer = Blocked) /\
  (forall fuel, run Triple.body (S fuel) Triple.lexer = Blocked).
Proof.
  assert (H : cursor_inv Triple.lexer)
    by (unfold cursor_inv; repeat split; vm_compute; discriminate).
  split; [exact H|]. split; [reflexivity|]. split; [reflexivity|].
  split; [reflexivity|].
  exact (third_Emit_blocks Triple.body Triple.lexThree 1 2 3 (ret None)
           Triple.lexer H eq_refl eq_refl eq_refl).
Defined.

Lemma LineNumber_counts_newlines_witness :
  len (input fresh_a1) < max_int /\
  (0 <= lastPos fresh_a1 <= len (input fresh_a1) ->
   LineNumber fresh_a1 =
   Ok (lines_before (input fresh_a1) (lastPos fresh_a1), fresh_a1) /\
   1 <= lines_before (input fresh_a1) (lastPos fresh_a1)
   <= lastPos fresh_a1 + 1) /\
  (lastPos fresh_a1 = 0 -> LineNumber fresh_a1 = Ok (1, fresh_a1)) /\
  (lastPos fresh_a1 < 0 \/ len (input fresh_a1) < lastPos fresh_a1 ->
   LineNumber fresh_a1 = Panic) /\
  (forall n b,
      0 <= n -> input fresh_a1 !! Z.to_nat n = Some b ->
      lines_before (input fresh_a1) (n + 1) =
      lines_before (input fresh_a1) n
      + (if Byte.eqb b newline then 1 else 0)) /\
  (forall a b, a <= b ->
               lines_before (input fresh_a1) a
               <= lines_before (input fresh_a1) b).
Proof.
  assert (H : len (input fresh_a1) < max_int) by reflexivity.
  split; [exact H|].
  exact (LineNumber_counts_newlines fresh_a1 H).
Defined.

Lemma state_function_only_sends_witness :
  lexing (Arith.body Arith.lexStart) /\
  Arith.body Arith.lexStart (Arith.lexer (str "1 + 23")) =
  Ok (Some Arith.lexStart,
      mkLexer (str "arith") (str "1 + 23") (Some Arith.lexStart) 1 1 0 1
        [Token.mk 1 (str "1") 0]) /\
  tokens (mkLexer (str "arith") (str "1 + 23") (Some Arith.lexStart) 1 1 0 1
            [Token.mk 1 (str "1") 0]) =
  tokens (Arith.lexer (str "1 + 23")) ++ [Token.mk 1 (str "1") 0] /\
  located (str "1 + 23") (Token.mk 1 (str "1") 0).
Proof.
  assert (E : Arith.body Arith.lexStart (Arith.lexer (str "1 + 23")) =
              Ok (Some Arith.lexStart,
                  mkLexer (str "arith") (str "1 + 23") (Some Arith.lexStart)
                    1 1 0 1 [Token.mk 1 (str "1") 0]))
    by (vm_compute; reflexivity).
  split; [exact (Arith_lexing Arith.lexStart)|]. split; [exact E|].
  destruct (state_function_only_sends _ _ _ _
              (Arith_lexing Arith.lexStart) E)
    as (_ & _ & _ & _ & _ & (new & Hn & Hall) & _).
  split; [reflexivity|].
  cbn [tokens Arith.lexer NewLexer app] in Hn. subst new.
  apply Forall_cons in Hall as [[Hbad | Hloc] _];
    [discriminate Hbad | exact Hloc].
Defined.

Lemma run_never_stores_state_witness :
  (forall f, lexing (Arith.body f)) /\
  run Arith.body 5 (Arith.lexer (str "1")) =
  Ok (tt, mkLexer (str "arith") (str "1") (Some Arith.lexStart) 1 1 0 0
            [Token.mk 1 (str "1") 0; Token.mk TokenEOF [] 1]) /\
  state (mkLexer (str "arith") (str "1") (Some Arith.lexStart) 1 1 0 0
           [Token.mk 1 (str "1") 0; Token.mk TokenEOF [] 1]) =
  state (Arith.lexer (str "1")).
Proof.
  assert (E : run Arith.body 5 (Arith.lexer (str "1")) =
              Ok (tt, mkLexer (str "arith") (str "1") (Some Arith.lexStart)
                        1 1 0 0
                        [Token.mk 1 (str "1") 0; Token.mk TokenEOF [] 1]))
    by (vm_compute; reflexivity).
  split; [exact Arith_lexing|]. split; [exact E|].
  exact (proj1 (run_never_stores_state Arith.body Arith_lexing 5 _ _ E)).
Defined.

Lemma tokens_are_located_witness :
  (forall f, lexing (Arith.body f)) /\
  consume Arith.body 10 4 (NewLexer (str "arith") (str "1 + 23")
                             (Some Arith.lexStart)) =
  Ok ([Token.mk 1 (str "1") 0; Token.mk 2 (str "+") 2;
       Token.mk 1 (str "23") 4; Token.mk TokenEOF [] 6],
      mkLexer (str "arith") (str "1 + 23") None 6 6 6 0 []) /\
  Forall (fun t => Token.Typ t = TokenError \/ located (str "1 + 23") t)
    [Token.mk 1 (str "1") 0; Token.mk 2 (str "+") 2;
     Token.mk 1 (str "23") 4; Token.mk TokenEOF [] 6].
Proof.
  assert (E : consume Arith.body 10 4
                (NewLexer (str "arith") (str "1 + 23") (Some Arith.lexStart)) =
              Ok ([Token.mk 1 (str "1") 0; Token.mk 2 (str "+") 2;
                   Token.mk 1 (str "23") 4; Token.mk TokenEOF [] 6],
                  mkLexer (str "arith") (str "1 + 23") None 6 6 6 0 []))
    by (vm_compute; reflexivity).
  split; [exact Arith_lexing|]. split; [exact E|].
  exact (proj1 (tokens_are_located Arith.body Arith_lexing _ _ _ _ _ _ _ E)).
Defined.

Lemma NextToken_receives_in_order_witness :
  (1 <= length (tokens emitted_a))%nat /\
  exists l',
    consume (fun _ : unit => ret None) 0 1 emitted_a =
    Ok (take 1 (tokens emitted_a), l') /\
    tokens l' = drop 1 (tokens emitted_a) /\
    lastPos l' = match last (take 1 (tokens emitted_a)) with
                 | Some t => Token.Pos t
                 | None => lastPos emitted_a
                 end /\
    state l' = state emitted_a /\ Start l' = Start emitted_a /\
    Pos l' = Pos emitted_a /\ Width l' = Width emitted_a /\
    input l' = input emitted_a /\ name l' = name emitted_a.
Proof.
  assert (H : (1 <= length (tokens emitted_a))%nat) by (cbn; lia).
  split; [exact H|].
  exact (NextToken_receives_in_order (fun _ : unit => ret None) 0 1
           emitted_a H).
Defined.

Lemma LineNumber_after_NextToken_witness :
  tokens emitted_a = [Token.mk 1 (str "a") 0] /\
  0 <= Token.Pos (Token.mk 1 (str "a") 0) <= len (input emitted_a) /\
  len (input emitted_a) < max_int /\
  (t <- NextToken (fun _ : unit => ret None) 0 ;;
   n <- LineNumber ;; ret (t, n)) emitted_a =
  Ok ((Token.mk 1 (str "a") 0,
       lines_before (input emitted_a) (Token.Pos (Token.mk 1 (str "a") 0))),
      set_lastPos (Token.Pos (Token.mk 1 (str "a") 0))
        (set_tokens [] emitted_a)).
Proof.
  assert (H0 : 0 <= Token.Pos (Token.mk 1 (str "a") 0)
               <= len (input emitted_a))
    by (split; vm_compute; discriminate).
  assert (H1 : len (input emitted_a) < max_int) by reflexivity.
  split; [reflexivity|]. split; [exact H0|]. split; [exact H1|].
  exact (LineNumber_after_NextToken (fun _ : unit => ret None) 0 emitted_a
           (Token.mk 1 (str "a") 0) [] eq_refl H0 H1).
Defined.

Lemma NextToken_spins_witness :
  tokens Idle.lexer = [] /\ state Idle.lexer = Some Idle.lexIdle /\
  Idle.body Idle.lexIdle Idle.lexer = Ok (Some Idle.lexIdle, Idle.lexer) /\
  forall fuel,
    NextToken Idle.body fuel Idle.lexer = OutOfFuel /\
    run Idle.body fuel Idle.lexer = OutOfFuel.
Proof.
  split; [reflexivity|]. split; [reflexivity|]. split; [reflexivity|].
  exact (NextToken_spins Idle.body Idle.lexIdle Idle.lexer
           eq_refl eq_refl eq_refl).
Defined.

Lemma NextToken_returns_the_error_token_witness :
  tokens (NewLexer (str "fail") [] (Some Fail.lexFail)) = [] /\
  state (NewLexer (str "fail") [] (Some Fail.lexFail)) = Some Fail.lexFail /\
  Fail.body Fail.lexFail (NewLexer (str "fail") [] (Some Fail.lexFail)) =
  Errorf Fail.Sprintf (str "boom") []
    (NewLexer (str "fail") [] (Some Fail.lexFail)) /\
  forall fuel,
  exists l',
    NextToken Fail.body (S fuel) (NewLexer (str "fail") [] (Some Fail.lexFail)) =
    Ok (Token.mk TokenError (Fail.Sprintf (str "boom") [])
          (Start (NewLexer (str "fail") [] (Some Fail.lexFail))), l') /\
    state l' = None /\ tokens l' = [] /\
    lastPos l' = Start (NewLexer (str "fail") [] (Some Fail.lexFail)) /\
    Start l' = Start (NewLexer (str "fail") [] (Some Fail.lexFail)) /\
    Pos l' = Pos (NewLexer (str "fail") [] (Some Fail.lexFail)) /\
    Width l' = Width (NewLexer (str "fail") [] (Some Fail.lexFail)) /\
    input l' = input (NewLexer (str "fail") [] (Some Fail.lexFail)) /\
    forall fuel', NextToken Fail.body (S fuel') l' = Panic.
Proof.
  split; [reflexivity|]. split; [reflexivity|]. split; [reflexivity|].
  exact (NextToken_returns_the_error_token Fail.body Fail.Sprintf Fail.lexFail
           (str "boom") [] (NewLexer (str "fail") [] (Some Fail.lexFail))
           eq_refl eq_refl eq_refl).
Defined.

Lemma AcceptRun_then_Emit_witness :
  typed fresh_a1 /\ cursor_inv fresh_a1 /\
  (length (tokens fresh_a1) < tokens_cap)%nat /\
  exists run after l',
    (AcceptRun (str "a") ;; Emit 1) fresh_a1 = Ok (tt, l') /\
    tokens l' =
    tokens fresh_a1 ++ [Token.mk 1 (pending fresh_a1 ++ run) (Start fresh_a1)] /\
    rest fresh_a1 = run ++ after /\
    Forall (code_point_of (str "a")) (utf8.runes run) /\
    (after = [] \/
     ~ code_point_of (str "a") (fst (utf8.DecodeRuneInString after))) /\
    Pos l' = Pos fresh_a1 + len run /\ Start l' = Pos l' /\
    rest l' = after /\ cursor_inv l'.
Proof.
  assert (H : typed fresh_a1) by typed_here.
  assert (H0 : cursor_inv fresh_a1)
    by (unfold cursor_inv; repeat split; vm_compute; discriminate).
  assert (H1 : (length (tokens fresh_a1) < tokens_cap)%nat)
    by (cbn; unfold tokens_cap; lia).
  split; [exact H|]. split; [exact H0|]. split; [exact H1|].
  exact (AcceptRun_then_Emit (str "a") 1 fresh_a1 H H0 H1).
Defined.

Lemma Backup_then_Ignore_repeats_text_witness :
  typed fresh_a1 /\ cursor_inv fresh_a1 /\
  Pos fresh_a1 < len (input fresh_a1) /\ tokens fresh_a1 = [] /\
  exists (c : gostring) l',
    (Next ;; Emit 1 ;; Backup ;; Ignore ;; Next ;; Emit 2) fresh_a1
    = Ok (tt, l') /\
    tokens l' = [Token.mk 1 (pending fresh_a1 ++ c) (Start fresh_a1);
                 Token.mk 2 c (Pos fresh_a1)] /\
    1 <= len c <= 4 /\
    slice (input fresh_a1) (Pos fresh_a1) (Pos fresh_a1 + len c) = Ok c /\
    Start l' = Pos fresh_a1 + len c /\ Pos l' = Pos fresh_a1 + len c.
Proof.
  assert (H : typed fresh_a1) by typed_here.
  assert (H0 : cursor_inv fresh_a1)
    by (unfold cursor_inv; repeat split; vm_compute; discriminate).
  assert (H1 : Pos fresh_a1 < len (input fresh_a1)) by reflexivity.
  split; [exact H|]. split; [exact H0|]. split; [exact H1|].
  split; [reflexivity|].
  exact (Backup_then_Ignore_repeats_text 1 2 fresh_a1 H H0 H1 eq_refl).
Defined.

(** The state after the first [Next] on ["a1"]. *)
Lemma reached_in_input_witness :
  reached true (mkLexer (str "t") (str "a1") (@None unit) 0 1 0 1 []) /\
  typed (mkLexer (str "t") (str "a1") (@None unit) 0 1 0 1 []) /\
  0 <= Pos (mkLexer (str "t") (str "a1") (@None unit) 0 1 0 1 [])
  <= len (input (mkLexer (str "t") (str "a1") (@None unit) 0 1 0 1 [])) /\
  0 <= Start (mkLexer (str "t") (str "a1") (@None unit) 0 1 0 1 [])
  <= len (input (mkLexer (str "t") (str "a1") (@None unit) 0 1 0 1 [])) /\
  0 <= Width (mkLexer (str "t") (str "a1") (@None unit) 0 1 0 1 []) <= 4 /\
  (true = true ->
   Width (mkLexer (str "t") (str "a1") (@None unit) 0 1 0 1 [])
   <= Pos (mkLexer (str "t") (str "a1") (@None unit) 0 1 0 1 [])).
Proof.
  assert (R : reached true (mkLexer (str "t") (str "a1") (@None unit) 0 1 0 1 [])).
  { apply (reached_Next false fresh_a1 0x61).
    - apply reached_new. vm_compute. discriminate.
    - reflexivity. }
  split; [exact R|].
  exact (reached_in_input true _ R).
Defined.
